(** * ffmpeg-api: timeline composition, caption cues and the zoom effect

    A shallow embedding of the pure planning logic of the Lambda handler
    ([index.js] and its historical variants): the insertion point
    scheduler, the segment composer, the SRT caption builder, the
    zoompan expression and the B-roll clip selector.

    Numbers.  A JavaScript number is an IEEE 754 double; every finite
    double is a rational, and the model carries numbers as rationals
    [Q], compared with [==] ([Qeq]).  The timeline arithmetic of the
    scheduler, the composer and the zoompan expression is taken exact.
    [formatTimestamp] prints digits that depend on how the quotients
    and the product are rounded, so its arithmetic rounds every result
    to the nearest double ([Double.round]), on arguments that are
    doubles ([Double.isDouble]).  [NaN] and the infinities are not
    numbers of this model.  Integers that the code uses as loop counters
    and array indices are [Z] or [nat]. *)

From Stdlib Require Import String Ascii DecimalString Bool Arith.
From Stdlib Require Import QArith Qround Qminmax Qpower ZArith List Permutation Lia Lqa.
From Stdlib Require DecimalZ.
Import ListNotations.

Open Scope Q_scope.

(* ------------------------------------------------------------------ *)
(** ** IEEE 754 doubles as rationals *)

Module Double.

(** [2 ^ e]. *)
Definition pow2 (e : Z) : Q := 2 ^ e.

(** The binade of a positive number: the [k] with
    [2^k <= p < 2^(k+1)]. *)
Definition binade (p : Q) : Z :=
  let k := (Z.log2 (Qnum p) - Z.log2 (Zpos (Qden p)))%Z in
  if Qle_bool (pow2 k) p then k else (k - 1)%Z.

(** The exponent of the last place of the doubles of that binade:
    53 significant bits, and [2^-1074] for the subnormal numbers. *)
Definition quantum (p : Q) : Z := Z.max (binade p - 52) (-1074).

(** The nearest integer, the even one of two that are equally near. *)
Definition nearestEven (q : Q) : Z :=
  let n := Qfloor q in
  match Qcompare (q - inject_Z n) (1 # 2) with
  | Lt => n
  | Gt => (n + 1)%Z
  | Eq => if Z.even n then n else (n + 1)%Z
  end.

Definition roundPos (p : Q) : Q :=
  inject_Z (nearestEven (p / pow2 (quantum p))) * pow2 (quantum p).

(** The double nearest to [x] (round to nearest, ties to even).  No
    result of the code modelled here reaches the overflow threshold
    [2^1024]. *)
Definition round (x : Q) : Q :=
  match Qnum x with
  | Z0 => 0
  | Zpos _ => roundPos x
  | Zneg _ => - roundPos (- x)
  end.

(** The rationals that are doubles. *)
Definition isDouble (x : Q) : Prop := round x == x.

(** [a / b] and [a * b] on doubles. *)
Definition div (a b : Q) : Q := round (a / b).
Definition mul (a b : Q) : Q := round (a * b).

(** [r] is a whole multiple of [2^g]. *)
Definition onGrid (g : Z) (r : Q) : Prop := exists n : Z, r == inject_Z n * pow2 g.

(** The grid on which a double and the integers lie. *)
Definition gridOf (x : Q) : Z := Z.min (quantum x) 0.

End Double.

(* ------------------------------------------------------------------ *)
(** ** The JavaScript runtime pieces the handlers rely on *)

Module JS.

(** A thrown exception: the constructor name and the message. *)
Inductive error : Type :=
| JsError (name : string) (message : string).

(** The outcome of a call: a returned value or a thrown exception. *)
Inductive result (A : Type) : Type :=
| Ok (a : A)
| Throw (e : error).
Arguments Ok {A} a.
Arguments Throw {A} e.

Definition bind {A B : Type} (r : result A) (k : A -> result B) : result B :=
  match r with
  | Ok a => k a
  | Throw e => Throw e
  end.

(** Reading a property of [undefined]. *)
Definition undefinedProperty {A : Type} (prop : string) : result A :=
  Throw (JsError "TypeError"
           ("Cannot read properties of undefined (reading '" ++ prop ++ "')")%string).

(** [Math.min(a, b)]. *)
Definition Math_min (a b : Q) : Q := Qmin a b.

(** [Math.floor(x)]. *)
Definition Math_floor (x : Q) : Z := Qfloor x.

(** Rounding toward zero, as the remainder operator does. *)
Definition trunc (x : Q) : Z :=
  if Qlt_le_dec x 0 then Qceiling x else Qfloor x.

(** [x % y] on numbers: the result takes the sign of the dividend; the
    remainder of two doubles is a double, nothing is rounded. *)
Definition rem (x y : Q) : Q := x - y * inject_Z (trunc (x / y)).

(** [a < b] and [a > b] as booleans. *)
Definition lt (a b : Q) : bool := if Qlt_le_dec a b then true else false.
Definition gt (a b : Q) : bool := lt b a.

(** The line feed of a template literal. *)
Definition nl : string := String (ascii_of_nat 10) EmptyString.

(** The decimal digits of an integer: [String(n)] and [`${n}`] for a
    counter, an index or any integral number below [1e21]. *)
Definition toString (n : Z) : string := NilZero.string_of_int (Z.to_int n).

(** A numeral without its trailing zeros. *)
Fixpoint stripZeros (s : string) : string :=
  match s with
  | EmptyString => EmptyString
  | String c r =>
      match stripZeros r with
      | EmptyString => if Ascii.eqb c "0" then EmptyString else String c EmptyString
      | r' => String c r'
      end
  end.

(** The exponent form [d.ddde+n] of a positive integer. *)
Definition scientific (c : Z) : string :=
  let all := toString c in
  let e := toString (Z.of_nat (String.length all - 1)) in
  match stripZeros all with
  | EmptyString => all
  | String d EmptyString => String d ("e+" ++ e)
  | String d rest => String d ("." ++ rest ++ "e+" ++ e)
  end.

(** The integer with the fewest significant digits that reads back as
    the double [v] (the nearer one of two, the even one of two equally
    near): [k] digits are tried, then [k + 1], and so on; [n] is the
    number of digits of [v]. *)
Fixpoint shortest (v : Z) (n k fuel : nat) : Z :=
  match fuel with
  | O => v
  | S fuel' =>
      let scale := (10 ^ Z.of_nat (n - k))%Z in
      let lo := (v / scale * scale)%Z in
      let hi := (lo + scale)%Z in
      let readsBack (c : Z) := Qeq_bool (Double.round (inject_Z c)) (inject_Z v) in
      match readsBack lo, readsBack hi with
      | true, true =>
          match (v - lo ?= hi - v)%Z with
          | Lt => lo
          | Gt => hi
          | Eq => if Z.even (v / scale) then lo else hi
          end
      | true, false => lo
      | false, true => hi
      | false, false => shortest v n (S k) fuel'
      end
  end.

(** [String(x)] for an integral double [x]: the digits below [1e21],
    the exponent form from there. *)
Definition numberToString (n : Z) : string :=
  if (Z.abs n <? 10 ^ 21)%Z then toString n
  else
    let digits := String.length (toString (Z.abs n)) in
    let sci := scientific (shortest (Z.abs n) digits 1 17) in
    if (n <? 0)%Z then ("-" ++ sci)%string else sci.

(** [n] characters taken cyclically from [pad], continuing with [cur]. *)
Fixpoint fill (n : nat) (cur pad : string) : string :=
  match n with
  | O => EmptyString
  | S n' =>
      match cur with
      | String c r => String c (fill n' r pad)
      | EmptyString =>
          match pad with
          | String c r => String c (fill n' r pad)
          | EmptyString => EmptyString
          end
      end
  end.

(** [s.padStart(targetLength, padString)]. *)
Definition padStart (s : string) (targetLength : nat) (padString : string) : string :=
  if (targetLength <=? String.length s)%nat then s
  else (fill (targetLength - String.length s) padString padString ++ s)%string.

(** [arr.join(sep)]. *)
Fixpoint join (arr : list string) (sep : string) : string :=
  match arr with
  | [] => EmptyString
  | [s] => s
  | s :: rest => (s ++ sep ++ join rest sep)%string
  end.

(** A relative index of [slice], clamped to [0 .. len]. *)
Definition relIndex (len : nat) (k : Z) : nat :=
  if (k <? 0)%Z then Z.to_nat (Z.max (Z.of_nat len + k) 0)
  else Z.to_nat (Z.min k (Z.of_nat len)).

(** [arr.slice(from, to)]. *)
Definition slice {A : Type} (arr : list A) (from to : Z) : list A :=
  let f := relIndex (List.length arr) from in
  let t := relIndex (List.length arr) to in
  firstn (t - f) (skipn f arr).

(** [s.endsWith(suffix)]. *)
Definition endsWith (s suffix : string) : bool :=
  let n := String.length s in
  let m := String.length suffix in
  (m <=? n)%nat && String.eqb (String.substring (n - m) m s) suffix.

(** [path.join(dir, name)] for a directory without trailing slash and a
    plain file name. *)
Definition path_join (dir name : string) : string := (dir ++ "/" ++ name)%string.

End JS.

Export JS.

Notation "x <- r ;; k" := (JS.bind r (fun x => k))
  (at level 61, r at next level, right associativity).

(* ------------------------------------------------------------------ *)
(** ** Insertion point scheduler: [calculateInsertionPoints] *)

Module Scheduler.

Definition startBuffer : Q := 3.
Definition endBuffer : Q := 3.

(** The body of [for (let i = 1; i <= count; i++)]: [n] iterations are
    left, [i] is the loop counter, the pushed points come out in
    order. *)
Fixpoint pointsLoop (interval : Q) (i : Z) (n : nat) : list Q :=
  match n with
  | O => []
  | S n' =>
      let point := startBuffer + (interval * inject_Z i) in
      point :: pointsLoop interval (i + 1) n'
  end.

(** An integer [count] makes the loop run [count] times (none when
    [count <= 0]). *)
Definition calculateInsertionPoints (totalDuration : Q) (count : Z) : list Q :=
  let usableDuration := totalDuration - startBuffer - endBuffer in
  let interval := usableDuration / (inject_Z count + 1) in
  pointsLoop interval 1 (Z.to_nat count).

End Scheduler.

(* ------------------------------------------------------------------ *)
(** ** B-roll library: [getRandomBrollClips] *)

Module Library.

(** An entry of [listResponse.Contents]. *)
Record S3Object : Type := { Key : string }.

(** A downloaded clip: [{ localPath, duration, key }]. *)
Record Clip : Type := { localPath : string; duration : Q; key : string }.

Definition isVideoFile (obj : S3Object) : bool :=
  endsWith (Key obj) ".mp4" || endsWith (Key obj) ".mov".

Section Selector.
(** [videoFiles.sort(() => 0.5 - Math.random())]: some reordering. *)
Variable shuffle : list S3Object -> list S3Object.
(** [s3.getObject] of a key, the write to [localPath] and
    [getVideoDuration(localPath)]; any of them may throw. *)
Variable fetchDuration : string -> string -> result Q.

(** [for (let i = 0; i < selected.length; i++)], [selected] being the
    objects from index [i] on. *)
Fixpoint downloadLoop (tmpDir : string) (selected : list S3Object) (i : nat)
  : result (list Clip) :=
  match selected with
  | [] => Ok []
  | s3Object :: rest =>
      let localPath :=
        path_join tmpDir ("broll_" ++ toString (Z.of_nat i) ++ ".mp4")%string in
      duration <- fetchDuration (Key s3Object) localPath ;;
      clips <- downloadLoop tmpDir rest (S i) ;;
      Ok ({| localPath := localPath; duration := duration; key := Key s3Object |}
            :: clips)
  end.

(** [Contents] is [None] when the listing has no such property. *)
Definition getRandomBrollClips (count : Z) (tmpDir : string)
    (Contents : option (list S3Object)) : result (list Clip) :=
  match Contents with
  | None => Throw (JsError "Error" "No B-roll clips found in S3 bucket")
  | Some [] => Throw (JsError "Error" "No B-roll clips found in S3 bucket")
  | Some contents =>
      let videoFiles := filter isVideoFile contents in
      let shuffled := shuffle videoFiles in
      let selected :=
        slice shuffled 0 (Z.min count (Z.of_nat (List.length videoFiles))) in
      downloadLoop tmpDir selected 0
  end.
End Selector.

End Library.

(* ------------------------------------------------------------------ *)
(** ** Segment composer: [buildSegments], [buildAndExtractVideoSegments],
       [applyBrollOverlays] *)

Module Composer.
Import Library.

(** The strings ['avatar'] and ['broll']. *)
Inductive SegmentType : Type := Avatar | Broll.

(** [{ type, input, start, duration }]. *)
Record Segment : Type :=
  { type : SegmentType; input : string; start : Q; duration : Q }.

Definition maxBrollDuration : Q := 4.

(** [Math.min(broll.duration, maxBrollDuration)]. *)
Definition usedDuration (broll : Clip) : Q :=
  Math_min (Library.duration broll) maxBrollDuration.

(** The [for] loop of [buildSegments]: [insertionPoints] are the points
    from index [i] on; returns the pushed segments and the final
    [currentTime]. *)
Fixpoint segmentsLoop (avatarVideo : string) (brollClips : list Clip)
    (insertionPoints : list Q) (i : nat) (currentTime : Q)
    : result (list Segment * Q) :=
  match insertionPoints with
  | [] => Ok ([], currentTime)
  | insertAt :: rest =>
      let before :=
        if gt insertAt currentTime
        then [ {| type := Avatar; input := avatarVideo;
                  start := currentTime; duration := insertAt - currentTime |} ]
        else [] in
      match nth_error brollClips i with
      | None => undefinedProperty "duration"
      | Some broll =>
          let brollDuration := usedDuration broll in
          let cut := {| type := Broll; input := localPath broll;
                        start := 0; duration := brollDuration |} in
          r <- segmentsLoop avatarVideo brollClips rest (S i)
                 (insertAt + brollDuration) ;;
          Ok (before ++ cut :: fst r, snd r)
      end
  end.

Definition buildSegments (avatarVideo : string) (brollClips : list Clip)
    (insertionPoints : list Q) (totalDuration : Q) : result (list Segment) :=
  r <- segmentsLoop avatarVideo brollClips insertionPoints 0 0 ;;
  let currentTime := snd r in
  Ok (fst r ++
      if lt currentTime totalDuration
      then [ {| type := Avatar; input := avatarVideo;
                start := currentTime; duration := totalDuration - currentTime |} ]
      else []).

(** One video-only extraction run by [buildAndExtractVideoSegments]:
    [ffmpeg (-ss ss) -i source -t t ... segPath].  The runs themselves
    are taken to succeed. *)
Record Extraction : Type :=
  { segPath : string; source : string; ss : option Q; t : Q }.

Definition segmentFile (tmpDir : string) (n : nat) : string :=
  path_join tmpDir ("segment_" ++ toString (Z.of_nat n) ++ ".mp4")%string.

(** The [for] loop of [buildAndExtractVideoSegments]; [n] is
    [segmentFiles.length] on entry. *)
Fixpoint extractLoop (avatarVideo : string) (brollClips : list Clip)
    (tmpDir : string) (insertionPoints : list Q) (i n : nat) (currentTime : Q)
    : result (list Extraction * Q) :=
  match insertionPoints with
  | [] => Ok ([], currentTime)
  | insertAt :: rest =>
      match nth_error brollClips i with
      | None => undefinedProperty "duration"
      | Some broll =>
          let brollDuration := usedDuration broll in
          let avatarDuration := insertAt - currentTime in
          let before :=
            if gt avatarDuration 0
            then [ {| segPath := segmentFile tmpDir n; source := avatarVideo;
                      ss := Some currentTime; t := avatarDuration |} ]
            else [] in
          let n' := (n + List.length before)%nat in
          let cut := {| segPath := segmentFile tmpDir n'; source := localPath broll;
                        ss := None; t := brollDuration |} in
          r <- extractLoop avatarVideo brollClips tmpDir rest (S i) (S n')
                 (insertAt + brollDuration) ;;
          Ok (before ++ cut :: fst r, snd r)
      end
  end.

(** The extractions in the order in which their files are pushed to
    [segmentFiles]. *)
Definition buildAndExtractVideoSegments (avatarVideo : string)
    (brollClips : list Clip) (insertionPoints : list Q) (totalDuration : Q)
    (tmpDir : string) : result (list Extraction) :=
  r <- extractLoop avatarVideo brollClips tmpDir insertionPoints 0 0 0 ;;
  let currentTime := snd r in
  let remainingDuration := totalDuration - currentTime in
  Ok (fst r ++
      if gt remainingDuration 0
      then [ {| segPath := segmentFile tmpDir (List.length (fst r));
                source := avatarVideo;
                ss := Some currentTime; t := remainingDuration |} ]
      else []).

(** The time window of one [overlay ... enable='between(t,a,b)'] of
    [applyBrollOverlays]; [None] where [insertionPoints[i]] is
    [undefined]. *)
Fixpoint overlayLoop (brollClips : list Clip) (insertionPoints : list Q) (i : nat)
    : list (option (Q * Q)) :=
  match brollClips with
  | [] => []
  | broll :: rest =>
      let duration := usedDuration broll in
      match nth_error insertionPoints i with
      | Some insertAt => Some (insertAt, insertAt + duration)
      | None => None
      end :: overlayLoop rest insertionPoints (S i)
  end.

Definition applyBrollOverlays (brollClips : list Clip) (insertionPoints : list Q)
    : list (option (Q * Q)) :=
  overlayLoop brollClips insertionPoints 0.

Definition sum (l : list Q) : Q := fold_right Qplus 0 l.

Definition sumDurations (segments : list Segment) : Q :=
  sum (map duration segments).

Definition sumExtracted (xs : list Extraction) : Q :=
  sum (map t xs).

Definition isBroll (s : Segment) : bool :=
  match type s with Broll => true | Avatar => false end.

(** Every cutaway has a clip, starts no earlier than the cursor
    [currentTime] and the last one ends by [totalDuration]: no cutaway
    runs into the next insertion point or past the end. *)
Fixpoint fits (brollClips : list Clip) (insertionPoints : list Q) (i : nat)
    (currentTime totalDuration : Q) : Prop :=
  match insertionPoints with
  | [] => currentTime <= totalDuration
  | insertAt :: rest =>
      currentTime <= insertAt /\
      match nth_error brollClips i with
      | Some broll =>
          fits brollClips rest (S i) (insertAt + usedDuration broll) totalDuration
      | None => False
      end
  end.

End Composer.

(* ------------------------------------------------------------------ *)
(** ** Caption cues: [formatTimestamp], [createSRTFile] *)

Module Captions.

(** An entry of [transcription.words]: [{ word, start, end }]. *)
Record Word : Type := { word : string; start : Q; end_ : Q }.

(** [words] is [None] when the response has no such property. *)
Record Transcription : Type := { words : option (list Word) }.

Definition formatTimestamp (seconds : Q) : string :=
  let hours := Math_floor (Double.div seconds 3600) in
  let minutes := Math_floor (Double.div (rem seconds 3600) 60) in
  let secs := Math_floor (rem seconds 60) in
  let milliseconds := Math_floor (Double.mul (rem seconds 1) 1000) in
  (padStart (numberToString hours) 2 "0" ++ ":" ++
   padStart (numberToString minutes) 2 "0" ++ ":" ++
   padStart (numberToString secs) 2 "0" ++ "," ++
   padStart (numberToString milliseconds) 3 "0")%string.

(** What one iteration of the loop of [createSRTFile] computes before
    it renders the entry. *)
Record Cue : Type :=
  { index : Z; startSeconds : Q; endSeconds : Q; text : string }.

(** [for (let i = 0; i < words.length; i += 3)]; [fuel] bounds the
    number of iterations. *)
Fixpoint cueLoop (words : list Word) (i : nat) (index : Z) (fuel : nat)
    : result (list Cue) :=
  match fuel with
  | O => Ok []
  | S fuel' =>
      if (i <? List.length words)%nat then
        let chunk := slice words (Z.of_nat i) (Z.of_nat i + 3) in
        let text := join (map word chunk) " " in
        match nth_error chunk 0 with
        | None => undefinedProperty "start"
        | Some first =>
            match nth_error chunk (List.length chunk - 1) with
            | None => undefinedProperty "end"
            | Some last =>
                rest <- cueLoop words (i + 3) (index + 1) fuel' ;;
                Ok ({| index := index; startSeconds := start first;
                       endSeconds := end_ last; text := text |} :: rest)
            end
        end
      else Ok []
  end.

Definition captionCues (words : list Word) : result (list Cue) :=
  cueLoop words 0 1 (List.length words).

(** The template literal pushed to [srtEntries]. *)
Definition srtEntry (c : Cue) : string :=
  (toString (index c) ++ nl ++
   formatTimestamp (startSeconds c) ++ " --> " ++ formatTimestamp (endSeconds c) ++ nl ++
   text c ++ nl)%string.

(** The content that [createSRTFile] writes to [outputFile]. *)
Definition createSRTFile (transcription : Transcription) : result string :=
  match words transcription with
  | None => undefinedProperty "length"
  | Some ws =>
      cues <- captionCues ws ;;
      Ok (join (map srtEntry cues) nl)
  end.

(** The older Express and Lambda servers: [transcription.words || []],
    and every entry is appended to [srtContent] followed by an empty
    line. *)
Module Server.

Fixpoint contentLoop (words : list Word) (i : nat) (index : Z) (fuel : nat)
    : result string :=
  match fuel with
  | O => Ok EmptyString
  | S fuel' =>
      if (i <? List.length words)%nat then
        let chunk := slice words (Z.of_nat i) (Z.of_nat i + 3) in
        match nth_error chunk 0 with
        | None => contentLoop words (i + 3) index fuel'
        | Some first =>
            match nth_error chunk (List.length chunk - 1) with
            | None => undefinedProperty "end"
            | Some last =>
                let startTime := formatTimestamp (start first) in
                let endTime := formatTimestamp (end_ last) in
                let text := join (map word chunk) " " in
                rest <- contentLoop words (i + 3) (index + 1) fuel' ;;
                Ok ((toString index ++ nl) ++
                    (startTime ++ " --> " ++ endTime ++ nl) ++
                    (text ++ nl ++ nl) ++ rest)%string
            end
        end
      else Ok EmptyString
  end.

Definition createSRTFile (transcription : Transcription) : result string :=
  let ws := match words transcription with Some ws => ws | None => [] end in
  contentLoop ws 0 1 (List.length ws).

End Server.

End Captions.

(* ------------------------------------------------------------------ *)
(** ** Pan and zoom: the [zoompan] expressions of the filter graph *)

Module Effect.

(** [mod(x, y)] of the expression evaluator. *)
Definition mod_ (x y : Q) : Q := rem x y.

(** [z=...]: 0.3s in, 4.7s hold, 0.3s out, 4.7s normal. *)
Definition zoom (time : Q) : Q :=
  if lt (mod_ time 10) 0.3 then 1 + (mod_ time 10 / 0.3) * 0.15
  else if lt (mod_ time 10) 5 then 1.15
  else if lt (mod_ time 10) 5.3 then 1.15 - ((mod_ time 10 - 5) / 0.3) * 0.15
  else 1.

(** [x=...], [iw] being the input width. *)
Definition x (iw time : Q) : Q :=
  if lt (mod_ time 30) 10 then iw / 2 - (iw / zoom time / 2)
  else if lt (mod_ time 30) 20 then iw * 0.55 - (iw / zoom time / 2)
  else iw * 0.45 - (iw / zoom time / 2).

(** [y=...], [ih] being the input height. *)
Definition y (ih time : Q) : Q := ih / 3 - (ih / zoom time / 2).

(** The fraction of the width that [x] centres the window on. *)
Definition anchorX (time : Q) : Q :=
  if lt (mod_ time 30) 10 then 1 / 2
  else if lt (mod_ time 30) 20 then 0.55
  else 0.45.

Definition anchorY : Q := 1 / 3.

(** The variant with half-second ramps and 60%/40% anchors. *)
Module HalfSecond.
Definition zoom (time : Q) : Q :=
  if lt (mod_ time 10) 0.5 then 1 + (mod_ time 10 / 0.5) * 0.15
  else if lt (mod_ time 10) 5 then 1.15
  else if lt (mod_ time 10) 5.5 then 1.15 - ((mod_ time 10 - 5) / 0.5) * 0.15
  else 1.

Definition x (iw time : Q) : Q :=
  if lt (mod_ time 30) 10 then iw / 2 - (iw / zoom time / 2)
  else if lt (mod_ time 30) 20 then iw * 0.60 - (iw / zoom time / 2)
  else iw * 0.40 - (iw / zoom time / 2).

Definition y (ih time : Q) : Q := ih / 3 - (ih / zoom time / 2).

Definition anchorX (time : Q) : Q :=
  if lt (mod_ time 30) 10 then 1 / 2
  else if lt (mod_ time 30) 20 then 0.60
  else 0.40.
End HalfSecond.

(** What the specification describes: ramp in over the first [rampIn]
    seconds of the cycle, hold until [10 - rampOut], ramp out over the
    final [rampOut] seconds. *)
Definition zoomHoldingToCycleEnd (rampIn rampOut time : Q) : Q :=
  let m := mod_ time 10 in
  if lt m rampIn then 1 + (m / rampIn) * 0.15
  else if lt m (10 - rampOut) then 1 + 0.15
  else 1 + 0.15 - ((m - (10 - rampOut)) / rampOut) * 0.15.

End Effect.

(* ------------------------------------------------------------------ *)
(** ** The B-roll step of the handler *)

Module Handler.
Import Library Scheduler Composer.

Definition tmpDir : string := "/tmp".
Definition inputVideo : string := path_join tmpDir "input.mp4".

Section Step.
Variable shuffle : list S3Object -> list S3Object.
Variable fetchDuration : string -> string -> result Q.

(** [if (brollCount > 0) { ... }] of the handler that replaces avatar
    video and keeps the original audio; [None] when the step is
    skipped. *)
Definition brollExtractions (videoDuration : Q) (brollCount : Z)
    (Contents : option (list S3Object)) : result (option (list Extraction)) :=
  if (0 <? brollCount)%Z then
    brollClips <- getRandomBrollClips shuffle fetchDuration brollCount tmpDir Contents ;;
    let insertionPoints := calculateInsertionPoints videoDuration brollCount in
    videoSegments <- buildAndExtractVideoSegments inputVideo brollClips
                       insertionPoints videoDuration tmpDir ;;
    Ok (Some videoSegments)
  else Ok None.
End Step.

End Handler.

(* ------------------------------------------------------------------ *)
(** ** The caption layout in the words of the specification *)

Module Layout.
Import Captions.

(** The decimal digit [d] as a character. *)
Definition digit (d : Z) : ascii := ascii_of_nat (48 + Z.to_nat d).

(** A number below 100 zero-padded to width 2. *)
Definition twoDigits (n : Z) : string :=
  String (digit (n / 10)) (String (digit (n mod 10)) EmptyString).

(** A number below 1000 zero-padded to width 3. *)
Definition threeDigits (n : Z) : string :=
  String (digit (n / 100)) (twoDigits (n mod 100)).

(** The time code [HH:MM:SS,mmm] of its four fields: the hours as
    [String] writes them, padded with zeros to two characters, the
    minutes and the seconds with two digits, the milliseconds with
    three. *)
Definition timecode (hh mm ss ms : Z) : string :=
  (padStart (numberToString hh) 2 "0" ++ ":" ++ twoDigits mm ++ ":" ++ twoDigits ss
   ++ "," ++ threeDigits ms)%string.

(** [s] is a time code of the time [t], whose whole milliseconds are
    [T]: the minutes and the seconds are those of [T], the hours too
    below [3600 * 2^46] seconds, and the milliseconds are those of [T], or the
    next millisecond when [t] is within [2^-44] ms of it. *)
Definition timecodeOf (t : Q) (s : string) : Prop :=
  let T := Qfloor (t * 1000) in
  exists hh ms : Z,
    s = timecode hh ((T / 60000) mod 60) ((T / 1000) mod 60) ms /\
    (0 <= hh)%Z /\ (t < 3600 * Double.pow2 46 -> hh = (T / 3600000)%Z) /\
    (0 <= ms < 1000)%Z /\
    (ms = (T mod 1000)%Z \/
     ms = (T mod 1000 + 1)%Z /\ inject_Z T + 1 - Double.pow2 (-44) <= t * 1000).

(** The times that a time code is written for. *)
Definition nonNegative (t : Q) : Prop := Double.isDouble t /\ 0 <= t.

(** The cue of a chunk whose first word is [first] and last word is
    [last]. *)
Definition cueOf (index : Z) (first last : Word) (chunk : list Word) : Cue :=
  {| index := index; startSeconds := start first; endSeconds := end_ last;
     text := join (map word chunk) " " |}.

(** Consecutive chunks of three words, the last one shorter when the
    words run out, numbered from [index]. *)
Fixpoint cuesOf (words : list Word) (index : Z) : list Cue :=
  match words with
  | [] => []
  | [a] => [cueOf index a a [a]]
  | [a; b] => [cueOf index a b [a; b]]
  | a :: b :: c :: rest => cueOf index a c [a; b; c] :: cuesOf rest (index + 1)
  end.

(** The three lines of a block. *)
Definition cueLines (c : Cue) : list string :=
  [ toString (index c);
    (formatTimestamp (startSeconds c) ++ " --> " ++ formatTimestamp (endSeconds c))%string;
    text c ].

(** The lines of the blocks, an empty line between consecutive blocks. *)
Fixpoint blocksWithBlankLines (cues : list Cue) : list string :=
  match cues with
  | [] => []
  | [c] => cueLines c
  | c :: rest => cueLines c ++ EmptyString :: blocksWithBlankLines rest
  end.

(** Every line followed by a line feed. *)
Fixpoint unlines (lines : list string) : string :=
  match lines with
  | [] => EmptyString
  | l :: rest => (l ++ nl ++ unlines rest)%string
  end.

End Layout.

(* ------------------------------------------------------------------ *)
(** ** Stitching: [stitchSegments], [stitchVideoSegments] *)

Module Stitcher.
Import Composer.

(** The extraction that [stitchSegments] runs for segment [i]: an avatar
    segment is cut with [-ss start -t duration], a B-roll clip is only
    trimmed with [-t duration]. *)
Definition extractionOf (tmpDir : string) (i : nat) (seg : Segment) : Extraction :=
  {| segPath := segmentFile tmpDir i;
     source := input seg;
     ss := match type seg with Avatar => Some (start seg) | Broll => None end;
     t := duration seg |}.

(** [for (let i = 0; i < segments.length; i++)], [segments] being the
    segments from index [i] on. *)
Fixpoint stitchLoop (tmpDir : string) (segments : list Segment) (i : nat)
    : list Extraction :=
  match segments with
  | [] => []
  | seg :: rest => extractionOf tmpDir i seg :: stitchLoop tmpDir rest (S i)
  end.

(** [segmentFiles.map(file => `file '${file}'`).join('\n')]. *)
Definition concatContent (segmentFiles : list string) : string :=
  join (map (fun file => ("file '" ++ file ++ "'")%string) segmentFiles) nl.

(** The extractions [stitchSegments] runs and the content it writes to
    [concat.txt]. *)
Definition stitchSegments (segments : list Segment) (tmpDir : string)
    : list Extraction * string :=
  let runs := stitchLoop tmpDir segments 0 in
  (runs, concatContent (map segPath runs)).

(** The content [stitchVideoSegments] writes to [concat.txt]. *)
Definition stitchVideoSegments (segmentFiles : list string) : string :=
  concatContent segmentFiles.

End Stitcher.

(* ------------------------------------------------------------------ *)
(** ** The other zoom expressions *)

Module EffectVariants.
Import Effect.

(** [lte(a, b)] of the expression evaluator. *)
Definition lte (a b : Q) : bool := negb (lt b a).

(** [floor(x)] of the expression evaluator. *)
Definition floor (x : Q) : Q := inject_Z (Qfloor x).

(** The Lambda with one-second ramps and 65%/35% anchors. *)
Module OneSecond.
Definition zoom (time : Q) : Q :=
  if lt (mod_ time 10) 1 then 1 + (mod_ time 10 / 1) * 0.15
  else if lt (mod_ time 10) 5 then 1.15
  else if lt (mod_ time 10) 6 then 1.15 - ((mod_ time 10 - 5) / 1) * 0.15
  else 1.

Definition x (iw time : Q) : Q :=
  if lt (mod_ time 30) 10 then iw / 2 - (iw / zoom time / 2)
  else if lt (mod_ time 30) 20 then iw * 0.65 - (iw / zoom time / 2)
  else iw * 0.35 - (iw / zoom time / 2).

Definition y (ih time : Q) : Q := ih / 3 - (ih / zoom time / 2).
End OneSecond.

(** The Express server: a zoom that rises for six seconds and falls for
    six, without anchors. *)
Module Express.
Definition zoom (time : Q) : Q :=
  if lte (mod_ time 12) 6
  then Qmin 1.5 (1 + (time - floor (time / 12) * 12) / 6 * 0.5)
  else Qmax 1 (1.5 - (time - floor (time / 12) * 12 - 6) / 6 * 0.5).
End Express.

End EffectVariants.

(* ------------------------------------------------------------------ *)
(** ** The handlers end to end *)

Module Lambda.
Import Library Scheduler Composer Captions Handler.

(** The destructured request: [{ videoUrl, includeZoom = true,
    brollCount = 0 }]; [None] is a missing property. *)
Record Params : Type :=
  { videoUrl : option string; includeZoom : option bool; brollCount : option Z }.

(** The object given to [JSON.stringify] for the response body. *)
Inductive Body : Type :=
| ErrorBody (error : string)
| VideoBody (videoUrl : string).

Record Response : Type := { statusCode : Z; body : Body }.

(** The outcome of every call that leaves the process. *)
Record Stages : Type :=
  { downloadVideo : string -> result unit;
    extractAudio : result unit;
    transcribeWithWhisper : result Transcription;
    writeSrt : string -> result unit;
    getVideoDuration : result Q;
    extractOriginalAudio : result unit;
    listObjects : result (option (list S3Object));
    shuffle : list S3Object -> list S3Object;
    fetchDuration : string -> string -> result Q;
    runExtraction : Extraction -> result unit;
    runConcat : string -> result unit;
    remux : result unit;
    runFilter : bool -> result unit;
    upload : result string;
    cleanup : result unit }.

(** [catch (error)]: status 500 with [error.message]. *)
Definition respond (r : result string) : Response :=
  match r with
  | Ok s3Url => {| statusCode := 200; body := VideoBody s3Url |}
  | Throw (JsError _ message) => {| statusCode := 500; body := ErrorBody message |}
  end.

Definition badRequest : Response :=
  {| statusCode := 400; body := ErrorBody "videoUrl is required" |}.

Section Handlers.
Variable w : Stages.

Definition selectClips (count : Z) : result (list Clip) :=
  contents <- listObjects w ;;
  getRandomBrollClips (shuffle w) (fetchDuration w) count tmpDir contents.

(** Steps 1 to 4: the download, the audio track, the transcription and
    the caption file. *)
Definition prepare (url : string) : result unit :=
  _ <- downloadVideo w url ;;
  _ <- extractAudio w ;;
  transcription <- transcribeWithWhisper w ;;
  content <- createSRTFile transcription ;;
  writeSrt w content.

(** Steps 6 and 7. *)
Definition finish (zoom : bool) : result string :=
  _ <- runFilter w zoom ;;
  s3Url <- upload w ;;
  _ <- cleanup w ;;
  Ok s3Url.

Definition defaults (params : Params) : bool * Z :=
  (match includeZoom params with Some z => z | None => true end,
   match brollCount params with Some c => c | None => 0%Z end).

(** One [execSync] after the other. *)
Fixpoint runAll (runs : list Extraction) : result unit :=
  match runs with
  | [] => Ok tt
  | x :: rest => _ <- runExtraction w x ;; runAll rest
  end.

(** The loop of [buildAndExtractVideoSegments] with its [execSync]
    calls where the source has them. *)
Fixpoint extractLoopRun (avatarVideo : string) (brollClips : list Clip)
    (insertionPoints : list Q) (i n : nat) (currentTime : Q)
    : result (list Extraction * Q) :=
  match insertionPoints with
  | [] => Ok ([], currentTime)
  | insertAt :: rest =>
      match nth_error brollClips i with
      | None => undefinedProperty "duration"
      | Some broll =>
          let brollDuration := usedDuration broll in
          let avatarDuration := insertAt - currentTime in
          let before :=
            if gt avatarDuration 0
            then [ {| segPath := segmentFile tmpDir n; source := avatarVideo;
                      ss := Some currentTime; t := avatarDuration |} ]
            else [] in
          _ <- runAll before ;;
          let n' := (n + List.length before)%nat in
          let cut := {| segPath := segmentFile tmpDir n'; source := localPath broll;
                        ss := None; t := brollDuration |} in
          _ <- runExtraction w cut ;;
          r <- extractLoopRun avatarVideo brollClips rest (S i) (S n')
                 (insertAt + brollDuration) ;;
          Ok (before ++ cut :: fst r, snd r)
      end
  end.

Definition buildAndExtractRun (avatarVideo : string) (brollClips : list Clip)
    (insertionPoints : list Q) (totalDuration : Q) : result (list Extraction) :=
  r <- extractLoopRun avatarVideo brollClips insertionPoints 0 0 0 ;;
  let currentTime := snd r in
  let remainingDuration := totalDuration - currentTime in
  let final :=
    if gt remainingDuration 0
    then [ {| segPath := segmentFile tmpDir (List.length (fst r));
              source := avatarVideo;
              ss := Some currentTime; t := remainingDuration |} ]
    else [] in
  _ <- runAll final ;;
  Ok (fst r ++ final).

(** The handler that replaces avatar video and keeps the original
    audio. *)
Definition handlerReplace (params : Params) : Response :=
  match videoUrl params with
  | None => badRequest
  | Some EmptyString => badRequest
  | Some url =>
      let (zoom, count) := defaults params in
      respond
        (_ <- prepare url ;;
         _ <- (if (0 <? count)%Z then
                 videoDuration <- getVideoDuration w ;;
                 _ <- extractOriginalAudio w ;;
                 brollClips <- selectClips count ;;
                 let insertionPoints := calculateInsertionPoints videoDuration count in
                 videoSegments <- buildAndExtractRun inputVideo brollClips
                                    insertionPoints videoDuration ;;
                 _ <- runConcat w (Stitcher.stitchVideoSegments
                                     (map segPath videoSegments)) ;;
                 remux w
               else Ok tt) ;;
         finish zoom)
  end.

End Handlers.

(** Every call that leaves the process succeeds, whatever the
    transcription, the duration, the listing and the upload return. *)
Definition reliable (w : Stages) : Prop :=
  (forall url, downloadVideo w url = Ok tt) /\
  extractAudio w = Ok tt /\
  (forall content, writeSrt w content = Ok tt) /\
  extractOriginalAudio w = Ok tt /\
  (forall l, Permutation (shuffle w l) l) /\
  (forall k path, exists d, fetchDuration w k path = Ok d) /\
  (forall x, runExtraction w x = Ok tt) /\
  (forall content, runConcat w content = Ok tt) /\
  remux w = Ok tt /\
  (forall zoom, runFilter w zoom = Ok tt) /\
  cleanup w = Ok tt.

(** A world in which every call succeeds: the transcription has the
    words [ws], the avatar video lasts [d] seconds, the library lists
    [contents] and every clip lasts five seconds. *)
Definition allSucceed (ws : list Word) (d : Q) (contents : list S3Object) : Stages :=
  {| downloadVideo := fun _ => Ok tt;
     extractAudio := Ok tt;
     transcribeWithWhisper := Ok {| words := Some ws |};
     writeSrt := fun _ => Ok tt;
     getVideoDuration := Ok d;
     extractOriginalAudio := Ok tt;
     listObjects := Ok (Some contents);
     shuffle := fun l => l;
     fetchDuration := fun _ _ => Ok 5;
     runExtraction := fun _ => Ok tt;
     runConcat := fun _ => Ok tt;
     remux := Ok tt;
     runFilter := fun _ => Ok tt;
     upload := Ok "https://bucket.example/processed.mp4"%string;
     cleanup := Ok tt |}.

End Lambda.

(* ------------------------------------------------------------------ *)
(** ** Orderings on timelines *)

Module Timeline.

(** [R] relates every element to the next one. *)
Fixpoint chained {A : Type} (R : A -> A -> Prop) (l : list A) : Prop :=
  match l with
  | a :: (b :: _) as rest => R a b /\ chained R rest
  | _ => True
  end.

(** Every avatar segment of [segments] is cut from the source at the
    playback position it is shown at, [from] being the position of the
    first segment. *)
Fixpoint synced (from : Q) (segments : list Composer.Segment) : Prop :=
  match segments with
  | [] => True
  | seg :: rest =>
      (Composer.type seg = Composer.Avatar -> Composer.start seg == from) /\
      synced (from + Composer.duration seg) rest
  end.

End Timeline.

(* ------------------------------------------------------------------ *)
(** ** Time codes by the millisecond *)

Module Timecode.
Import Layout.

(** The time code of [T] whole milliseconds. *)
Definition ofMillis (T : Z) : string :=
  (padStart (toString (T / 3600000)) 2 "0" ++ ":" ++
   twoDigits ((T / 60000) mod 60) ++ ":" ++
   twoDigits ((T / 1000) mod 60) ++ "," ++
   threeDigits (T mod 1000))%string.

(** Reading a decimal numeral back. *)
Definition decode (s : string) : option Z :=
  option_map Z.of_int (NilZero.int_of_string s).

End Timecode.

(* ------------------------------------------------------------------ *)
(** ** Proof automation *)

(** Splits on every comparison of [m] in the goal and closes the linear
    arithmetic that is left; the divisions by the ramp lengths are
    turned into products first. *)
Ltac zoom_cases m :=
  unfold lt;
  repeat match goal with
         | |- context [Qlt_le_dec m ?c] => destruct (Qlt_le_dec m c)
         end;
  unfold Qdiv in *;
  try change (/ 0.3) with (10 # 3) in *;
  try change (/ 0.5) with (10 # 5) in *;
  try lra.

(** Splits on every comparison in the goal, turns the divisions by the
    ramp lengths into products and closes what is linear. *)
Ltac ramp_cases :=
  unfold lt;
  repeat match goal with
         | |- context [Qlt_le_dec ?a ?c] => destruct (Qlt_le_dec a c)
         end;
  unfold Qdiv in *;
  try change (/ 0.3) with (10 # 3) in *;
  try change (/ 0.5) with (10 # 5) in *;
  try change (/ 1) with (1 # 1) in *;
  try change (/ 6) with (1 # 6) in *;
  try lra.

(* ------------------------------------------------------------------ *)
(** * Properties *)

Section SchedulerFacts.
Import Scheduler.

Lemma pointsLoop_length (interval : Q) (n : nat) :
  forall i, length (pointsLoop interval i n) = n.
Proof.
  induction n as [|n IH]; intros i; simpl; [reflexivity|].
  now rewrite IH.
Qed.

Lemma pointsLoop_nth (interval : Q) (n : nat) :
  forall i k, (k < n)%nat ->
    nth k (pointsLoop interval i n) 0
    = startBuffer + interval * inject_Z (i + Z.of_nat k).
Proof.
  induction n as [|n IH]; intros i k Hk; [lia|].
  destruct k as [|k]; simpl pointsLoop; simpl nth.
  - now rewrite Z.add_0_r.
  - rewrite IH by lia. do 3 f_equal. lia.
Qed.

Lemma interval_positive (total : Q) (count : Z) :
  startBuffer + endBuffer < total -> (0 <= count)%Z ->
  0 < (total - startBuffer - endBuffer) / (inject_Z count + 1).
Proof.
  intros Ht Hc.
  assert (Hc' : 0 <= inject_Z count)
    by (change 0 with (inject_Z 0); now rewrite <- Zle_Qle).
  apply Qlt_shift_div_l; lra.
Qed.

Lemma interval_times (total : Q) (count : Z) :
  (0 <= count)%Z ->
  (total - startBuffer - endBuffer) / (inject_Z count + 1)
    * (inject_Z count + 1)
  == total - startBuffer - endBuffer.
Proof.
  intros Hc.
  assert (Hc' : 0 <= inject_Z count)
    by (change 0 with (inject_Z 0); now rewrite <- Zle_Qle).
  rewrite Qmult_comm. apply Qmult_div_r. lra.
Qed.

End SchedulerFacts.

Section SchedulerClaims.
Import Scheduler.

(** C2.  For [totalDuration > startBuffer + endBuffer] and an integer
    [count >= 0] the scheduler returns exactly [count] points; point [i]
    (1-indexed) is [startBuffer + (usable / (count + 1)) * i] with
    [usable = totalDuration - startBuffer - endBuffer]; the points are
    strictly increasing and lie strictly inside
    [(startBuffer, totalDuration - endBuffer)]; for [totalDuration = 30]
    and [count = 2] the points are 11 and 19. *)
Theorem scheduler_points (totalDuration : Q) (count : Z) :
  startBuffer + endBuffer < totalDuration -> (0 <= count)%Z ->
  let usable := totalDuration - startBuffer - endBuffer in
  let points := calculateInsertionPoints totalDuration count in
  Z.of_nat (length points) = count /\
  (forall i, (1 <= i <= count)%Z ->
     nth (Z.to_nat (i - 1)) points 0
     == startBuffer + (usable / inject_Z (count + 1)) * inject_Z i) /\
  (forall j k, (j < k < length points)%nat -> nth j points 0 < nth k points 0) /\
  Forall (fun p => startBuffer < p /\ p < totalDuration - endBuffer) points /\
  Forall2 Qeq (calculateInsertionPoints 30 2) [11; 19].
Proof.
  intros Ht Hc usable points.
  pose proof (interval_positive totalDuration count Ht Hc) as Hpos.
  pose proof (interval_times totalDuration count Hc) as Htimes.
  assert (Hlen : length points = Z.to_nat count)
    by apply pointsLoop_length.
  assert (Hnth : forall k, (k < Z.to_nat count)%nat ->
            nth k points 0
            = startBuffer + (usable / (inject_Z count + 1)) * inject_Z (1 + Z.of_nat k))
    by (intros k Hk; apply pointsLoop_nth; exact Hk).
  fold usable in Hpos, Htimes.
  set (interval := usable / (inject_Z count + 1)) in *.
  repeat split.
  - rewrite Hlen. lia.
  - intros i Hi. rewrite Hnth by lia.
    replace (1 + Z.of_nat (Z.to_nat (i - 1)))%Z with i by lia.
    rewrite (inject_Z_plus count 1). reflexivity.
  - intros j k Hjk. rewrite Hlen in Hjk. rewrite !Hnth by lia.
    assert (Hq : inject_Z (1 + Z.of_nat j) < inject_Z (1 + Z.of_nat k))
      by (rewrite <- Zlt_Qlt; lia).
    nra.
  - apply Forall_forall. intros p Hin.
    destruct (In_nth _ _ 0 Hin) as (k & Hk & <-).
    rewrite Hlen in Hk. rewrite Hnth by lia.
    assert (H1 : inject_Z 1 <= inject_Z (1 + Z.of_nat k))
      by (rewrite <- Zle_Qle; lia).
    assert (H2 : inject_Z (1 + Z.of_nat k) <= inject_Z count)
      by (rewrite <- Zle_Qle; lia).
    change (inject_Z 1) with 1 in H1.
    unfold usable in Htimes. unfold startBuffer, endBuffer in *.
    split; nra.
  - vm_compute. repeat constructor.
Qed.

Lemma scheduler_points_witness :
  startBuffer + endBuffer < 30 /\ (0 <= 2)%Z /\
  Z.of_nat (length (calculateInsertionPoints 30 2)) = 2%Z.
Proof.
  split; [reflexivity|]. split; [lia|].
  apply (scheduler_points 30 2); [reflexivity | lia].
Defined.

End SchedulerClaims.

Section ComposerFacts.
Import Library Scheduler Composer.

Lemma sum_app (a b : list Q) : sum (a ++ b) == sum a + sum b.
Proof.
  induction a as [|q a IH]; simpl.
  - lra.
  - rewrite IH. lra.
Qed.

Lemma gt_true (a b : Q) : gt a b = true <-> b < a.
Proof.
  unfold gt, lt. destruct (Qlt_le_dec b a); split; intros; try easy; lra.
Qed.

Lemma gt_false (a b : Q) : gt a b = false <-> a <= b.
Proof.
  unfold gt, lt. destruct (Qlt_le_dec b a); split; intros; try easy; lra.
Qed.

Lemma gt_difference (a b : Q) : gt (a - b) 0 = gt a b.
Proof.
  destruct (gt a b) eqn:E.
  - apply gt_true in E. apply gt_true. lra.
  - apply gt_false in E. apply gt_false. lra.
Qed.

(** With one clip for every remaining point the loop does not throw. *)
Lemma segmentsLoop_returns (avatarVideo : string) (brollClips : list Clip)
    (insertionPoints : list Q) :
  forall i currentTime,
    (i + length insertionPoints <= length brollClips)%nat ->
    exists r, segmentsLoop avatarVideo brollClips insertionPoints i currentTime = Ok r.
Proof.
  induction insertionPoints as [|insertAt rest IH]; intros i cur Hlen; simpl.
  - eauto.
  - simpl in Hlen.
    destruct (nth_error brollClips i) as [broll|] eqn:E.
    + destruct (IH (S i) (insertAt + usedDuration broll)) as [r Hr]; [lia|].
      rewrite Hr. simpl. eauto.
    + apply nth_error_None in E. lia.
Qed.

(** The telescoping sum: what the loop emits plus what is left after
    the final cursor is what was left before. *)
Lemma segmentsLoop_sum (avatarVideo : string) (brollClips : list Clip)
    (totalDuration : Q) (insertionPoints : list Q) :
  forall i currentTime,
    fits brollClips insertionPoints i currentTime totalDuration ->
    exists segments final,
      segmentsLoop avatarVideo brollClips insertionPoints i currentTime
        = Ok (segments, final) /\
      final <= totalDuration /\
      sumDurations segments + (totalDuration - final)
        == totalDuration - currentTime.
Proof.
  induction insertionPoints as [|insertAt rest IH]; intros i cur Hfit; simpl in *.
  - exists [], cur. repeat split; [exact Hfit | unfold sumDurations; simpl; lra].
  - destruct Hfit as [Hcur Hfit].
    destruct (nth_error brollClips i) as [broll|]; [|contradiction].
    destruct (IH _ _ Hfit) as (segments & final & Hloop & Hfinal & Hsum).
    rewrite Hloop. simpl.
    eexists _, final. split; [reflexivity|]. split; [exact Hfinal|].
    unfold sumDurations in *. rewrite map_app, sum_app. simpl.
    destruct (gt insertAt cur) eqn:E; simpl.
    + lra.
    + apply gt_false in E. lra.
Qed.

Lemma buildSegments_sum (avatarVideo : string) (brollClips : list Clip)
    (insertionPoints : list Q) (totalDuration : Q) :
  fits brollClips insertionPoints 0 0 totalDuration ->
  exists segments,
    buildSegments avatarVideo brollClips insertionPoints totalDuration = Ok segments /\
    sumDurations segments == totalDuration.
Proof.
  intros Hfit.
  destruct (segmentsLoop_sum avatarVideo _ _ _ _ _ Hfit)
    as (segments & final & Hloop & Hfinal & Hsum).
  unfold buildSegments. rewrite Hloop. simpl.
  eexists. split; [reflexivity|].
  unfold sumDurations in *. rewrite map_app, sum_app.
  unfold lt. destruct (Qlt_le_dec final totalDuration); simpl; lra.
Qed.

(** The extracting variant runs the same plan: same durations, same
    final cursor, and it throws exactly when [segmentsLoop] does. *)
Lemma extractLoop_durations (avatarVideo tmpDir : string) (brollClips : list Clip)
    (insertionPoints : list Q) :
  forall i n currentTime,
    match segmentsLoop avatarVideo brollClips insertionPoints i currentTime,
          extractLoop avatarVideo brollClips tmpDir insertionPoints i n currentTime with
    | Ok r, Ok r' => map duration (fst r) = map t (fst r') /\ snd r = snd r'
    | Throw e, Throw e' => e = e'
    | _, _ => False
    end.
Proof.
  induction insertionPoints as [|insertAt rest IH]; intros i n cur; simpl.
  - split; reflexivity.
  - destruct (nth_error brollClips i) as [broll|]; [|reflexivity].
    rewrite gt_difference.
    set (before := if gt insertAt cur then _ else _).
    set (before' := if gt insertAt cur then _ else _).
    specialize (IH (S i) (S (n + length before')) (insertAt + usedDuration broll)).
    destruct (segmentsLoop _ _ rest _ _) as [r|e];
      destruct (extractLoop _ _ _ rest _ _ _) as [r'|e']; simpl; try easy.
    destruct IH as [IH1 IH2]. split; [|exact IH2].
    rewrite !map_app. simpl. rewrite IH1. f_equal.
    subst before before'. destruct (gt insertAt cur); reflexivity.
Qed.

Lemma buildAndExtract_sum (avatarVideo tmpDir : string) (brollClips : list Clip)
    (insertionPoints : list Q) (totalDuration : Q) :
  fits brollClips insertionPoints 0 0 totalDuration ->
  exists xs,
    buildAndExtractVideoSegments avatarVideo brollClips insertionPoints
      totalDuration tmpDir = Ok xs /\
    sumExtracted xs == totalDuration.
Proof.
  intros Hfit.
  destruct (segmentsLoop_sum avatarVideo _ _ _ _ _ Hfit)
    as (segments & final & Hloop & Hfinal & Hsum).
  pose proof (extractLoop_durations avatarVideo tmpDir brollClips insertionPoints
                0%nat 0%nat 0) as Hsame.
  rewrite Hloop in Hsame. unfold buildAndExtractVideoSegments.
  destruct (extractLoop _ _ _ _ _ _ _) as [[xs final']|e]; [|contradiction].
  simpl in *. destruct Hsame as [Hmap <-].
  eexists. split; [reflexivity|].
  unfold sumExtracted, sumDurations in *. rewrite map_app, sum_app, <- Hmap.
  rewrite gt_difference.
  destruct (gt totalDuration final) eqn:E; simpl.
  - lra.
  - apply gt_false in E. lra.
Qed.

(** Points spaced at least a used duration apart fit the timeline. *)
Lemma fits_pointsLoop (brollClips : list Clip) (interval totalDuration : Q) :
  0 <= interval ->
  Forall (fun c => usedDuration c <= interval) brollClips ->
  forall n i k currentTime,
    (k + n <= length brollClips)%nat ->
    currentTime <= startBuffer + interval * inject_Z i ->
    startBuffer + interval * (inject_Z i + inject_Z (Z.of_nat n)) <= totalDuration ->
    fits brollClips (pointsLoop interval i n) k currentTime totalDuration.
Proof.
  intros Hint Hused.
  induction n as [|n IH]; intros i k cur Hlen Hcur Hend.
  - simpl. change (inject_Z (Z.of_nat 0)) with 0 in Hend. lra.
  - simpl. split; [exact Hcur|].
    destruct (nth_error brollClips k) as [broll|] eqn:E.
    + assert (Hb : usedDuration broll <= interval).
      { rewrite Forall_forall in Hused. apply Hused.
        eapply nth_error_In; eassumption. }
      rewrite Nat2Z.inj_succ, <- Z.add_1_r, inject_Z_plus in Hend.
      change (inject_Z 1) with 1 in Hend.
      apply IH.
      * lia.
      * rewrite inject_Z_plus. change (inject_Z 1) with 1. lra.
      * rewrite inject_Z_plus. change (inject_Z 1) with 1. lra.
    + apply nth_error_None in E. lia.
Qed.

End ComposerFacts.

Section ComposerClaims.
Import Library Scheduler Composer.

(** C1.  A 12 second source with two cutaways of 4 seconds is a valid
    scheduler run (points 5 and 7).  The first cutaway ends at 9, after
    the second point: both composers put the second cutaway right
    behind the first and go on from 11, so that the four segments last
    5 + 4 + 4 + 1 = 14 seconds, not 12. *)
Theorem composer_overlapping_cutaways :
  startBuffer + endBuffer < 12 /\
  match
    buildSegments "/tmp/input.mp4"
      [ {| localPath := "/tmp/broll_0.mp4"; Library.duration := 4; key := "a.mp4" |};
        {| localPath := "/tmp/broll_1.mp4"; Library.duration := 4; key := "b.mp4" |} ]
      (calculateInsertionPoints 12 2) 12
  with
  | Ok segments =>
      length segments = 4%nat /\
      sumDurations segments == 14 /\ ~ sumDurations segments == 12
  | Throw _ => False
  end /\
  match
    buildAndExtractVideoSegments "/tmp/input.mp4"
      [ {| localPath := "/tmp/broll_0.mp4"; Library.duration := 4; key := "a.mp4" |};
        {| localPath := "/tmp/broll_1.mp4"; Library.duration := 4; key := "b.mp4" |} ]
      (calculateInsertionPoints 12 2) 12 "/tmp"
  with
  | Ok xs => sumExtracted xs == 14 /\ ~ sumExtracted xs == 12
  | Throw _ => False
  end.
Proof.
  split; [reflexivity|].
  vm_compute. repeat split; discriminate.
Qed.

(** X21.  For [totalDuration > startBuffer + endBuffer], an integer
    [count >= 0] and one cutaway clip per insertion point of the
    scheduler, whenever the used duration of every cutaway is at most
    the spacing [usable / (count + 1)] of the points, the segments of
    [buildSegments] and the extractions of
    [buildAndExtractVideoSegments] have durations that sum to
    [totalDuration]. *)
Theorem cutaways_within_spacing_keep_duration (avatarVideo tmpDir : string)
    (totalDuration : Q) (count : Z) (brollClips : list Clip) :
  startBuffer + endBuffer < totalDuration -> (0 <= count)%Z ->
  Z.of_nat (length brollClips) = count ->
  Forall (fun c => usedDuration c
                   <= (totalDuration - startBuffer - endBuffer) / (inject_Z count + 1))
         brollClips ->
  let insertionPoints := calculateInsertionPoints totalDuration count in
  (exists segments,
      buildSegments avatarVideo brollClips insertionPoints totalDuration = Ok segments /\
      sumDurations segments == totalDuration) /\
  (exists xs,
      buildAndExtractVideoSegments avatarVideo brollClips insertionPoints
        totalDuration tmpDir = Ok xs /\
      sumExtracted xs == totalDuration).
Proof.
  intros Ht Hc Hlen Hused insertionPoints.
  pose proof (interval_positive totalDuration count Ht Hc) as Hpos.
  pose proof (interval_times totalDuration count Hc) as Htimes.
  assert (Hfit : fits brollClips insertionPoints 0 0 totalDuration).
  { unfold insertionPoints, calculateInsertionPoints.
    set (interval := (totalDuration - startBuffer - endBuffer) / (inject_Z count + 1)) in *.
    apply fits_pointsLoop.
    - lra.
    - exact Hused.
    - lia.
    - change (inject_Z 1) with 1. unfold startBuffer. lra.
    - rewrite Z2Nat.id by exact Hc. change (inject_Z 1) with 1.
      unfold startBuffer, endBuffer in *. lra. }
  split.
  - apply buildSegments_sum; exact Hfit.
  - apply buildAndExtract_sum; exact Hfit.
Qed.

Lemma cutaways_within_spacing_keep_duration_witness :
  exists segments,
    buildSegments "/tmp/input.mp4"
      [ {| localPath := "/tmp/broll_0.mp4"; Library.duration := 7; key := "a.mp4" |};
        {| localPath := "/tmp/broll_1.mp4"; Library.duration := 2; key := "b.mov" |} ]
      (calculateInsertionPoints 30 2) 30 = Ok segments /\
    sumDurations segments == 30.
Proof.
  apply (cutaways_within_spacing_keep_duration "/tmp/input.mp4" "/tmp" 30 2).
  - reflexivity.
  - lia.
  - reflexivity.
  - repeat constructor; vm_compute; discriminate.
Defined.

Lemma in_firstn {A : Type} (n : nat) (l : list A) (a : A) :
  In a (firstn n l) -> In a l.
Proof.
  intros H. rewrite <- (firstn_skipn n l). apply in_or_app. now left.
Qed.

Lemma usedDuration_min (c : Clip) :
  usedDuration c <= Library.duration c /\
  usedDuration c <= maxBrollDuration /\
  (usedDuration c == Library.duration c \/ usedDuration c == maxBrollDuration).
Proof.
  unfold usedDuration, Math_min.
  pose proof (Q.le_min_l (Library.duration c) maxBrollDuration).
  pose proof (Q.le_min_r (Library.duration c) maxBrollDuration).
  repeat split; try assumption.
  destruct (Q.min_dec (Library.duration c) maxBrollDuration) as [E|E];
    rewrite E; [left|right]; reflexivity.
Qed.

(** The cutaway segments of the loop are, in order, the used durations
    of the clips the loop visits. *)
Lemma segmentsLoop_cutaways (avatarVideo : string) (brollClips : list Clip)
    (insertionPoints : list Q) :
  forall i currentTime r,
    segmentsLoop avatarVideo brollClips insertionPoints i currentTime = Ok r ->
    map duration (filter isBroll (fst r))
    = map usedDuration (firstn (length insertionPoints) (skipn i brollClips)).
Proof.
  induction insertionPoints as [|insertAt rest IH]; intros i cur r; simpl.
  - intros [= <-]. reflexivity.
  - destruct (nth_error brollClips i) as [broll|] eqn:E; [|discriminate].
    destruct (segmentsLoop _ _ rest _ _) as [r'|] eqn:Hloop; [|discriminate].
    simpl. intros [= <-]. simpl.
    rewrite filter_app. simpl.
    replace (filter isBroll (if gt insertAt cur then _ else _)) with (@nil Segment)
      by (destruct (gt insertAt cur); reflexivity).
    simpl. rewrite (IH _ _ _ Hloop).
    clear - E. revert i E.
    induction brollClips as [|c cs IHc]; intros [|i] E; simpl in *; try discriminate.
    + injection E as ->. reflexivity.
    + now apply IHc.
Qed.

Lemma overlayLoop_windows (insertionPoints : list Q) (brollClips : list Clip) :
  forall i,
    (i + length brollClips <= length insertionPoints)%nat ->
    overlayLoop brollClips insertionPoints i
    = map (fun cp => Some (snd cp, snd cp + usedDuration (fst cp)))
          (combine brollClips (skipn i insertionPoints)).
Proof.
  induction brollClips as [|c cs IH]; intros i Hlen; simpl in *; [reflexivity|].
  destruct (nth_error insertionPoints i) as [p|] eqn:E.
  - rewrite IH by lia.
    assert (Hs : skipn i insertionPoints = p :: skipn (S i) insertionPoints).
    { clear - E. revert i E.
      induction insertionPoints as [|q qs IHq]; intros [|i] E; simpl in *;
        try discriminate.
      - injection E as ->. reflexivity.
      - now apply IHq. }
    rewrite Hs. reflexivity.
  - apply nth_error_None in E. lia.
Qed.

(** C7 as amended.  The duration of every cutaway segment is the
    minimum of the duration its clip reports and the 4 second cap, so
    it never exceeds the cap; it is negative exactly when the reported
    duration is negative, which the code does not check.  The overlay
    variant shows each clip for the same duration. *)
Theorem cutaway_used_duration (avatarVideo : string) (brollClips : list Clip)
    (insertionPoints : list Q) (totalDuration : Q) (segments : list Segment) :
  buildSegments avatarVideo brollClips insertionPoints totalDuration = Ok segments ->
  map duration (filter isBroll segments)
    = map (fun c => Math_min (Library.duration c) 4)
          (firstn (length insertionPoints) brollClips) /\
  (forall c, Math_min (Library.duration c) 4 <= Library.duration c /\
             Math_min (Library.duration c) 4 <= 4 /\
             (Math_min (Library.duration c) 4 == Library.duration c \/
              Math_min (Library.duration c) 4 == 4) /\
             (0 <= Math_min (Library.duration c) 4 <-> 0 <= Library.duration c)) /\
  Forall (fun s => isBroll s = true -> duration s <= 4) segments /\
  (Forall (fun c => 0 <= Library.duration c) (firstn (length insertionPoints) brollClips) <->
   Forall (fun s => isBroll s = true -> 0 <= duration s) segments) /\
  ((length brollClips <= length insertionPoints)%nat ->
   applyBrollOverlays brollClips insertionPoints
   = map (fun cp => Some (snd cp, snd cp + Math_min (Library.duration (fst cp)) 4))
         (combine brollClips insertionPoints)).
Proof.
  intros Hbuild.
  assert (Hcut : map duration (filter isBroll segments)
                 = map usedDuration (firstn (length insertionPoints) brollClips)).
  { unfold buildSegments in Hbuild.
    destruct (segmentsLoop _ _ _ _ _) as [r|] eqn:Hloop; [|discriminate].
    simpl in Hbuild. injection Hbuild as <-.
    rewrite filter_app.
    replace (filter isBroll (if lt (snd r) totalDuration then _ else _))
      with (@nil Segment) by (destruct (lt (snd r) totalDuration); reflexivity).
    rewrite app_nil_r. exact (segmentsLoop_cutaways _ _ _ _ _ _ Hloop). }
  assert (Hsign : forall c, 0 <= Math_min (Library.duration c) 4 <-> 0 <= Library.duration c).
  { intros c. unfold Math_min.
    destruct (Q.min_dec (Library.duration c) 4) as [E|E]; rewrite E.
    - reflexivity.
    - pose proof (Q.le_min_l (Library.duration c) 4) as L. rewrite E in L.
      split; intros _; lra. }
  assert (Hseg : forall (P : Q -> Prop),
             Forall (fun s => isBroll s = true -> P (duration s)) segments <->
             Forall P (map duration (filter isBroll segments))).
  { intros P. rewrite !Forall_forall. split.
    - intros H d Hd. apply in_map_iff in Hd. destruct Hd as (s & <- & Hin).
      apply filter_In in Hin. apply H; tauto.
    - intros H s Hin Hb. apply H, in_map, filter_In. tauto. }
  split; [exact Hcut|]. split; [|split; [|split]].
  - intros c. destruct (usedDuration_min c) as (A & B & C).
    repeat split; try assumption; apply Hsign.
  - apply (Hseg (fun d => d <= 4)). rewrite Hcut. apply Forall_forall. intros d Hd.
    apply in_map_iff in Hd. destruct Hd as (c & <- & _). apply usedDuration_min.
  - rewrite (Hseg (fun d => 0 <= d)), Hcut, Forall_map.
    split; apply Forall_impl; intros c; apply Hsign.
  - intros Hlen. apply (overlayLoop_windows insertionPoints brollClips 0%nat). lia.
Qed.

Lemma cutaway_used_duration_witness :
  map duration
    (filter isBroll
       [ {| type := Avatar; input := "in.mp4"; start := 0; duration := 10 |};
         {| type := Broll; input := "b0.mp4"; start := 0; duration := Qmin 7 4 |};
         {| type := Avatar; input := "in.mp4"; start := 10 + Qmin 7 4;
            duration := 20 - (10 + Qmin 7 4) |} ])
  = [Math_min 7 4].
Proof.
  apply (cutaway_used_duration "in.mp4"
           [ {| localPath := "b0.mp4"; Library.duration := 7; key := "b0.mp4" |} ]
           [10] 20).
  reflexivity.
Defined.

(** C7 as stated fails for a clip that reports a negative duration:
    its cutaway lasts -1.5 seconds. *)
Lemma cutaway_used_duration_counterexample :
  match
    buildSegments "in.mp4"
      [ {| localPath := "b0.mp4"; Library.duration := - (3 # 2); key := "b0.mp4" |} ]
      [10] 20
  with
  | Ok segments =>
      Forall2 Qeq (map duration (filter isBroll segments)) [- (3 # 2)] /\
      Exists (fun s => isBroll s = true /\ duration s < 0) segments
  | Throw _ => False
  end.
Proof.
  vm_compute. split.
  - repeat constructor.
  - right. left. split; reflexivity.
Qed.

End ComposerClaims.

Section StringFacts.
Open Scope string_scope.

Lemma substring_whole (s : string) : substring 0 (String.length s) s = s.
Proof.
  induction s as [|c s IH]; simpl; [reflexivity|]. now rewrite IH.
Qed.

Lemma substring_after_prefix (p suffix : string) :
  substring (String.length p) (String.length suffix) (p ++ suffix) = suffix.
Proof.
  induction p as [|c p IH]; simpl.
  - apply substring_whole.
  - exact IH.
Qed.

Lemma string_app_length (a b : string) :
  String.length (a ++ b) = (String.length a + String.length b)%nat.
Proof.
  induction a as [|c a IH]; simpl; [reflexivity|]. now rewrite IH.
Qed.

Lemma split_at (s : string) :
  forall k, (k <= String.length s)%nat ->
    exists p, s = p ++ substring k (String.length s - k) s.
Proof.
  induction s as [|c s IH]; intros k Hk.
  - exists "". simpl in Hk. replace k with 0%nat by lia. reflexivity.
  - destruct k as [|k].
    + exists "". rewrite Nat.sub_0_r, substring_whole. reflexivity.
    + simpl in Hk. destruct (IH k) as [p Hp]; [lia|].
      exists (String c p). simpl. now rewrite <- Hp.
Qed.

(** [endsWith] holds exactly of the strings that have the suffix. *)
Lemma endsWith_spec (s suffix : string) :
  endsWith s suffix = true <-> exists p, s = p ++ suffix.
Proof.
  unfold endsWith. rewrite andb_true_iff, Nat.leb_le, String.eqb_eq. split.
  - intros [Hle Hsub].
    destruct (split_at s (String.length s - String.length suffix)) as [p Hp]; [lia|].
    exists p.
    replace (String.length s - (String.length s - String.length suffix))%nat
      with (String.length suffix) in Hp by lia.
    now rewrite Hsub in Hp.
  - intros [p ->]. rewrite string_app_length. split; [lia|].
    replace (String.length p + String.length suffix - String.length suffix)%nat
      with (String.length p) by lia.
    apply substring_after_prefix.
Qed.

End StringFacts.

Section SelectorFacts.
Import Library.
Variable shuffle : list S3Object -> list S3Object.
Variable fetchDuration : string -> string -> result Q.

Lemma isVideoFile_spec (obj : S3Object) :
  isVideoFile obj = true <->
  exists p, Key obj = (p ++ ".mp4")%string \/ Key obj = (p ++ ".mov")%string.
Proof.
  unfold isVideoFile. rewrite orb_true_iff, !endsWith_spec. split.
  - intros [[p H]|[p H]]; exists p; auto.
  - intros [p [H|H]]; [left|right]; exists p; exact H.
Qed.

(** When every download succeeds the loop returns one clip per
    selected object, named [broll_<i>.mp4] and carrying its key. *)
Lemma downloadLoop_returns (tmpDir : string) (selected : list S3Object) :
  (forall k path, exists d, fetchDuration k path = Ok d) ->
  forall i, exists clips,
    downloadLoop fetchDuration tmpDir selected i = Ok clips /\
    map key clips = map Key selected /\
    map localPath clips
    = map (fun j => path_join tmpDir ("broll_" ++ toString (Z.of_nat j) ++ ".mp4")%string)
          (seq i (length selected)).
Proof.
  intros Hfetch.
  induction selected as [|obj rest IH]; intros i;
    cbn [downloadLoop length seq map].
  - exists []. repeat split.
  - destruct (Hfetch (Key obj)
                (path_join tmpDir ("broll_" ++ toString (Z.of_nat i) ++ ".mp4")%string))
      as [d Hd].
    rewrite Hd. cbn [bind].
    destruct (IH (S i)) as (clips & Hloop & Hkeys & Hpaths).
    rewrite Hloop. cbn [bind]. eexists. split; [reflexivity|].
    cbn [map key localPath]. rewrite Hkeys, Hpaths. split; reflexivity.
Qed.

Lemma slice_from_start {A : Type} (arr : list A) (to : Z) :
  (0 <= to <= Z.of_nat (length arr))%Z ->
  slice arr 0 to = firstn (Z.to_nat to) arr.
Proof.
  intros H. unfold slice.
  assert (H0 : relIndex (length arr) 0 = 0%nat).
  { unfold relIndex. simpl. rewrite Z.min_l by lia. reflexivity. }
  assert (Ht : relIndex (length arr) to = Z.to_nat to).
  { unfold relIndex. destruct (to <? 0)%Z eqn:E; [apply Z.ltb_lt in E; lia|].
    now rewrite Z.min_l by lia. }
  rewrite H0, Ht, Nat.sub_0_r. reflexivity.
Qed.

Lemma downloadLoop_ok (tmpDir : string) (selected : list S3Object) :
  forall i clips,
    downloadLoop fetchDuration tmpDir selected i = Ok clips ->
    map key clips = map Key selected /\
    map localPath clips
    = map (fun j => path_join tmpDir ("broll_" ++ toString (Z.of_nat j) ++ ".mp4")%string)
          (seq i (length selected)) /\
    Forall (fun c => fetchDuration (key c) (localPath c) = Ok (duration c)) clips.
Proof.
  induction selected as [|obj rest IH]; intros i clips; cbn [downloadLoop length seq map].
  - intros [= <-]. repeat split. constructor.
  - destruct (fetchDuration (Key obj) _) as [d|] eqn:Hd; [|discriminate].
    cbn [bind].
    destruct (downloadLoop fetchDuration tmpDir rest (S i)) as [cs|] eqn:Hloop;
      [|discriminate].
    cbn [bind]. intros [= <-].
    destruct (IH _ _ Hloop) as (Hk & Hp & Hf).
    cbn [map key localPath]. rewrite Hk, Hp. repeat split.
    constructor; [exact Hd | exact Hf].
Qed.

(** The loop returns exactly when every selected object downloads to
    its [broll_<i>.mp4]. *)
Lemma downloadLoop_selected (tmpDir : string) (selected : list S3Object) :
  forall i,
    (forall j obj, nth_error selected j = Some obj ->
       exists d,
         fetchDuration (Key obj)
           (path_join tmpDir ("broll_" ++ toString (Z.of_nat (i + j)) ++ ".mp4")%string)
         = Ok d) <->
    exists clips, downloadLoop fetchDuration tmpDir selected i = Ok clips.
Proof.
  induction selected as [|obj rest IH]; intros i; cbn [downloadLoop].
  - split; [intros _; exists []; reflexivity|].
    intros _ [|j] o H; discriminate H.
  - split.
    + intros H. destruct (H 0%nat obj eq_refl) as [d Hd].
      rewrite Nat.add_0_r in Hd. rewrite Hd. cbn [bind].
      destruct (proj1 (IH (S i))) as [clips Hclips].
      * intros j o Hj. specialize (H (S j) o Hj).
        now replace (S i + j)%nat with (i + S j)%nat by lia.
      * rewrite Hclips. cbn [bind]. eexists. reflexivity.
    + intros [clips H].
      destruct (fetchDuration (Key obj) _) as [d|] eqn:Hd; [|discriminate].
      cbn [bind] in H.
      destruct (downloadLoop fetchDuration tmpDir rest (S i)) as [cs|] eqn:Hloop;
        [|discriminate].
      intros [|j] o Hj.
      * injection Hj as <-. rewrite Nat.add_0_r. exists d. exact Hd.
      * replace (i + S j)%nat with (S i + j)%nat by lia.
        apply (proj2 (IH (S i))); [exists cs; exact Hloop|exact Hj].
Qed.

End SelectorFacts.

Section SelectorClaims.
Import Library.

(** C10 as amended.  For a requested [count >= 1] and a listing that is
    not empty, the selector picks the first [min(count, number of
    objects whose key ends in .mp4 or .mov)] of the shuffled video
    files; it returns exactly when every one of these downloads, and
    then it returns one clip for each of them.  For an empty or absent
    listing it throws [No B-roll clips found in S3 bucket] and returns
    no clips. *)
Theorem selector_clip_count
    (shuffle : list S3Object -> list S3Object)
    (fetchDuration : string -> string -> result Q)
    (count : Z) (tmpDir : string) (contents : list S3Object) :
  (forall l, Permutation (shuffle l) l) ->
  (1 <= count)%Z -> contents <> [] ->
  let videoFiles := filter isVideoFile contents in
  let wanted := Z.min count (Z.of_nat (length videoFiles)) in
  let selected := firstn (Z.to_nat wanted) (shuffle videoFiles) in
  ((forall i obj, nth_error selected i = Some obj ->
      exists d,
        fetchDuration (Key obj)
          (path_join tmpDir ("broll_" ++ toString (Z.of_nat i) ++ ".mp4")%string)
        = Ok d) <->
   exists clips,
     getRandomBrollClips shuffle fetchDuration count tmpDir (Some contents) = Ok clips) /\
  (forall clips,
      getRandomBrollClips shuffle fetchDuration count tmpDir (Some contents) = Ok clips ->
      Z.of_nat (length clips) = wanted /\
      map key clips = map Key selected) /\
  (forall obj, In obj videoFiles <->
     In obj contents /\
     exists p, Key obj = (p ++ ".mp4")%string \/ Key obj = (p ++ ".mov")%string) /\
  getRandomBrollClips shuffle fetchDuration count tmpDir (Some [])
    = Throw (JsError "Error" "No B-roll clips found in S3 bucket") /\
  getRandomBrollClips shuffle fetchDuration count tmpDir None
    = Throw (JsError "Error" "No B-roll clips found in S3 bucket").
Proof.
  intros Hperm Hcount Hne videoFiles wanted selected.
  pose proof (Permutation_length (Hperm videoFiles)) as Hlen.
  assert (Hrun : getRandomBrollClips shuffle fetchDuration count tmpDir (Some contents)
                 = downloadLoop fetchDuration tmpDir selected 0).
  { destruct contents as [|c cs]; [contradiction|].
    unfold getRandomBrollClips. fold videoFiles. fold wanted.
    rewrite slice_from_start by (unfold wanted; lia). reflexivity. }
  assert (Hs : Z.of_nat (length selected) = wanted).
  { unfold selected. rewrite length_firstn. unfold wanted. lia. }
  rewrite Hrun.
  split; [|split; [|split; [|split; reflexivity]]].
  - exact (downloadLoop_selected fetchDuration tmpDir selected 0).
  - intros clips Hclips.
    destruct (downloadLoop_ok fetchDuration tmpDir selected 0 clips Hclips) as (Hk & _).
    split; [|exact Hk].
    rewrite <- Hs, <- (length_map key), Hk, length_map. reflexivity.
  - intros obj. unfold videoFiles. rewrite filter_In, isVideoFile_spec. reflexivity.
Qed.

(** The video that is not selected cannot be fetched; the selector
    returns the one that is. *)
Lemma selector_clip_count_witness :
  exists clips,
    getRandomBrollClips (fun l => l)
      (fun k _ => if String.eqb k "sea.mov"
                  then Throw (JsError "NoSuchKey" "The specified key does not exist.")
                  else Ok 5)
      1 "/tmp"
      (Some [ {| Key := "city.mp4" |}; {| Key := "notes.txt" |}; {| Key := "sea.mov" |} ])
    = Ok clips /\
    Z.of_nat (length clips) = 1%Z.
Proof.
  destruct (selector_clip_count (fun l => l)
              (fun k _ => if String.eqb k "sea.mov"
                          then Throw (JsError "NoSuchKey" "The specified key does not exist.")
                          else Ok 5)
              1 "/tmp"
              [ {| Key := "city.mp4" |}; {| Key := "notes.txt" |}; {| Key := "sea.mov" |} ])
    as (Hiff & Hcount & _).
  - intros l. apply Permutation_refl.
  - lia.
  - discriminate.
  - destruct (proj1 Hiff) as [clips Hclips].
    + intros [|[|i]] obj H; try discriminate H.
      injection H as <-. exists 5. reflexivity.
    + exists clips. split; [exact Hclips|]. exact (proj1 (Hcount clips Hclips)).
Defined.

(** C10 as stated fails for the empty listing: zero clips would be
    [min(1, 0)], but the selector throws instead of returning. *)
Lemma selector_clip_count_counterexample :
  Z.min 1 (Z.of_nat (length (filter isVideoFile []))) = 0%Z /\
  getRandomBrollClips (fun l => l) (fun _ _ => Ok 5) 1 "/tmp" (Some [])
    = Throw (JsError "Error" "No B-roll clips found in S3 bucket") /\
  ~ exists clips,
      getRandomBrollClips (fun l => l) (fun _ _ => Ok 5) 1 "/tmp" (Some []) = Ok clips.
Proof.
  split; [reflexivity|]. split; [reflexivity|].
  intros [clips H]. discriminate H.
Qed.

End SelectorClaims.

Section HandlerClaims.
Import Library Scheduler Composer Handler.

Lemma buildAndExtract_returns (avatarVideo tmpDir : string) (brollClips : list Clip)
    (insertionPoints : list Q) (totalDuration : Q) :
  (length insertionPoints <= length brollClips)%nat ->
  exists xs,
    buildAndExtractVideoSegments avatarVideo brollClips insertionPoints
      totalDuration tmpDir = Ok xs /\
    (length insertionPoints <= length xs)%nat.
Proof.
  intros Hlen.
  destruct (segmentsLoop_returns avatarVideo brollClips insertionPoints 0%nat 0)
    as [r Hr]; [lia|].
  pose proof (extractLoop_durations avatarVideo tmpDir brollClips insertionPoints
                0%nat 0%nat 0) as Hsame.
  rewrite Hr in Hsame. unfold buildAndExtractVideoSegments.
  destruct (extractLoop _ _ _ _ _ _ _) as [r'|e]; [|contradiction].
  simpl. eexists. split; [reflexivity|].
  destruct Hsame as [Hmap _].
  pose proof (segmentsLoop_cutaways _ _ _ _ _ _ Hr) as Hcut.
  apply (f_equal (@length Q)) in Hcut.
  rewrite !length_map, length_firstn in Hcut. simpl in Hcut.
  apply (f_equal (@length Q)) in Hmap. rewrite !length_map in Hmap.
  rewrite length_app.
  pose proof (filter_length_le isBroll (fst r)). lia.
Qed.

(** C3.  A 5 second source and one cutaway: the usable window is -1
    second.  The scheduler does not fail; it returns the point 2.5,
    which lies within the first 3 seconds and within the last 3 seconds
    of the source, and the handler's step goes on to the composer, which
    cuts an avatar segment and the cutaway. *)
Theorem scheduler_short_source :
  5 - startBuffer - endBuffer <= 0 /\
  Forall2 Qeq (calculateInsertionPoints 5 1) [2.5] /\
  (2.5 < startBuffer /\ 5 - endBuffer < 2.5) /\
  match
    brollExtractions (fun l => l) (fun _ _ => Ok 4) 5 1 (Some [ {| Key := "city.mp4" |} ])
  with
  | Ok (Some xs) => map source xs = [ inputVideo; path_join tmpDir "broll_0.mp4" ]
  | Ok None => False
  | Throw _ => False
  end.
Proof.
  split; [vm_compute; discriminate|].
  split; [vm_compute; repeat constructor|].
  split; [split; reflexivity|].
  vm_compute. reflexivity.
Qed.

(** X22.  For an integer [count >= 1] and a source whose usable window
    [totalDuration - startBuffer - endBuffer] is not positive, the
    scheduler returns [count] points
    [startBuffer + (usable / (count + 1)) * i], none of them after
    [startBuffer]; and once the selector has returned one clip per
    point, the step of the handler passes these points to the composer
    and ends with its extractions. *)
Theorem short_source_is_scheduled
    (shuffle : list S3Object -> list S3Object)
    (fetchDuration : string -> string -> result Q)
    (videoDuration : Q) (brollCount : Z) (Contents : option (list S3Object))
    (brollClips : list Clip) :
  (1 <= brollCount)%Z ->
  videoDuration - startBuffer - endBuffer <= 0 ->
  getRandomBrollClips shuffle fetchDuration brollCount tmpDir Contents = Ok brollClips ->
  Z.of_nat (length brollClips) = brollCount ->
  let usable := videoDuration - startBuffer - endBuffer in
  let insertionPoints := calculateInsertionPoints videoDuration brollCount in
  Z.of_nat (length insertionPoints) = brollCount /\
  (forall i, (1 <= i <= brollCount)%Z ->
     nth (Z.to_nat (i - 1)) insertionPoints 0
     == startBuffer + (usable / inject_Z (brollCount + 1)) * inject_Z i) /\
  Forall (fun p => p <= startBuffer) insertionPoints /\
  (exists xs,
      buildAndExtractVideoSegments inputVideo brollClips insertionPoints
        videoDuration tmpDir = Ok xs /\
      xs <> [] /\
      brollExtractions shuffle fetchDuration videoDuration brollCount Contents
      = Ok (Some xs)).
Proof.
  intros Hcount Husable Hclips Hlen usable insertionPoints.
  assert (Hc' : 1 <= inject_Z brollCount)
    by (change 1 with (inject_Z 1); now rewrite <- Zle_Qle).
  assert (Hint : usable / (inject_Z brollCount + 1) <= 0).
  { apply Qle_shift_div_r; [lra|]. fold usable in Husable. lra. }
  assert (Hn : length insertionPoints = Z.to_nat brollCount)
    by apply pointsLoop_length.
  assert (Hnth : forall k, (k < Z.to_nat brollCount)%nat ->
            nth k insertionPoints 0
            = startBuffer
              + (usable / (inject_Z brollCount + 1)) * inject_Z (1 + Z.of_nat k))
    by (intros k Hk; apply pointsLoop_nth; exact Hk).
  assert (Hpos : (0 <? brollCount)%Z = true) by (apply Z.ltb_lt; lia).
  split; [lia|]. split; [|split].
  - intros i Hi. rewrite Hnth by lia.
    replace (1 + Z.of_nat (Z.to_nat (i - 1)))%Z with i by lia.
    rewrite (inject_Z_plus brollCount 1). reflexivity.
  - apply Forall_forall. intros p Hin.
    destruct (In_nth _ _ 0 Hin) as (k & Hk & <-).
    rewrite Hn in Hk. rewrite Hnth by exact Hk.
    assert (H1 : inject_Z 1 <= inject_Z (1 + Z.of_nat k))
      by (rewrite <- Zle_Qle; lia).
    change (inject_Z 1) with 1 in H1.
    set (interval := usable / (inject_Z brollCount + 1)) in *. nra.
  - destruct (buildAndExtract_returns inputVideo tmpDir brollClips insertionPoints
                videoDuration) as (xs & Hxs & Hsize); [lia|].
    exists xs. split; [exact Hxs|]. split.
    + intros ->. simpl in Hsize. lia.
    + unfold brollExtractions. rewrite Hpos, Hclips. simpl.
      fold insertionPoints. rewrite Hxs. reflexivity.
Qed.

Lemma short_source_is_scheduled_witness :
  Forall (fun p => p <= startBuffer) (calculateInsertionPoints 5 1).
Proof.
  apply (short_source_is_scheduled (fun l => l) (fun _ _ => Ok 4) 5 1
           (Some [ {| Key := "city.mp4" |} ])
           [ {| localPath := "/tmp/broll_0.mp4"; Library.duration := 4;
                key := "city.mp4" |} ]).
  - lia.
  - vm_compute. discriminate.
  - reflexivity.
  - reflexivity.
Defined.

End HandlerClaims.

Section CaptionFacts.
Import Captions Layout.

(** Induction over a list three elements at a time. *)
Lemma list_ind3 {A : Type} (P : list A -> Prop) :
  P [] -> (forall a, P [a]) -> (forall a b, P [a; b]) ->
  (forall a b c rest, P rest -> P (a :: b :: c :: rest)) ->
  forall l, P l.
Proof.
  intros H0 H1 H2 H3.
  fix IH 1. intros [|a [|b [|c rest]]].
  - exact H0.
  - apply H1.
  - apply H2.
  - apply H3, IH.
Qed.

Lemma slice_chunk {A : Type} (arr : list A) (i : nat) :
  (i <= length arr)%nat ->
  slice arr (Z.of_nat i) (Z.of_nat i + 3) = firstn 3 (skipn i arr).
Proof.
  intros Hi. unfold slice, relIndex.
  destruct (Z.of_nat i <? 0)%Z eqn:E1; [apply Z.ltb_lt in E1; lia|].
  destruct (Z.of_nat i + 3 <? 0)%Z eqn:E2; [apply Z.ltb_lt in E2; lia|].
  rewrite (Z.min_l (Z.of_nat i)) by lia. rewrite Nat2Z.id.
  destruct (le_lt_dec (i + 3) (length arr)) as [Hle|Hgt].
  - rewrite Z.min_l by lia. f_equal. lia.
  - rewrite Z.min_r by lia. rewrite Nat2Z.id.
    rewrite <- (length_skipn i arr).
    rewrite firstn_all. symmetry. apply firstn_all2.
    rewrite length_skipn. lia.
Qed.

(** The loop computes the chunked cues of the words from [i] on. *)
Lemma cueLoop_cuesOf (words : list Word) :
  forall fuel i index,
    (length words <= i + fuel)%nat ->
    cueLoop words i index fuel = Ok (cuesOf (skipn i words) index).
Proof.
  induction fuel as [|fuel IH]; intros i index Hfuel.
  - simpl. rewrite skipn_all2 by lia. reflexivity.
  - cbn [cueLoop].
    destruct (i <? length words)%nat eqn:E.
    + apply Nat.ltb_lt in E.
      rewrite slice_chunk by lia.
      rewrite (IH (i + 3)%nat (index + 1)%Z) by lia.
      replace (i + 3)%nat with (3 + i)%nat by lia.
      rewrite <- skipn_skipn.
      assert (Hne : skipn i words <> []).
      { intros Hnil. apply (f_equal (@length Word)) in Hnil.
        rewrite length_skipn in Hnil. simpl in Hnil. lia. }
      destruct (skipn i words) as [|a [|b [|c rest]]]; [contradiction| | |];
        reflexivity.
    + apply Nat.ltb_ge in E. rewrite skipn_all2 by lia. reflexivity.
Qed.

Lemma captionCues_cuesOf (words : list Word) :
  captionCues words = Ok (cuesOf words 1).
Proof.
  unfold captionCues. rewrite cueLoop_cuesOf by lia. reflexivity.
Qed.

Lemma cuesOf_nil (words : list Word) (index : Z) :
  cuesOf words index = [] <-> words = [].
Proof.
  destruct words as [|a [|b [|c rest]]]; simpl; split; intros H;
    try reflexivity; discriminate.
Qed.

Lemma cuesOf_length (words : list Word) :
  forall index, length (cuesOf words index) = ((length words + 2) / 3)%nat.
Proof.
  induction words as [| a | a b | a b c rest IH] using list_ind3; intros index;
    try reflexivity.
  cbn [cuesOf length]. rewrite IH.
  replace (S (S (S (length rest))) + 2)%nat with (1 * 3 + (length rest + 2))%nat by lia.
  rewrite Nat.div_add_l by lia. lia.
Qed.

(** Cue [k] (0-indexed) is built from the words [3k .. 3k+2]. *)
Lemma cuesOf_nth (words : list Word) :
  forall index k c,
    nth_error (cuesOf words index) k = Some c ->
    let chunk := firstn 3 (skipn (3 * k) words) in
    Captions.index c = (index + Z.of_nat k)%Z /\
    text c = join (map word chunk) " " /\
    (1 <= length chunk <= 3)%nat /\
    ((S k < length (cuesOf words index))%nat -> length chunk = 3%nat) /\
    option_map start (nth_error chunk 0) = Some (startSeconds c) /\
    option_map end_ (nth_error chunk (length chunk - 1)) = Some (endSeconds c).
Proof.
  induction words as [| a | a b | a b c rest IH] using list_ind3; intros index k q.
  - destruct k; discriminate.
  - destruct k as [|[|k]]; simpl; [|discriminate..].
    intros [= <-]. rewrite Z.add_0_r. repeat split; simpl; lia.
  - destruct k as [|[|k]]; simpl; [|discriminate..].
    intros [= <-]. rewrite Z.add_0_r. repeat split; simpl; lia.
  - destruct k as [|k].
    + cbn [cuesOf nth_error]. intros [= <-]. rewrite Z.add_0_r.
      repeat split; simpl; lia.
    + cbn [cuesOf nth_error]. intros Hq.
      replace (3 * S k)%nat with (3 + 3 * k)%nat by lia.
      cbn [skipn Nat.add].
      destruct (IH _ _ _ Hq) as (Hi & Ht & Hl & Hfull & Hs & He).
      repeat split; try tauto; try lia.
      intros Hlt. apply Hfull. cbn [length] in Hlt. lia.
Qed.

Lemma string_app_assoc (a b c : string) : ((a ++ b) ++ c = a ++ (b ++ c))%string.
Proof.
  induction a as [|x a IH]; simpl; [reflexivity|]. now rewrite IH.
Qed.

(** Joining the cue texts with a space is joining all the words. *)
Lemma cuesOf_texts (words : list Word) :
  forall index,
    join (map text (cuesOf words index)) " " = join (map word words) " ".
Proof.
  induction words as [| a | a b | a b c rest IH] using list_ind3; intros index;
    try reflexivity.
  cbn [cuesOf map]. specialize (IH (index + 1)%Z).
  destruct rest as [|d rest].
  - reflexivity.
  - assert (Hne : cuesOf (d :: rest) (index + 1) <> [])
      by (rewrite cuesOf_nil; discriminate).
    destruct (cuesOf (d :: rest) (index + 1)) as [|q qs] eqn:E; [contradiction|].
    change (join (text (cueOf index a c [a; b; c]) :: map text (q :: qs)) " ")
      with (text (cueOf index a c [a; b; c]) ++ " " ++ join (map text (q :: qs)) " ")%string.
    rewrite IH. cbn [text cueOf map join].
    rewrite !string_app_assoc. reflexivity.
Qed.

End CaptionFacts.

Section CaptionClaims.
Import Captions Layout.

(** The chunks of three consecutive words, put back together, are the
    words. *)
Lemma chunks_partition (words : list Word) :
  concat (map (fun k => firstn 3 (skipn (3 * k) words))
              (seq 0 ((length words + 2) / 3)))
  = words.
Proof.
  induction words as [| a | a b | a b c rest IH] using list_ind3; try reflexivity.
  cbn [length].
  replace (S (S (S (length rest))) + 2)%nat with (1 * 3 + (length rest + 2))%nat by lia.
  rewrite Nat.div_add_l by lia.
  cbn [Nat.add seq map concat]. rewrite <- seq_shift, map_map.
  rewrite (map_ext _ (fun k => firstn 3 (skipn (3 * k) rest))).
  - rewrite IH. reflexivity.
  - intros k. replace (3 * S k)%nat with (3 + 3 * k)%nat by lia. reflexivity.
Qed.

(** C4.  For every word list the cue builder returns
    [ceil(wordCount / 3)] cues; cue [k] (counting from 1) has index [k]
    and the text of the words [3(k-1) .. 3(k-1)+2] joined with single
    spaces, starts with its first word and ends with its last word;
    every chunk has 1 to 3 words and all but the last have 3; the chunks
    put together are the words, the cue texts joined with a space are
    all the words in order, and no words give no cues. *)
Theorem caption_cues_chunking (words : list Word) :
  exists cues,
    captionCues words = Ok cues /\
    length cues = ((length words + 2) / 3)%nat /\
    (forall k c, nth_error cues k = Some c ->
       let chunk := firstn 3 (skipn (3 * k) words) in
       index c = (Z.of_nat k + 1)%Z /\
       text c = join (map word chunk) " " /\
       (1 <= length chunk <= 3)%nat /\
       ((S k < length cues)%nat -> length chunk = 3%nat) /\
       option_map start (nth_error chunk 0) = Some (startSeconds c) /\
       option_map end_ (nth_error chunk (length chunk - 1)) = Some (endSeconds c)) /\
    concat (map (fun k => firstn 3 (skipn (3 * k) words)) (seq 0 (length cues))) = words /\
    join (map text cues) " " = join (map word words) " " /\
    (words = [] -> cues = []).
Proof.
  exists (cuesOf words 1).
  split; [apply captionCues_cuesOf|].
  split; [apply cuesOf_length|].
  split; [|split; [|split]].
  - intros k c Hk.
    destruct (cuesOf_nth words 1 k c Hk) as (Hi & Ht & Hl & Hfull & Hs & He).
    repeat split; try tauto; lia.
  - rewrite cuesOf_length. apply chunks_partition.
  - apply cuesOf_texts.
  - intros ->. reflexivity.
Qed.

Lemma join_entries_unlines (cues : list Cue) :
  join (map srtEntry cues) nl = unlines (blocksWithBlankLines cues).
Proof.
  induction cues as [|c rest IH]; [reflexivity|].
  destruct rest as [|c' rest].
  - cbn [map join blocksWithBlankLines cueLines unlines]. unfold srtEntry.
    rewrite !string_app_assoc. reflexivity.
  - change (join (map srtEntry (c :: c' :: rest)) nl)
      with (srtEntry c ++ nl ++ join (map srtEntry (c' :: rest)) nl)%string.
    rewrite IH.
    change (blocksWithBlankLines (c :: c' :: rest))
      with (cueLines c ++ EmptyString :: blocksWithBlankLines (c' :: rest)).
    cbn [cueLines app unlines]. unfold srtEntry.
    rewrite !string_app_assoc. reflexivity.
Qed.

(** The older servers end every block, the last one too, with an empty
    line. *)
Lemma server_contentLoop_layout (ws : list Word) :
  forall fuel i index,
    (length ws <= i + fuel)%nat ->
    Server.contentLoop ws i index fuel
    = Ok (unlines (concat (map (fun c => cueLines c ++ [EmptyString])
                               (cuesOf (skipn i ws) index)))).
Proof.
  induction fuel as [|fuel IH]; intros i index Hfuel.
  - simpl. rewrite skipn_all2 by lia. reflexivity.
  - cbn [Server.contentLoop].
    destruct (i <? length ws)%nat eqn:E.
    + apply Nat.ltb_lt in E.
      rewrite slice_chunk by lia.
      rewrite (IH (i + 3)%nat (index + 1)%Z) by lia.
      replace (i + 3)%nat with (3 + i)%nat by lia.
      rewrite <- skipn_skipn.
      assert (Hne : skipn i ws <> []).
      { intros Hnil. apply (f_equal (@length Word)) in Hnil.
        rewrite length_skipn in Hnil. simpl in Hnil. lia. }
      destruct (skipn i ws) as [|a [|b [|c rest]]]; [contradiction| | |];
        cbn [firstn nth_error length Nat.sub bind skipn cuesOf map concat app
             cueLines unlines cueOf Captions.index startSeconds endSeconds text];
        rewrite !string_app_assoc; reflexivity.
    + apply Nat.ltb_ge in E. rewrite skipn_all2 by lia. reflexivity.
Qed.

End CaptionClaims.

(** *** Rounding to the nearest double *)

Section Pow2.
Import Double.

Lemma pow2_pos (e : Z) : 0 < pow2 e.
Proof. apply Qpower_0_lt. reflexivity. Qed.

Lemma pow2_add (a b : Z) : pow2 (a + b) == pow2 a * pow2 b.
Proof. apply Qpower_plus. discriminate. Qed.

Lemma pow2_succ (e : Z) : pow2 (e + 1) == 2 * pow2 e.
Proof. rewrite pow2_add. change (pow2 1) with 2. ring. Qed.

Lemma pow2_le (a b : Z) : (a <= b)%Z -> pow2 a <= pow2 b.
Proof. intros H. apply Qpower_le_compat_l; [exact H | discriminate]. Qed.

Lemma pow2_lt (a b : Z) : (a < b)%Z -> pow2 a < pow2 b.
Proof. intros H. apply Qpower_lt_compat_l; [exact H | reflexivity]. Qed.

Lemma pow2_lt_inv (a b : Z) : pow2 a < pow2 b -> (a < b)%Z.
Proof.
  intros H. destruct (Z_lt_le_dec a b) as [L|L]; [exact L|].
  apply pow2_le in L. lra.
Qed.

Lemma pow2_nonneg (e : Z) : (0 <= e)%Z -> pow2 e == inject_Z (2 ^ e).
Proof. intros H. unfold pow2. rewrite Zpower_Qpower by exact H. reflexivity. Qed.

Lemma pow2_sub (a b : Z) : pow2 (a - b) == pow2 a / pow2 b.
Proof.
  unfold Z.sub. rewrite pow2_add. unfold pow2 at 2. rewrite Qpower_opp. reflexivity.
Qed.

End Pow2.

Section Binade.
Import Double.

Lemma log2_bounds (a : Z) :
  (0 < a)%Z -> inject_Z (2 ^ Z.log2 a) <= inject_Z a /\ inject_Z a < inject_Z (2 ^ (Z.log2 a + 1)).
Proof.
  intros H. destruct (Z.log2_spec a H) as [L U].
  rewrite <- Zle_Qle, <- Zlt_Qlt. replace (Z.log2 a + 1)%Z with (Z.succ (Z.log2 a)) by lia.
  split; assumption.
Qed.

Lemma binade_spec (p : Q) :
  0 < p -> pow2 (binade p) <= p /\ p < pow2 (binade p + 1).
Proof.
  intros Hp. unfold binade.
  set (a := Qnum p). set (b := Z.pos (Qden p)).
  assert (Ha : (0 < a)%Z).
  { unfold a. destruct p as [n d]. unfold Qlt in Hp. simpl in *. lia. }
  assert (Hb : (0 < b)%Z) by reflexivity.
  destruct (log2_bounds a Ha) as [La Ua]. destruct (log2_bounds b Hb) as [Lb Ub].
  pose proof (Z.log2_nonneg a) as Na. pose proof (Z.log2_nonneg b) as Nb.
  rewrite <- pow2_nonneg in La, Ua, Lb, Ub by lia.
  assert (Ep : p == inject_Z a / inject_Z b).
  { unfold a, b. destruct p as [n d]. simpl. rewrite Qmake_Qdiv. reflexivity. }
  assert (Hbq : 0 < inject_Z b) by (rewrite <- (Zlt_Qlt 0); exact Hb).
  set (k := (Z.log2 a - Z.log2 b)%Z).
  assert (Lo : pow2 (k - 1) < p).
  { rewrite Ep. apply Qlt_shift_div_l; [exact Hbq|].
    assert (E : pow2 (Z.log2 a) == pow2 (k - 1) * pow2 (Z.log2 b + 1)).
    { rewrite <- pow2_add. unfold k. now replace (Z.log2 a - Z.log2 b - 1 + (Z.log2 b + 1))%Z
        with (Z.log2 a) by lia. }
    pose proof (pow2_pos (k - 1)). nra. }
  assert (Hi : p < pow2 (k + 1)).
  { rewrite Ep. apply Qlt_shift_div_r; [exact Hbq|].
    assert (E : pow2 (Z.log2 a + 1) == pow2 (k + 1) * pow2 (Z.log2 b)).
    { rewrite <- pow2_add. unfold k. now replace (Z.log2 a - Z.log2 b + 1 + Z.log2 b)%Z
        with (Z.log2 a + 1)%Z by lia. }
    pose proof (pow2_pos (k + 1)). nra. }
  destruct (Qle_bool (pow2 k) p) eqn:E.
  - apply Qle_bool_iff in E. split; assumption.
  - assert (N : ~ pow2 k <= p) by (rewrite <- Qle_bool_iff, E; discriminate).
    replace (k - 1 + 1)%Z with k by lia. split; lra.
Qed.

Lemma binade_unique (p : Q) (k : Z) :
  pow2 k <= p -> p < pow2 (k + 1) -> binade p = k.
Proof.
  intros L U.
  assert (Hp : 0 < p) by (pose proof (pow2_pos k); lra).
  destruct (binade_spec p Hp) as [L' U'].
  assert (A : (k < binade p + 1)%Z) by (apply pow2_lt_inv; lra).
  assert (B : (binade p < k + 1)%Z) by (apply pow2_lt_inv; lra).
  lia.
Qed.

Lemma binade_comp (p q : Q) : 0 < p -> p == q -> binade p = binade q.
Proof.
  intros Hp E. destruct (binade_spec p Hp) as [L U].
  symmetry. apply binade_unique; rewrite <- E; assumption.
Qed.

Lemma binade_mono (p q : Q) : 0 < p -> p <= q -> (binade p <= binade q)%Z.
Proof.
  intros Hp H.
  destruct (binade_spec p Hp) as [L _].
  destruct (binade_spec q) as [_ U]; [lra|].
  assert (A : (binade p < binade q + 1)%Z) by (apply pow2_lt_inv; lra).
  lia.
Qed.

Lemma binade_lt_pow2 (p : Q) (k : Z) : 0 < p -> p < pow2 k -> (binade p < k)%Z.
Proof.
  intros Hp H. destruct (binade_spec p Hp) as [L _]. apply pow2_lt_inv. lra.
Qed.

Lemma binade_ge_pow2 (p : Q) (k : Z) : pow2 k <= p -> (k <= binade p)%Z.
Proof.
  intros H. assert (Hp : 0 < p) by (pose proof (pow2_pos k); lra).
  destruct (binade_spec p Hp) as [_ U].
  assert (A : (k < binade p + 1)%Z) by (apply pow2_lt_inv; lra). lia.
Qed.

End Binade.

Section NearestEven.
Import Double.

Lemma nearestEven_cases (q : Q) :
  (nearestEven q = Qfloor q /\ q - inject_Z (Qfloor q) <= 1 # 2) \/
  (nearestEven q = (Qfloor q + 1)%Z /\ 1 # 2 <= q - inject_Z (Qfloor q)).
Proof.
  unfold nearestEven.
  destruct (Qcompare (q - inject_Z (Qfloor q)) (1 # 2)) eqn:E.
  - apply Qeq_alt in E. destruct (Z.even (Qfloor q)); [left|right]; split; lra || reflexivity.
  - apply Qlt_alt in E. left. split; [reflexivity|lra].
  - apply Qgt_alt in E. right. split; [reflexivity|lra].
Qed.

Lemma nearestEven_error (q : Q) :
  q - (1 # 2) <= inject_Z (nearestEven q) /\ inject_Z (nearestEven q) <= q + (1 # 2).
Proof.
  pose proof (Qfloor_le q) as L. pose proof (Qlt_floor q) as U.
  rewrite inject_Z_plus in U.
  destruct (nearestEven_cases q) as [[E H]|[E H]]; rewrite E;
    try rewrite inject_Z_plus; change (inject_Z 1) with 1 in *; split; lra.
Qed.

Lemma nearestEven_int (n : Z) : nearestEven (inject_Z n) = n.
Proof.
  unfold nearestEven. rewrite Qfloor_Z.
  assert (E : Qcompare (inject_Z n - inject_Z n) (1 # 2) = Lt).
  { apply (proj1 (Qlt_alt _ _)). set (x := inject_Z n). lra. }
  rewrite E. reflexivity.
Qed.

Lemma nearestEven_comp (p q : Q) : p == q -> nearestEven p = nearestEven q.
Proof.
  intros E. unfold nearestEven. rewrite (Qfloor_comp _ _ E).
  assert (E' : p - inject_Z (Qfloor q) == q - inject_Z (Qfloor q)) by (rewrite E; reflexivity).
  rewrite (Qcompare_comp _ _ E' (1 # 2) (1 # 2) (Qeq_refl _)). reflexivity.
Qed.

(** An integer at or below [q] is at or below its rounding, an integer
    at or above [q] at or above. *)
Lemma nearestEven_ge (q : Q) (n : Z) : inject_Z n <= q -> (n <= nearestEven q)%Z.
Proof.
  intros H. assert (F : (n <= Qfloor q)%Z).
  { rewrite <- (Qfloor_Z n). apply Qfloor_resp_le. exact H. }
  destruct (nearestEven_cases q) as [[E _]|[E _]]; lia.
Qed.

Lemma nearestEven_le (q : Q) (n : Z) : q <= inject_Z n -> (nearestEven q <= n)%Z.
Proof.
  intros H.
  pose proof (Qfloor_le q) as L. pose proof (Qlt_floor q) as U.
  rewrite inject_Z_plus in U. change (inject_Z 1) with 1 in U.
  assert (F : (Qfloor q <= n)%Z).
  { rewrite Zle_Qle. apply Qle_trans with q; assumption. }
  destruct (nearestEven_cases q) as [[E _]|[E Hh]]; [lia|].
  destruct (Z.eq_dec (Qfloor q) n) as [En|Nn]; [|lia].
  rewrite En in Hh. set (x := inject_Z n) in *. lra.
Qed.

Lemma nearestEven_mono (p q : Q) : p <= q -> (nearestEven p <= nearestEven q)%Z.
Proof.
  intros H.
  pose proof (Qfloor_resp_le _ _ H) as F.
  destruct (Z.eq_dec (Qfloor p) (Qfloor q)) as [E|N].
  - unfold nearestEven. rewrite E.
    destruct (Qcompare_spec (p - inject_Z (Qfloor q)) (1 # 2)) as [Cp|Cp|Cp];
      destruct (Qcompare_spec (q - inject_Z (Qfloor q)) (1 # 2)) as [Cq|Cq|Cq];
      try (exfalso; set (x := inject_Z (Qfloor q)) in *; lra);
      destruct (Z.even (Qfloor q)); lia.
  - assert (A : (nearestEven p <= Qfloor p + 1)%Z)
      by (destruct (nearestEven_cases p) as [[E _]|[E _]]; lia).
    assert (B : (Qfloor q <= nearestEven q)%Z)
      by (destruct (nearestEven_cases q) as [[E _]|[E _]]; lia).
    lia.
Qed.

End NearestEven.

Section Rounding.
Import Double.

Lemma quantum_ge (p : Q) : (binade p - 52 <= quantum p)%Z /\ (-1074 <= quantum p)%Z.
Proof. unfold quantum. lia. Qed.

Lemma quantum_mono (p q : Q) : 0 < p -> p <= q -> (quantum p <= quantum q)%Z.
Proof. intros Hp H. pose proof (binade_mono p q Hp H). unfold quantum. lia. Qed.

Lemma quantum_comp (p q : Q) : 0 < p -> p == q -> quantum p = quantum q.
Proof. intros Hp E. unfold quantum. now rewrite (binade_comp p q Hp E). Qed.

Lemma roundPos_ge_grid (p : Q) (n : Z) :
  inject_Z n * pow2 (quantum p) <= p -> inject_Z n * pow2 (quantum p) <= roundPos p.
Proof.
  intros H. unfold roundPos. pose proof (pow2_pos (quantum p)) as Hq.
  assert (A : (n <= nearestEven (p / pow2 (quantum p)))%Z).
  { apply nearestEven_ge. apply Qle_shift_div_l; assumption. }
  rewrite Zle_Qle in A.
  set (a := inject_Z n) in *. set (b := inject_Z (nearestEven _)) in *. nra.
Qed.

Lemma roundPos_le_grid (p : Q) (n : Z) :
  p <= inject_Z n * pow2 (quantum p) -> roundPos p <= inject_Z n * pow2 (quantum p).
Proof.
  intros H. unfold roundPos. pose proof (pow2_pos (quantum p)) as Hq.
  assert (A : (nearestEven (p / pow2 (quantum p)) <= n)%Z).
  { apply nearestEven_le. apply Qle_shift_div_r; assumption. }
  rewrite Zle_Qle in A.
  set (a := inject_Z n) in *. set (b := inject_Z (nearestEven _)) in *. nra.
Qed.

Lemma pow2_on_grid (t e : Z) : (e <= t)%Z -> pow2 t == inject_Z (2 ^ (t - e)) * pow2 e.
Proof.
  intros H. rewrite <- pow2_nonneg by lia. rewrite <- pow2_add.
  now replace (t - e + e)%Z with t by lia.
Qed.

Lemma roundPos_ge_pow2 (p : Q) (t : Z) :
  (quantum p <= t)%Z -> pow2 t <= p -> pow2 t <= roundPos p.
Proof.
  intros Ht H. rewrite (pow2_on_grid t (quantum p) Ht) in *.
  apply roundPos_ge_grid. exact H.
Qed.

Lemma roundPos_le_pow2 (p : Q) (t : Z) :
  (quantum p <= t)%Z -> p <= pow2 t -> roundPos p <= pow2 t.
Proof.
  intros Ht H. rewrite (pow2_on_grid t (quantum p) Ht) in *.
  apply roundPos_le_grid. exact H.
Qed.

Lemma roundPos_nonneg (p : Q) : 0 <= p -> 0 <= roundPos p.
Proof.
  intros Hp. assert (E : 0 == inject_Z 0 * pow2 (quantum p)) by ring.
  rewrite E at 1. apply roundPos_ge_grid. rewrite <- E. exact Hp.
Qed.

Lemma roundPos_comp (p q : Q) : 0 < p -> p == q -> roundPos p == roundPos q.
Proof.
  intros Hp E. unfold roundPos. rewrite <- (quantum_comp p q Hp E).
  assert (E' : p / pow2 (quantum p) == q / pow2 (quantum p))
    by (apply Qdiv_comp; [exact E|reflexivity]).
  rewrite (nearestEven_comp _ _ E'). reflexivity.
Qed.

Lemma roundPos_mono (p q : Q) : 0 < p -> p <= q -> roundPos p <= roundPos q.
Proof.
  intros Hp H. pose proof (quantum_mono p q Hp H) as Hq.
  destruct (Z.eq_dec (quantum p) (quantum q)) as [E|N].
  - unfold roundPos. rewrite E. pose proof (pow2_pos (quantum q)) as Hpos.
    assert (A : (nearestEven (p / pow2 (quantum q)) <= nearestEven (q / pow2 (quantum q)))%Z).
    { apply nearestEven_mono. apply Qle_shift_div_l; [exact Hpos|].
      unfold Qdiv. rewrite <- Qmult_assoc, (Qmult_comm (/ _)), Qmult_inv_r, Qmult_1_r by lra.
      exact H. }
    rewrite Zle_Qle in A.
    set (a := inject_Z (nearestEven (p / _))) in *.
    set (b := inject_Z (nearestEven (q / _))) in *. nra.
  - assert (Hq' : 0 < q) by lra.
    destruct (binade_spec p Hp) as [_ Up]. destruct (binade_spec q Hq') as [Lq _].
    assert (Eq : quantum q = (binade q - 52)%Z) by (unfold quantum in *; lia).
    assert (Hb : (binade p + 1 <= binade q)%Z) by (unfold quantum in *; lia).
    apply Qle_trans with (pow2 (binade q)).
    + apply roundPos_le_pow2; [lia|]. pose proof (pow2_le _ _ Hb). lra.
    + apply roundPos_ge_pow2; [lia|exact Lq].
Qed.

Lemma roundPos_error (p : Q) :
  p - pow2 (quantum p - 1) <= roundPos p /\ roundPos p <= p + pow2 (quantum p - 1).
Proof.
  unfold roundPos. pose proof (pow2_pos (quantum p)) as Hpos.
  assert (Eh : pow2 (quantum p - 1) == pow2 (quantum p) * (1 # 2)).
  { rewrite pow2_sub. change (pow2 1) with 2. field. }
  destruct (nearestEven_error (p / pow2 (quantum p))) as [L U].
  assert (Ep : p / pow2 (quantum p) * pow2 (quantum p) == p) by (field; lra).
  set (y := p / pow2 (quantum p)) in *. set (n := inject_Z (nearestEven y)) in *.
  rewrite Eh. split; nra.
Qed.

Lemma roundPos_exact (p : Q) (n : Z) :
  p == inject_Z n * pow2 (quantum p) -> roundPos p == p.
Proof.
  intros E. unfold roundPos. pose proof (pow2_pos (quantum p)) as Hpos.
  assert (E' : p / pow2 (quantum p) == inject_Z n).
  { rewrite E at 1. field. lra. }
  rewrite (nearestEven_comp _ _ E'), nearestEven_int. symmetry. exact E.
Qed.

Lemma round_pos (x : Q) : 0 < x -> round x = roundPos x.
Proof.
  intros H. unfold round. destruct x as [[|n|n] d]; try reflexivity;
    unfold Qlt in H; simpl in H; lia.
Qed.

Lemma round_zero (x : Q) : x == 0 -> round x = 0.
Proof.
  intros H. unfold round. destruct x as [[|n|n] d]; try reflexivity;
    unfold Qeq in H; simpl in H; lia.
Qed.

Lemma round_neg (x : Q) : x < 0 -> round x = - roundPos (- x).
Proof.
  intros H. unfold round. destruct x as [[|n|n] d]; try reflexivity;
    unfold Qlt in H; simpl in H; lia.
Qed.

Lemma round_comp (x y : Q) : x == y -> round x == round y.
Proof.
  intros E. destruct (Q_dec x 0) as [[H|H]|H].
  - rewrite (round_neg x H), (round_neg y) by lra.
    apply Qopp_comp. apply roundPos_comp; [lra|now rewrite E].
  - rewrite (round_pos x H), (round_pos y) by lra. apply roundPos_comp; assumption.
  - rewrite (round_zero x H), (round_zero y) by lra. reflexivity.
Qed.

Lemma round_nonneg (x : Q) : 0 <= x -> 0 <= round x.
Proof.
  intros H. destruct (Qlt_le_dec 0 x) as [P|P].
  - rewrite round_pos by exact P. apply roundPos_nonneg, H.
  - rewrite round_zero by lra. apply Qle_refl.
Qed.

Lemma round_mono (p q : Q) : 0 <= p -> p <= q -> round p <= round q.
Proof.
  intros Hp H. destruct (Qlt_le_dec 0 p) as [P|P].
  - rewrite (round_pos p P), (round_pos q) by lra. apply roundPos_mono; assumption.
  - rewrite (round_zero p) by lra. apply round_nonneg. lra.
Qed.

Lemma round_error (p : Q) :
  0 < p -> p - pow2 (quantum p - 1) <= round p /\ round p <= p + pow2 (quantum p - 1).
Proof. intros H. rewrite round_pos by exact H. apply roundPos_error. Qed.

(** A number on the grid of its own binade is a double. *)
Lemma round_on_grid (p : Q) (n t : Z) :
  0 < p -> (quantum p <= t)%Z -> p == inject_Z n * pow2 t -> round p == p.
Proof.
  intros Hp Ht E. rewrite round_pos by exact Hp.
  apply (roundPos_exact p (n * 2 ^ (t - quantum p))).
  rewrite inject_Z_mult, <- Qmult_assoc, <- pow2_on_grid by exact Ht. exact E.
Qed.

Lemma round_int (n : Z) : (0 <= n <= 2 ^ 53)%Z -> round (inject_Z n) == inject_Z n.
Proof.
  intros [L U]. destruct (Z.eq_dec n 0) as [->|N]; [reflexivity|].
  assert (Hp : 0 < inject_Z n) by (rewrite <- (Zlt_Qlt 0); lia).
  destruct (Z.eq_dec n (2 ^ 53)) as [->|N'].
  - apply (round_on_grid _ 1 53); [exact Hp| |].
    + assert (B : binade (inject_Z (2 ^ 53)) = 53%Z).
      { apply binade_unique; rewrite ?pow2_nonneg by lia; rewrite <- ?Zle_Qle, <- ?Zlt_Qlt; lia. }
      unfold quantum. rewrite B. lia.
    + rewrite pow2_nonneg by lia. ring.
  - apply (round_on_grid _ n 0); [exact Hp| |change (pow2 0) with 1; ring].
    assert (B : (binade (inject_Z n) < 53)%Z).
    { apply binade_lt_pow2; [exact Hp|]. rewrite pow2_nonneg by lia.
      rewrite <- Zlt_Qlt. lia. }
    unfold quantum. lia.
Qed.

(** A positive double lies on the grid of its quantum. *)
Lemma double_on_grid (x : Q) :
  0 < x -> isDouble x -> exists n, x == inject_Z n * pow2 (quantum x).
Proof.
  intros Hx D. unfold isDouble in D. rewrite round_pos in D by exact Hx.
  exists (nearestEven (x / pow2 (quantum x))). symmetry. exact D.
Qed.

End Rounding.

Section Grid.
Import Double.

Lemma onGrid_finer (g g' : Z) (r : Q) : (g' <= g)%Z -> onGrid g r -> onGrid g' r.
Proof.
  intros H [n E]. exists (n * 2 ^ (g - g'))%Z.
  rewrite inject_Z_mult, <- Qmult_assoc, <- pow2_on_grid by exact H. exact E.
Qed.

Lemma onGrid_int (g n : Z) : (g <= 0)%Z -> onGrid g (inject_Z n).
Proof.
  intros H. apply (onGrid_finer 0); [exact H|]. exists n. change (pow2 0) with 1. ring.
Qed.

Lemma onGrid_sub (g : Z) (a b : Q) : onGrid g a -> onGrid g b -> onGrid g (a - b).
Proof.
  intros [n E] [m F]. exists (n - m)%Z. unfold Z.sub.
  rewrite inject_Z_plus, inject_Z_opp, E, F. ring.
Qed.

Lemma onGrid_scale (g n : Z) (a : Q) : onGrid g a -> onGrid g (inject_Z n * a).
Proof.
  intros [m E]. exists (n * m)%Z. rewrite inject_Z_mult, E. ring.
Qed.

Lemma onGrid_comp (g : Z) (a b : Q) : a == b -> onGrid g a -> onGrid g b.
Proof. intros E [n H]. exists n. rewrite <- E. exact H. Qed.

(** A positive number on a grid is at least one step. *)
Lemma onGrid_step (g : Z) (r : Q) : onGrid g r -> 0 < r -> pow2 g <= r.
Proof.
  intros [n E] H. pose proof (pow2_pos g) as P.
  assert (N : (1 <= n)%Z).
  { destruct (Z_lt_le_dec n 1) as [L|L]; [|exact L]. exfalso.
    assert (A : inject_Z n <= inject_Z 0) by (rewrite <- Zle_Qle; lia).
    change (inject_Z 0) with 0 in A.
    set (a := inject_Z n) in *. nra. }
  rewrite Zle_Qle in N. change (inject_Z 1) with 1 in N.
  set (a := inject_Z n) in *. nra.
Qed.

Lemma double_onGrid (x : Q) : 0 <= x -> isDouble x -> onGrid (gridOf x) x.
Proof.
  intros Hx D. destruct (Qlt_le_dec 0 x) as [P|P].
  - apply (onGrid_finer (quantum x)); [unfold gridOf; lia|].
    exact (double_on_grid x P D).
  - exists 0%Z. change (inject_Z 0) with 0. rewrite Qmult_0_l. lra.
Qed.

Lemma double_onGrid_min (x : Q) (t : Z) :
  0 <= x -> isDouble x -> onGrid (Z.min (quantum x) t) x.
Proof.
  intros Hx D. destruct (Qlt_le_dec 0 x) as [P|P].
  - apply (onGrid_finer (quantum x)); [lia|]. exact (double_on_grid x P D).
  - exists 0%Z. change (inject_Z 0) with 0. rewrite Qmult_0_l. lra.
Qed.

Lemma double_below (x : Q) : 0 < x -> x < pow2 (quantum x + 53).
Proof.
  intros Hx. destruct (binade_spec x Hx) as [_ U].
  pose proof (quantum_ge x) as [Q1 _].
  assert (L : (binade x + 1 <= quantum x + 53)%Z) by lia.
  apply pow2_le in L. lra.
Qed.

End Grid.

(** Doubles that are known digit by digit: 0.1 is
    [0x1.999999999999ap-4], 0.3 is [0x1.3333333333333p-2], one third is
    [0x1.5555555555555p-2]; [2^53 + 1] lies half way between two
    doubles and goes to the even one, [2^53 + 3] goes up; the smallest
    subnormal number is [2^-1074], and half of it goes to zero. *)
Lemma round_known_doubles :
  Double.round 0.1 == 3602879701896397 # 36028797018963968 /\
  Double.round 0.3 == 5404319552844595 # 18014398509481984 /\
  Double.round (1 # 3) == 6004799503160661 # 18014398509481984 /\
  Double.round (- (1 # 3)) == - (6004799503160661 # 18014398509481984) /\
  Double.round 9007199254740993 == 9007199254740992 /\
  Double.round 9007199254740995 == 9007199254740996 /\
  Double.round (Double.pow2 (-1074)) == Double.pow2 (-1074) /\
  Double.round (Double.pow2 (-1075)) == 0 /\
  Double.round (3 * Double.pow2 (-1075)) == 2 * Double.pow2 (-1074).
Proof. repeat split; vm_compute; reflexivity. Qed.

Section TimestampFacts.
Import Captions Layout.

Lemma Qfloor_div_pos (x : Q) (n : positive) :
  Qfloor (x / inject_Z (Zpos n)) = (Qfloor x / Zpos n)%Z.
Proof.
  destruct x as [a d]. unfold Qdiv, Qinv, Qmult, inject_Z, Qfloor. simpl.
  rewrite Z.mul_1_r, Pos2Z.inj_mul, Z.div_div by lia. reflexivity.
Qed.

Lemma Qfloor_unique (x : Q) (z : Z) :
  inject_Z z <= x -> x < inject_Z (z + 1) -> Qfloor x = z.
Proof.
  intros H1 H2.
  pose proof (Qfloor_le x) as F1. pose proof (Qlt_floor x) as F2.
  assert (A : inject_Z z < inject_Z (Qfloor x + 1)) by lra.
  assert (B : inject_Z (Qfloor x) < inject_Z (z + 1)) by lra.
  rewrite <- Zlt_Qlt in A, B. lia.
Qed.

Lemma Qfloor_minus_int (x : Q) (k : Z) :
  Qfloor (x - inject_Z k) = (Qfloor x - k)%Z.
Proof.
  apply Qfloor_unique.
  - unfold Z.sub. rewrite inject_Z_plus, inject_Z_opp.
    pose proof (Qfloor_le x). lra.
  - replace (Qfloor x - k + 1)%Z with ((Qfloor x + 1) + - k)%Z by lia.
    rewrite inject_Z_plus, inject_Z_opp. pose proof (Qlt_floor x). lra.
Qed.

Lemma trunc_nonneg (x : Q) : 0 <= x -> trunc x = Qfloor x.
Proof.
  intros H. unfold trunc. destruct (Qlt_le_dec x 0); [lra|reflexivity].
Qed.

(** The remainder of a non-negative number by a positive integer. *)
Lemma rem_nonneg (x : Q) (n : positive) :
  0 <= x ->
  rem x (inject_Z (Zpos n)) = x - inject_Z (Zpos n) * inject_Z (Qfloor x / Zpos n).
Proof.
  intros Hx. unfold rem. rewrite trunc_nonneg.
  - now rewrite Qfloor_div_pos.
  - apply Qle_shift_div_l; [reflexivity | lra].
Qed.

Lemma Qfloor_rem (x : Q) (n : positive) :
  0 <= x -> Qfloor (rem x (inject_Z (Zpos n))) = (Qfloor x mod Zpos n)%Z.
Proof.
  intros Hx. rewrite rem_nonneg by exact Hx.
  rewrite <- inject_Z_mult, Qfloor_minus_int, Z.mod_eq by lia. reflexivity.
Qed.

(** The four fields of [formatTimestamp] in terms of the whole
    milliseconds [Qfloor (seconds * 1000)]. *)
Lemma timestamp_fields (seconds : Q) :
  0 <= seconds ->
  let T := Qfloor (seconds * 1000) in
  Math_floor (seconds / 3600) = (T / 3600000)%Z /\
  Math_floor (rem seconds 3600 / 60) = ((T / 60000) mod 60)%Z /\
  Math_floor (rem seconds 60) = ((T / 1000) mod 60)%Z /\
  Math_floor (rem seconds 1 * 1000) = (T mod 1000)%Z.
Proof.
  intros Hs T. unfold Math_floor.
  assert (HF : Qfloor seconds = (T / 1000)%Z).
  { unfold T. rewrite <- (Qfloor_div_pos (seconds * 1000) 1000).
    apply Qfloor_comp. field. }
  change (3600 : Q) with (inject_Z 3600). change (60 : Q) with (inject_Z 60).
  change (1 : Q) with (inject_Z 1). change (1000 : Q) with (inject_Z 1000).
  repeat split.
  - rewrite Qfloor_div_pos, HF, Z.div_div by lia. reflexivity.
  - rewrite Qfloor_div_pos, Qfloor_rem, HF by exact Hs.
    replace (T / 60000)%Z with (T / 1000 / 60)%Z by (rewrite Z.div_div by lia; reflexivity).
    change 3600%Z with (60 * 60)%Z.
    rewrite (Z.rem_mul_r (T / 1000) 60 60) by lia.
    rewrite Z.mul_comm, Z.div_add by lia.
    rewrite (Z.div_small (_ mod 60)) by (apply Z.mod_pos_bound; lia). reflexivity.
  - rewrite Qfloor_rem, HF by exact Hs. reflexivity.
  - rewrite rem_nonneg by exact Hs.
    assert (E : (seconds - inject_Z 1 * inject_Z (Qfloor seconds / 1)) * inject_Z 1000
                == seconds * 1000 - inject_Z (1000 * (T / 1000))).
    { rewrite Z.div_1_r, HF, inject_Z_mult. change (inject_Z 1000) with 1000.
      change (inject_Z 1) with 1. ring. }
    rewrite (Qfloor_comp _ _ E), Qfloor_minus_int. fold T.
    rewrite Z.mod_eq by lia. reflexivity.
Qed.

Lemma padStart_two (n : Z) :
  (0 <= n < 100)%Z -> padStart (toString n) 2 "0" = twoDigits n.
Proof.
  intros Hn.
  assert (Htable : forallb (fun k => String.eqb (padStart (toString (Z.of_nat k)) 2 "0")
                                        (twoDigits (Z.of_nat k)))
                           (seq 0 100) = true) by (vm_compute; reflexivity).
  rewrite forallb_forall in Htable.
  specialize (Htable (Z.to_nat n)). rewrite Z2Nat.id in Htable by lia.
  apply String.eqb_eq, Htable, in_seq. lia.
Qed.

Lemma padStart_three (n : Z) :
  (0 <= n < 1000)%Z -> padStart (toString n) 3 "0" = threeDigits n.
Proof.
  intros Hn.
  assert (Htable : forallb (fun k => String.eqb (padStart (toString (Z.of_nat k)) 3 "0")
                                        (threeDigits (Z.of_nat k)))
                           (seq 0 1000) = true) by (vm_compute; reflexivity).
  rewrite forallb_forall in Htable.
  specialize (Htable (Z.to_nat n)). rewrite Z2Nat.id in Htable by lia.
  apply String.eqb_eq, Htable, in_seq. lia.
Qed.

End TimestampFacts.

Section Remainder.
Import Double.

Lemma Qfloor_nonneg (x : Q) : 0 <= x -> (0 <= Qfloor x)%Z.
Proof. intros H. change 0%Z with (Qfloor 0). apply Qfloor_resp_le, H. Qed.

(** The remainder of a non-negative number by a positive integer. *)
Lemma rem_spec (x : Q) (d : Z) :
  0 <= x -> (0 < d)%Z ->
  rem x (inject_Z d) == x - inject_Z (d * Qfloor (x / inject_Z d)) /\
  0 <= rem x (inject_Z d) /\ rem x (inject_Z d) < inject_Z d /\
  rem x (inject_Z d) <= x.
Proof.
  intros Hx Hd.
  assert (Dq : 0 < inject_Z d) by (change 0 with (inject_Z 0); rewrite <- Zlt_Qlt; exact Hd).
  assert (Hq : 0 <= x / inject_Z d) by (apply Qle_shift_div_l; lra).
  unfold rem. rewrite trunc_nonneg by exact Hq.
  pose proof (Qfloor_le (x / inject_Z d)) as L.
  pose proof (Qlt_floor (x / inject_Z d)) as U.
  pose proof (Qfloor_nonneg _ Hq) as N. rewrite Zle_Qle in N.
  rewrite inject_Z_plus in U. change (inject_Z 1) with 1 in U. change (inject_Z 0) with 0 in N.
  rewrite inject_Z_mult.
  assert (E : x == x / inject_Z d * inject_Z d) by (field; lra).
  set (y := x / inject_Z d) in *. set (k := inject_Z (Qfloor y)) in *.
  set (dd := inject_Z d) in *.
  split; [reflexivity|]. repeat split; nra.
Qed.

Lemma rem_onGrid (x : Q) (d : Z) :
  0 <= x -> (0 < d)%Z -> isDouble x -> onGrid (gridOf x) (rem x (inject_Z d)).
Proof.
  intros Hx Hd D. destruct (rem_spec x d Hx Hd) as (E & _).
  apply (onGrid_comp _ _ _ (Qeq_sym _ _ E)).
  apply onGrid_sub; [apply double_onGrid; assumption|].
  apply onGrid_int. unfold gridOf. lia.
Qed.

End Remainder.

Section FloorOfQuotient.
Import Double.

Lemma round_half : round (1 # 2) == 1 # 2.
Proof. vm_compute. reflexivity. Qed.

(** Dividing a number on the grid [2^g] by an integer of that grid
    below [2^c] and rounding the quotient to a double does not change
    its whole part, provided the grid is at least [c - 1] binary places
    coarser than the quantum of the quotient. *)
Lemma floor_round_div (r : Q) (d c g : Z) :
  0 <= r -> onGrid g r -> onGrid g (inject_Z d) -> (0 < d < 2 ^ c)%Z -> (0 <= c)%Z ->
  r / inject_Z d < pow2 53 ->
  (1 # 2 < r / inject_Z d -> (quantum (r / inject_Z d) + c - 1 <= g)%Z) ->
  Qfloor (round (r / inject_Z d)) = Qfloor (r / inject_Z d).
Proof.
  intros Hr G Hg [Hd Hdc] Hc Hbig Hq.
  assert (Dq : 0 < inject_Z d) by (change 0 with (inject_Z 0); rewrite <- Zlt_Qlt; exact Hd).
  set (p := r / inject_Z d) in *.
  assert (Hp : 0 <= p) by (apply Qle_shift_div_l; lra).
  assert (Er : r == p * inject_Z d) by (unfold p; field; lra).
  pose proof (Qfloor_le p) as L. pose proof (Qlt_floor p) as U.
  pose proof (Qfloor_nonneg p Hp) as N.
  set (k1 := Qfloor p) in *.
  apply Qfloor_unique.
  - assert (B : (k1 <= 2 ^ 53)%Z).
    { rewrite Zle_Qle, <- pow2_nonneg by lia. apply Qle_trans with p; [exact L|lra]. }
    rewrite <- (round_int k1) by lia. apply round_mono; [|exact L].
    change 0 with (inject_Z 0). rewrite <- Zle_Qle. exact N.
  - destruct (Qlt_le_dec (1 # 2) p) as [Big|Small].
    + specialize (Hq Big). set (e := quantum p) in *.
      assert (Ppos : 0 < p) by lra.
      assert (He : (e <= 0)%Z).
      { pose proof (binade_lt_pow2 p 53 Ppos Hbig). unfold e, quantum. lia. }
      pose proof (pow2_pos e) as Pe. pose proof (pow2_pos (e - 1)) as Pe1.
      assert (Eh : pow2 e == 2 * pow2 (e - 1)).
      { rewrite <- pow2_succ. now replace (e - 1 + 1)%Z with e by lia. }
      (* the gap between the quotient and the next integer *)
      assert (Gap : p + pow2 (e - 1) < inject_Z (k1 + 1)).
      { assert (S : pow2 g <= inject_Z ((k1 + 1) * d) - r).
        { apply onGrid_step.
          - apply onGrid_sub; [|exact G].
            apply (onGrid_comp g (inject_Z (k1 + 1) * inject_Z d));
              [now rewrite inject_Z_mult|apply onGrid_scale, Hg].
          - rewrite inject_Z_mult, Er. set (kk := inject_Z (k1 + 1)) in *.
            set (dd := inject_Z d) in *. nra. }
        assert (C : inject_Z d * pow2 (e - 1) < pow2 g).
        { apply Qlt_le_trans with (pow2 c * pow2 (e - 1)).
          - assert (D : inject_Z d < pow2 c).
            { rewrite pow2_nonneg by exact Hc. rewrite <- Zlt_Qlt. exact Hdc. }
            set (dd := inject_Z d) in *. nra.
          - rewrite <- pow2_add. apply pow2_le. lia. }
        rewrite inject_Z_mult, Er in S.
        set (kk := inject_Z (k1 + 1)) in *. set (dd := inject_Z d) in *.
        set (h := pow2 (e - 1)) in *. set (s := pow2 g) in *.
        assert (X : dd * (p + h) < dd * kk) by nra.
        nra. }
      rewrite round_pos by exact Ppos. unfold roundPos. fold e.
      destruct (nearestEven_error (p / pow2 e)) as [_ Ue].
      assert (Ey : p / pow2 e * pow2 e == p) by (field; lra).
      set (y := p / pow2 e) in *. set (n := nearestEven y) in *.
      (* [k1 + 1] on the grid of the quotient *)
      assert (Ek : inject_Z (k1 + 1) == inject_Z ((k1 + 1) * 2 ^ (0 - e)) * pow2 e).
      { rewrite inject_Z_mult, <- Qmult_assoc, <- pow2_on_grid by exact He.
        change (pow2 0) with 1. ring. }
      set (K := ((k1 + 1) * 2 ^ (0 - e))%Z) in *.
      assert (Hn : (n < K)%Z).
      { rewrite Zlt_Qlt. rewrite Ek in Gap.
        set (a := inject_Z n) in *. set (b := inject_Z K) in *.
        set (h := pow2 (e - 1)) in *. set (q := pow2 e) in *.
        assert (X : (y + (1 # 2)) * q < b * q) by nra.
        nra. }
      assert (Hn' : (n <= K - 1)%Z) by lia.
      rewrite Zle_Qle in Hn'. unfold Z.sub in Hn'. rewrite inject_Z_plus in Hn'.
      change (inject_Z (-1)) with (-1) in Hn'.
      rewrite Ek. set (a := inject_Z n) in *. set (b := inject_Z K) in *.
      set (q := pow2 e) in *. nra.
    + apply Qle_lt_trans with (1 # 2).
      * rewrite <- round_half. apply round_mono; assumption.
      * assert (M : (1 <= k1 + 1)%Z) by lia. rewrite Zle_Qle in M.
        change (inject_Z 1) with 1 in M. set (kk := inject_Z (k1 + 1)) in *. lra.
Qed.

End FloorOfQuotient.


Section DoubleFields.
Import Double Captions Layout.

Variable seconds : Q.
Hypothesis Hdouble : isDouble seconds.
Hypothesis Hnonneg : 0 <= seconds.

(** The quantum of a quotient above one half that stays below [2^t]. *)
Lemma quantum_of_quotient (p : Q) (t : Z) :
  1 # 2 < p -> p < pow2 t ->
  quantum p = (binade p - 52)%Z /\ (-1 <= binade p < t)%Z /\ pow2 (binade p) <= p.
Proof.
  intros Lo Hi. assert (Hp : 0 < p) by lra.
  assert (B1 : (-1 <= binade p)%Z).
  { apply binade_ge_pow2. assert (E : pow2 (-1) == 1 # 2) by reflexivity. lra. }
  pose proof (binade_lt_pow2 p t Hp Hi) as B2.
  destruct (binade_spec p Hp) as [L _].
  unfold quantum. repeat split; try lia; exact L.
Qed.

(** The quotient by 60 of the seconds within the hour is rounded, its
    whole part is exact. *)
Lemma minutes_field :
  Math_floor (div (rem seconds 3600) 60) = Math_floor (rem seconds 3600 / 60).
Proof.
  unfold Math_floor, div.
  change (3600 : Q) with (inject_Z 3600). change (60 : Q) with (inject_Z 60).
  destruct (rem_spec seconds 3600 Hnonneg) as (_ & R0 & R1 & R2); [lia|].
  pose proof (rem_onGrid seconds 3600 Hnonneg eq_refl Hdouble) as G.
  set (r := rem seconds (inject_Z 3600)) in *.
  change (inject_Z 3600) with 3600 in R1.
  assert (E53 : pow2 53 == 9007199254740992) by reflexivity.
  assert (E6 : pow2 6 == 64) by reflexivity.
  assert (Hq : r / inject_Z 60 < 60).
  { apply Qlt_shift_div_r; [reflexivity|]. change (inject_Z 60) with 60. lra. }
  apply (floor_round_div r 60 6 (gridOf seconds)); try assumption; try lia.
  - apply onGrid_int. unfold gridOf. lia.
  - lra.
  - intros Big. destruct (quantum_of_quotient _ 6 Big) as (Eq & [B1 B2] & L); [lra|].
    set (p := r / inject_Z 60) in *.
    assert (Er : r == p * 60) by (unfold p; change (inject_Z 60) with 60; field).
    assert (B : (binade p + 5 <= binade seconds)%Z).
    { apply binade_ge_pow2. rewrite pow2_add.
      assert (E5 : pow2 5 == 32) by reflexivity. pose proof (pow2_pos (binade p)). nra. }
    pose proof (quantum_ge seconds) as [Q1 _]. unfold gridOf. lia.
Qed.

(** The same holds of the quotient by 3600 as long as it stays below
    [2^46] hours. *)
Lemma hours_field :
  seconds < 3600 * pow2 46 ->
  Math_floor (div seconds 3600) = Math_floor (seconds / 3600).
Proof.
  intros Hbig. unfold Math_floor, div.
  change (seconds / 3600) with (seconds / inject_Z 3600).
  assert (E53 : pow2 53 == 9007199254740992) by reflexivity.
  assert (E46 : pow2 46 == 70368744177664) by reflexivity.
  assert (Hq : seconds / inject_Z 3600 < pow2 46).
  { apply Qlt_shift_div_r; [reflexivity|]. change (inject_Z 3600) with 3600. lra. }
  apply (floor_round_div seconds 3600 12 (Z.min (quantum seconds) 4));
    try assumption; try lia.
  - apply double_onGrid_min; assumption.
  - apply (onGrid_finer 4); [lia|]. exists 225%Z. reflexivity.
  - lra.
  - intros Big. destruct (quantum_of_quotient _ 46 Big Hq) as (Eq & [B1 B2] & L).
    set (p := seconds / inject_Z 3600) in *.
    assert (Er : seconds == p * 3600) by (unfold p; change (inject_Z 3600) with 3600; field).
    assert (B : (binade p + 11 <= binade seconds)%Z).
    { apply binade_ge_pow2. rewrite pow2_add.
      assert (E11 : pow2 11 == 2048) by reflexivity. pose proof (pow2_pos (binade p)). nra. }
    pose proof (quantum_ge seconds) as [Q1 _]. lia.
Qed.

Lemma hours_nonneg : (0 <= Math_floor (div seconds 3600))%Z.
Proof.
  apply Qfloor_nonneg, round_nonneg. apply Qle_shift_div_l; [reflexivity|lra].
Qed.

(** The fraction of a second that a double carries stops one unit in
    the last place short of a whole second. *)
Lemma fraction_below_one : rem seconds 1 <= 1 - pow2 (-53).
Proof.
  change (1 : Q) with (inject_Z 1) at 1.
  destruct (rem_spec seconds 1 Hnonneg) as (_ & R0 & R1 & R2); [lia|].
  pose proof (rem_onGrid seconds 1 Hnonneg eq_refl Hdouble) as G.
  set (f := rem seconds (inject_Z 1)) in *. change (inject_Z 1) with 1 in R1.
  assert (E53 : pow2 (-53) == 1 # 9007199254740992) by reflexivity.
  destruct (Z_le_gt_dec (-53) (gridOf seconds)) as [Coarse|Fine].
  - assert (S : pow2 (gridOf seconds) <= 1 - f).
    { apply onGrid_step; [|lra].
      apply onGrid_sub; [|exact G]. apply (onGrid_int _ 1). unfold gridOf. lia. }
    apply pow2_le in Coarse. lra.
  - destruct (Qlt_le_dec 0 seconds) as [P|P]; [|lra].
    pose proof (double_below seconds P) as U.
    assert (L : (quantum seconds + 53 <= -1)%Z) by (unfold gridOf in Fine; lia).
    apply pow2_le in L. assert (Eh : pow2 (-1) == 1 # 2) by reflexivity. lra.
Qed.

(** The millisecond field: the whole part of the rounded product.  It
    is the whole part of the exact product unless the exact product
    comes within [2^-44] of the next whole number. *)
Lemma milliseconds_field :
  let p := rem seconds 1 * 1000 in
  let ms := Math_floor (mul (rem seconds 1) 1000) in
  (Qfloor p <= ms <= 999)%Z /\ inject_Z ms <= p + pow2 (-44).
Proof.
  intros p ms. unfold ms, Math_floor, mul. fold p.
  pose proof fraction_below_one as F.
  assert (R : 0 <= rem seconds 1).
  { change (1 : Q) with (inject_Z 1).
    destruct (rem_spec seconds 1 Hnonneg) as (_ & R0 & _); [lia|exact R0]. }
  assert (E53 : pow2 (-53) == 1 # 9007199254740992) by reflexivity.
  assert (Hp : 0 <= p) by (unfold p; lra).
  assert (Hp' : p <= (1 - pow2 (-53)) * 1000) by (unfold p; lra).
  split; [split|].
  - pose proof (Qfloor_le p) as L. pose proof (Qfloor_nonneg p Hp) as N.
    rewrite <- (Qfloor_Z (Qfloor p)) at 1. apply Qfloor_resp_le.
    rewrite <- (round_int (Qfloor p)).
    + apply round_mono; [|exact L]. change 0 with (inject_Z 0). rewrite <- Zle_Qle. exact N.
    + split; [exact N|]. apply Z.le_trans with 1000%Z; [|lia].
      change 1000%Z with (Qfloor 1000). apply Qfloor_resp_le. lra.
  - assert (C : Qfloor (round ((1 - pow2 (-53)) * 1000)) = 999%Z) by (vm_compute; reflexivity).
    rewrite <- C. apply Qfloor_resp_le, round_mono; assumption.
  - apply Qle_trans with (round p); [apply Qfloor_le|].
    destruct (Qlt_le_dec 0 p) as [P|P].
    + destruct (round_error p P) as [_ U].
      assert (B : (binade p < 10)%Z).
      { apply binade_lt_pow2; [exact P|]. assert (E10 : pow2 10 == 1024) by reflexivity. lra. }
      assert (Q : (quantum p - 1 <= -44)%Z) by (unfold quantum; lia).
      apply pow2_le in Q. lra.
    + rewrite round_zero by lra. pose proof (pow2_pos (-44)). lra.
Qed.

End DoubleFields.

Section TimestampClaims.
Import Captions Layout.

(** Below [1e21] [String] writes the digits. *)
Lemma numberToString_digits (n : Z) :
  (Z.abs n < 10 ^ 21)%Z -> numberToString n = toString n.
Proof.
  intros H. unfold numberToString.
  destruct (Z.abs n <? 10 ^ 21)%Z eqn:E; [reflexivity|].
  apply Z.ltb_ge in E. lia.
Qed.

(** The exact product of the fraction of a second by 1000, in terms of
    the whole milliseconds [T]. *)
Lemma fraction_millis (seconds : Q) :
  0 <= seconds ->
  let T := Qfloor (seconds * 1000) in
  rem seconds 1 * 1000 - inject_Z (T mod 1000) == seconds * 1000 - inject_Z T.
Proof.
  intros Hs T.
  assert (HF : Qfloor seconds = (T / 1000)%Z).
  { unfold T. rewrite <- (Qfloor_div_pos (seconds * 1000) 1000).
    apply Qfloor_comp. field. }
  change (1 : Q) with (inject_Z 1) at 1. rewrite rem_nonneg by exact Hs.
  rewrite Z.div_1_r, HF, Z.mod_eq by lia.
  unfold Z.sub. rewrite inject_Z_plus, inject_Z_opp, inject_Z_mult.
  change (inject_Z 1000) with 1000. change (inject_Z 1) with 1. ring.
Qed.

(** The four fields that [formatTimestamp] pads and joins. *)
Lemma formatTimestamp_fields (seconds : Q) :
  Double.isDouble seconds -> 0 <= seconds ->
  let T := Qfloor (seconds * 1000) in
  let hh := Math_floor (Double.div seconds 3600) in
  let mm := ((T / 60000) mod 60)%Z in
  let ss := ((T / 1000) mod 60)%Z in
  let ms := Math_floor (Double.mul (rem seconds 1) 1000) in
  (ms = (T mod 1000)%Z \/
   ms = (T mod 1000 + 1)%Z /\ inject_Z T + 1 - Double.pow2 (-44) <= seconds * 1000) /\
  (0 <= hh /\ 0 <= mm < 60 /\ 0 <= ss < 60 /\ 0 <= ms < 1000)%Z /\
  (seconds < 3600 * Double.pow2 46 -> hh = (T / 3600000)%Z) /\
  formatTimestamp seconds
  = (padStart (numberToString hh) 2 "0" ++ ":" ++ twoDigits mm ++ ":" ++ twoDigits ss
     ++ "," ++ threeDigits ms)%string.
Proof.
  intros Hd Hs T hh mm ss ms.
  destruct (timestamp_fields seconds Hs) as (Eh & Em & Es & Ems). fold T in Eh, Em, Es, Ems.
  destruct (milliseconds_field seconds Hd Hs) as ([M1 M2] & M3). fold ms in M1, M2, M3.
  unfold Math_floor in Ems. rewrite Ems in M1.
  pose proof (fraction_millis seconds Hs) as Ef. cbv zeta in Ef. fold T in Ef.
  pose proof (Qlt_floor (seconds * 1000)) as Ut. fold T in Ut.
  rewrite inject_Z_plus in Ut. change (inject_Z 1) with 1 in Ut.
  assert (E44 : Double.pow2 (-44) == 1 # 17592186044416) by reflexivity.
  assert (M4 : (ms <= T mod 1000 + 1)%Z).
  { assert (X : inject_Z ms < inject_Z (T mod 1000 + 2)).
    { rewrite inject_Z_plus. change (inject_Z 2) with 2.
      set (a := inject_Z ms) in *. set (b := inject_Z (T mod 1000)) in *.
      set (c := inject_Z T) in *. lra. }
    rewrite <- Zlt_Qlt in X. lia. }
  assert (Hmm : (0 <= mm < 60)%Z) by (unfold mm; Z.div_mod_to_equations; lia).
  assert (Hss : (0 <= ss < 60)%Z) by (unfold ss; Z.div_mod_to_equations; lia).
  assert (Hms : (0 <= ms < 1000)%Z) by (Z.div_mod_to_equations; lia).
  split; [|split; [|split]].
  - destruct (Z.eq_dec ms (T mod 1000)) as [E|N]; [left; exact E|right].
    assert (E : ms = (T mod 1000 + 1)%Z) by lia. split; [exact E|].
    rewrite E, inject_Z_plus in M3. change (inject_Z 1) with 1 in M3.
    set (b := inject_Z (T mod 1000)) in *. set (c := inject_Z T) in *. lra.
  - repeat split; try lia. apply hours_nonneg. exact Hs.
  - intros Hbig. unfold hh. rewrite hours_field by assumption. exact Eh.
  - unfold formatTimestamp. fold ms.
    rewrite (minutes_field seconds Hd Hs), Em, Es. fold mm ss hh.
    rewrite (numberToString_digits mm), (numberToString_digits ss),
      (numberToString_digits ms) by lia.
    rewrite (padStart_two mm), (padStart_two ss), (padStart_three ms) by lia.
    reflexivity.
Qed.




End TimestampClaims.

Section CaptionFileClaims.
Import Captions Layout.

Lemma formatTimestamp_timecodeOf (t : Q) :
  nonNegative t -> timecodeOf t (formatTimestamp t).
Proof.
  intros [Hd Hs].
  destruct (formatTimestamp_fields t Hd Hs) as (Hms & Hrange & Hh & Hfmt).
  exists (Math_floor (Double.div t 3600)), (Math_floor (Double.mul (rem t 1) 1000)).
  split; [exact Hfmt|]. split; [apply Hrange|]. split; [exact Hh|].
  split; [apply Hrange|exact Hms].
Qed.

(** C6 as amended.  The content that [createSRTFile] writes is, for the
    cues of the words in order, the block [index], [start --> end], [text] of each
    cue, every line ended by a line feed, with one empty line between
    consecutive blocks and none after the last.  For a time of a cue
    that is not negative, [start] or [end] is a time code
    [HH:MM:SS,mmm] of that time.  (The older servers put an
    empty line after every block, the last one too.) *)
Theorem srt_file_layout (ws : list Word) :
  exists cues,
    captionCues ws = Ok cues /\
    createSRTFile {| words := Some ws |} = Ok (unlines (blocksWithBlankLines cues)) /\
    (forall c, cueLines c
               = [ toString (index c);
                   (formatTimestamp (startSeconds c) ++ " --> "
                    ++ formatTimestamp (endSeconds c))%string;
                   text c ]) /\
    Forall (fun c =>
              exists a b,
                cueLines c = [ toString (index c); (a ++ " --> " ++ b)%string; text c ] /\
                (nonNegative (startSeconds c) -> timecodeOf (startSeconds c) a) /\
                (nonNegative (endSeconds c) -> timecodeOf (endSeconds c) b))
           cues /\
    (forall c, unlines (blocksWithBlankLines [c]) = srtEntry c) /\
    (forall c rest, rest <> [] ->
       unlines (blocksWithBlankLines (c :: rest))
       = (srtEntry c ++ nl ++ unlines (blocksWithBlankLines rest))%string) /\
    Server.createSRTFile {| words := Some ws |}
    = Ok (unlines (concat (map (fun c => cueLines c ++ [EmptyString]) cues))).
Proof.
  exists (cuesOf ws 1). split; [apply captionCues_cuesOf|].
  split; [|split; [reflexivity|split; [|split; [|split]]]].
  - unfold createSRTFile. cbn [words]. rewrite captionCues_cuesOf. cbn [bind].
    now rewrite join_entries_unlines.
  - apply Forall_forall. intros c _.
    exists (formatTimestamp (startSeconds c)), (formatTimestamp (endSeconds c)).
    split; [reflexivity|]. split; apply formatTimestamp_timecodeOf.
  - intros c. rewrite <- join_entries_unlines. reflexivity.
  - intros c [|c' rest] Hne; [contradiction|].
    rewrite <- !join_entries_unlines. reflexivity.
  - unfold Server.createSRTFile. cbn [words].
    rewrite server_contentLoop_layout by lia. reflexivity.
Qed.

(** C6 as stated fails for a word that starts half a second before
    zero: the time line of its cue starts with [-1:-1:-1,-500], which
    is no time code [HH:MM:SS,mmm], whatever the four fields. *)
Lemma srt_file_layout_counterexample :
  createSRTFile {| words := Some [ {| word := "a"; start := - (1 # 2); end_ := 1 |} ] |}
  = Ok ("1" ++ nl ++ "-1:-1:-1,-500 --> 00:00:01,000" ++ nl ++ "a" ++ nl)%string /\
  formatTimestamp (- (1 # 2)) = "-1:-1:-1,-500"%string /\
  ~ exists hh mm ss ms : Z, "-1:-1:-1,-500"%string = timecode hh mm ss ms.
Proof.
  split; [vm_compute; reflexivity|]. split; [vm_compute; reflexivity|].
  intros (hh & mm & ss & ms & H). unfold timecode in H.
  set (X := padStart (numberToString hh) 2 "0") in H.
  assert (L : String.length X = 3%nat).
  { apply (f_equal String.length) in H. rewrite string_app_length in H.
    simpl in H. lia. }
  destruct X as [|c1 [|c2 [|c3 [|c4 r]]]]; simpl in L; try discriminate L.
  simpl in H. discriminate H.
Qed.

End CaptionFileClaims.

Section EffectFacts.
Import Effect.

Lemma lt_true (a b : Q) : lt a b = true <-> a < b.
Proof.
  unfold lt. destruct (Qlt_le_dec a b); split; intros; try easy; lra.
Qed.

Lemma lt_false (a b : Q) : lt a b = false <-> b <= a.
Proof.
  unfold lt. destruct (Qlt_le_dec a b); split; intros; try easy; lra.
Qed.

(** The remainder of a non-negative time lies in the cycle. *)
Lemma mod_range (time : Q) (n : positive) :
  0 <= time ->
  0 <= mod_ time (inject_Z (Zpos n)) /\
  mod_ time (inject_Z (Zpos n)) < inject_Z (Zpos n).
Proof.
  intros Ht. unfold mod_, rem.
  assert (Hn : 0 < inject_Z (Zpos n)) by reflexivity.
  assert (Hq : 0 <= time / inject_Z (Zpos n))
    by (apply Qle_shift_div_l; [exact Hn | lra]).
  rewrite trunc_nonneg by exact Hq.
  pose proof (Qfloor_le (time / inject_Z (Zpos n))) as Hlo.
  pose proof (Qlt_floor (time / inject_Z (Zpos n))) as Hhi.
  rewrite inject_Z_plus in Hhi. change (inject_Z 1) with 1 in Hhi.
  assert (E : inject_Z (Zpos n) * (time / inject_Z (Zpos n)) == time)
    by (apply Qmult_div_r; lra).
  set (q := time / inject_Z (Zpos n)) in *.
  set (k := inject_Z (Qfloor q)) in *.
  set (c := inject_Z (Zpos n)) in *.
  split; nra.
Qed.

End EffectFacts.

Section EffectClaims.
Import Effect.

(** C8 as amended.  With [m = time mod 10] the zoom ramps from 1 to 1.15
    over the first 0.3 seconds of the cycle, holds 1.15 until [m = 5],
    ramps back to 1 over [5, 5.3) and stays at 1 for the rest of the
    10 second cycle. *)
Theorem zoom_cycle (time : Q) :
  0 <= time ->
  let m := mod_ time 10 in
  (0 <= m /\ m < 10) /\
  (m < 0.3 -> zoom time == 1 + (m / 0.3) * 0.15) /\
  (0.3 <= m -> m < 5 -> zoom time == 1 + 0.15) /\
  (5 <= m -> m < 5.3 -> zoom time == 1 + 0.15 - ((m - 5) / 0.3) * 0.15) /\
  (5.3 <= m -> zoom time == 1) /\
  (zoom 0 == 1 /\ zoom 0.3 == 1 + 0.15 /\ zoom 5 == 1 + 0.15 /\ zoom 5.3 == 1).
Proof.
  intros Ht m.
  pose proof (mod_range time 10 Ht) as [Hlo Hhi].
  change (inject_Z 10) with (10 : Q) in Hlo, Hhi. fold m in Hlo, Hhi.
  split; [split; assumption|].
  unfold zoom. fold m.
  repeat split; try (intros; zoom_cases m); vm_compute; reflexivity.
Qed.

Lemma zoom_cycle_witness : zoom 12.1 == 1 + 0.15 /\ zoom 17 == 1.
Proof.
  assert (H : 0 <= 12.1) by (vm_compute; discriminate).
  assert (H' : 0 <= 17) by (vm_compute; discriminate).
  split.
  - apply (proj1 (proj2 (proj2 (zoom_cycle 12.1 H)))).
    + vm_compute. discriminate.
    + reflexivity.
  - apply (proj1 (proj2 (proj2 (proj2 (proj2 (zoom_cycle 17 H')))))).
    vm_compute. discriminate.
Defined.

(** C8 as stated fails: 7 seconds into the cycle a zoom that holds until
    [10 - rampOut] would still be 1.15, for a ramp of 0.3 seconds as for
    one of a full second; the expression has been back at 1 since 5.3. *)
Lemma zoom_cycle_counterexample :
  mod_ 7 10 == 7 /\
  zoom 7 == 1 /\
  zoomHoldingToCycleEnd 0.3 0.3 7 == 1 + 0.15 /\
  zoomHoldingToCycleEnd 1 1 7 == 1 + 0.15 /\
  ~ zoom 7 == zoomHoldingToCycleEnd 0.3 0.3 7.
Proof.
  repeat split; vm_compute; discriminate || reflexivity.
Qed.

(** C9.  For every playback time [time >= 0] the zoom is at least 1 and
    at most 1.15; the window is centred horizontally on the fraction
    [anchorX] of the width and vertically on a third of the height, and
    both fractions lie in [0, 1]; the same holds of the variant with
    half-second ramps. *)
Theorem effect_bounds (time : Q) :
  0 <= time ->
  (1 <= zoom time /\ zoom time <= 1 + 0.15) /\
  (0 <= anchorX time /\ anchorX time <= 1) /\
  (0 <= anchorY /\ anchorY <= 1) /\
  (forall iw, x iw time == iw * anchorX time - iw / zoom time / 2) /\
  (forall ih, y ih time == ih * anchorY - ih / zoom time / 2) /\
  (1 <= HalfSecond.zoom time /\ HalfSecond.zoom time <= 1 + 0.15) /\
  (0 <= HalfSecond.anchorX time /\ HalfSecond.anchorX time <= 1) /\
  (forall iw, HalfSecond.x iw time
              == iw * HalfSecond.anchorX time - iw / HalfSecond.zoom time / 2) /\
  (forall ih, HalfSecond.y ih time == ih * anchorY - ih / HalfSecond.zoom time / 2).
Proof.
  intros Ht.
  pose proof (mod_range time 10 Ht) as [Hlo Hhi].
  change (inject_Z 10) with (10 : Q) in Hlo, Hhi.
  set (m := mod_ time 10) in *.
  assert (Hz : 1 <= zoom time /\ zoom time <= 1 + 0.15).
  { unfold zoom. fold m. split; zoom_cases m. }
  assert (Hz' : 1 <= HalfSecond.zoom time /\ HalfSecond.zoom time <= 1 + 0.15).
  { unfold HalfSecond.zoom. fold m. split; zoom_cases m. }
  split; [exact Hz|]. split; [|split; [|split; [|split; [|split; [exact Hz'|split; [|split]]]]]].
  - unfold anchorX.
    destruct (lt (mod_ time 30) 10); [|destruct (lt (mod_ time 30) 20)];
      split; vm_compute; discriminate.
  - split; vm_compute; discriminate.
  - intros iw. unfold x, anchorX.
    destruct (lt (mod_ time 30) 10); [|destruct (lt (mod_ time 30) 20)];
      unfold Qdiv; ring.
  - intros ih. unfold y, anchorY, Qdiv. ring.
  - unfold HalfSecond.anchorX.
    destruct (lt (mod_ time 30) 10); [|destruct (lt (mod_ time 30) 20)];
      split; vm_compute; discriminate.
  - intros iw. unfold HalfSecond.x, HalfSecond.anchorX.
    destruct (lt (mod_ time 30) 10); [|destruct (lt (mod_ time 30) 20)];
      unfold Qdiv; ring.
  - intros ih. unfold HalfSecond.y, anchorY, Qdiv. ring.
Qed.

Lemma effect_bounds_witness :
  (1 <= zoom 5.15 /\ zoom 5.15 <= 1 + 0.15) /\
  (0 <= anchorX 5.15 /\ anchorX 5.15 <= 1).
Proof.
  assert (H : 0 <= 5.15) by (vm_compute; discriminate).
  split.
  - exact (proj1 (effect_bounds 5.15 H)).
  - exact (proj1 (proj2 (effect_bounds 5.15 H))).
Defined.

End EffectClaims.

(* ------------------------------------------------------------------ *)
(** * Further properties of the code *)

Section SchedulerSpacing.
Import Scheduler.

(** X1.  The points of the scheduler are evenly spaced: neighbours are
    one interval [usable / (count + 1)] apart, the first point is one
    interval after [startBuffer] and the last one is one interval
    before [totalDuration - endBuffer]. *)
Theorem scheduler_even_spacing (totalDuration : Q) (count : Z) :
  (1 <= count)%Z ->
  let interval := (totalDuration - startBuffer - endBuffer) / (inject_Z count + 1) in
  let points := calculateInsertionPoints totalDuration count in
  (forall k, (S k < length points)%nat ->
     nth (S k) points 0 - nth k points 0 == interval) /\
  nth 0 points 0 == startBuffer + interval /\
  nth (length points - 1) points 0 + interval == totalDuration - endBuffer.
Proof.
  intros Hc interval points.
  assert (Hc0 : (0 <= count)%Z) by lia.
  pose proof (interval_times totalDuration count Hc0) as Htimes.
  fold interval in Htimes.
  assert (Hlen : length points = Z.to_nat count) by apply pointsLoop_length.
  assert (Hnth : forall k, (k < Z.to_nat count)%nat ->
            nth k points 0 = startBuffer + interval * inject_Z (1 + Z.of_nat k))
    by (intros k Hk; apply pointsLoop_nth; exact Hk).
  split; [|split].
  - intros k Hk. rewrite !Hnth by lia.
    rewrite Nat2Z.inj_succ, <- Z.add_1_r, Z.add_assoc, (inject_Z_plus _ 1).
    change (inject_Z 1) with 1. ring.
  - rewrite Hnth by lia. change (inject_Z (1 + Z.of_nat 0)) with 1. ring.
  - rewrite Hnth by lia. rewrite Hlen.
    replace (1 + Z.of_nat (Z.to_nat count - 1))%Z with count by lia.
    clearbody interval. unfold startBuffer, endBuffer in *.
    setoid_replace (3 + interval * inject_Z count + interval)
      with (interval * (inject_Z count + 1) + 3) by ring.
    rewrite Htimes. ring.
Qed.

Lemma scheduler_even_spacing_witness :
  nth 0 (calculateInsertionPoints 60 5) 0 == startBuffer + (60 - 3 - 3) / (5 + 1).
Proof.
  assert (H : (1 <= 5)%Z) by lia.
  exact (proj1 (proj2 (scheduler_even_spacing 60 5 H))).
Defined.

End SchedulerSpacing.

Section ComposerShape.
Import Library Scheduler Composer.

Lemma segmentsLoop_throws (avatarVideo : string) (brollClips : list Clip)
    (insertionPoints : list Q) :
  forall i currentTime,
    (i <= length brollClips < i + length insertionPoints)%nat ->
    segmentsLoop avatarVideo brollClips insertionPoints i currentTime
    = undefinedProperty "duration".
Proof.
  induction insertionPoints as [|insertAt rest IH]; intros i cur Hlen; simpl in *.
  - lia.
  - destruct (nth_error brollClips i) as [broll|] eqn:E; [|reflexivity].
    assert (Hi : (i < length brollClips)%nat)
      by (apply nth_error_Some; congruence).
    rewrite IH by lia. reflexivity.
Qed.

Lemma segmentsLoop_extra_clips (avatarVideo : string) (brollClips : list Clip)
    (insertionPoints : list Q) :
  forall i currentTime,
    segmentsLoop avatarVideo (firstn (i + length insertionPoints) brollClips)
      insertionPoints i currentTime
    = segmentsLoop avatarVideo brollClips insertionPoints i currentTime.
Proof.
  induction insertionPoints as [|insertAt rest IH]; intros i cur; [reflexivity|].
  cbn [segmentsLoop length].
  rewrite nth_error_firstn.
  replace (i <? i + S (length rest))%nat with true
    by (symmetry; apply Nat.ltb_lt; lia).
  replace (i + S (length rest))%nat with (S i + length rest)%nat by lia.
  destruct (nth_error brollClips i) as [broll|]; [|reflexivity].
  rewrite IH. reflexivity.
Qed.

(** X2.  Both composers return when there is a clip for every insertion
    point and throw the [TypeError] of reading [duration] of
    [undefined] when there are fewer clips than points; clips beyond
    the points are not looked at. *)
Theorem composers_need_a_clip_per_point (avatarVideo tmpDir : string)
    (brollClips : list Clip) (insertionPoints : list Q) (totalDuration : Q) :
  ((length insertionPoints <= length brollClips)%nat ->
   (exists segments,
       buildSegments avatarVideo brollClips insertionPoints totalDuration = Ok segments /\
       buildSegments avatarVideo (firstn (length insertionPoints) brollClips)
         insertionPoints totalDuration = Ok segments) /\
   (exists xs,
       buildAndExtractVideoSegments avatarVideo brollClips insertionPoints
         totalDuration tmpDir = Ok xs)) /\
  ((length brollClips < length insertionPoints)%nat ->
   buildSegments avatarVideo brollClips insertionPoints totalDuration
   = Throw (JsError "TypeError"
              "Cannot read properties of undefined (reading 'duration')") /\
   buildAndExtractVideoSegments avatarVideo brollClips insertionPoints
     totalDuration tmpDir
   = Throw (JsError "TypeError"
              "Cannot read properties of undefined (reading 'duration')")).
Proof.
  split.
  - intros Hlen. split.
    + destruct (segmentsLoop_returns avatarVideo brollClips insertionPoints 0%nat 0)
        as [r Hr]; [lia|].
      unfold buildSegments. rewrite Hr. eexists. split; [reflexivity|].
      pose proof (segmentsLoop_extra_clips avatarVideo brollClips insertionPoints
                    0%nat 0) as Hextra.
      cbn [Nat.add] in Hextra. rewrite Hextra, Hr. reflexivity.
    + destruct (buildAndExtract_returns avatarVideo tmpDir brollClips insertionPoints
                  totalDuration Hlen) as (xs & Hxs & _).
      exists xs. exact Hxs.
  - intros Hlen.
    pose proof (segmentsLoop_throws avatarVideo brollClips insertionPoints 0%nat 0) as Hs.
    pose proof (extractLoop_durations avatarVideo tmpDir brollClips insertionPoints
                  0%nat 0%nat 0) as Hsame.
    rewrite Hs in Hsame by lia.
    unfold buildSegments, buildAndExtractVideoSegments. rewrite Hs by lia.
    split; [reflexivity|].
    destruct (extractLoop _ _ _ _ _ _ _) as [r|e]; [contradiction|].
    simpl. unfold undefinedProperty in Hsame. now inversion Hsame.
Qed.

End ComposerShape.

Section ComposerInvariants.
Import Library Scheduler Composer Timeline.

Lemma segmentsLoop_shape (avatarVideo : string) (brollClips : list Clip)
    (insertionPoints : list Q) :
  forall i currentTime r,
    segmentsLoop avatarVideo brollClips insertionPoints i currentTime = Ok r ->
    length (filter isBroll (fst r)) = length insertionPoints /\
    (length (fst r) <= 2 * length insertionPoints)%nat /\
    Forall (fun s => type s = Avatar -> 0 < duration s /\ input s = avatarVideo)
           (fst r).
Proof.
  induction insertionPoints as [|insertAt rest IH]; intros i cur r; simpl.
  - intros [= <-]. simpl. repeat split; auto.
  - destruct (nth_error brollClips i) as [broll|]; [|discriminate].
    destruct (segmentsLoop _ _ rest _ _) as [r'|] eqn:Hloop; [|discriminate].
    simpl. intros [= <-]. simpl.
    destruct (IH _ _ _ Hloop) as (Hb & Hn & Ha).
    destruct (gt insertAt cur) eqn:E; simpl.
    + apply gt_true in E. repeat split; try lia.
      constructor; [intros _; simpl; split; [lra|reflexivity]|].
      constructor; [discriminate|exact Ha].
    + repeat split; try lia. constructor; [discriminate|exact Ha].
Qed.

Lemma segmentsLoop_inputs (avatarVideo : string) (brollClips : list Clip)
    (insertionPoints : list Q) :
  forall i currentTime r,
    segmentsLoop avatarVideo brollClips insertionPoints i currentTime = Ok r ->
    map input (filter isBroll (fst r))
    = map localPath (firstn (length insertionPoints) (skipn i brollClips)).
Proof.
  induction insertionPoints as [|insertAt rest IH]; intros i cur r; simpl.
  - intros [= <-]. reflexivity.
  - destruct (nth_error brollClips i) as [broll|] eqn:E; [|discriminate].
    destruct (segmentsLoop _ _ rest _ _) as [r'|] eqn:Hloop; [|discriminate].
    simpl. intros [= <-]. simpl.
    rewrite filter_app. simpl.
    replace (filter isBroll (if gt insertAt cur then _ else _)) with (@nil Segment)
      by (destruct (gt insertAt cur); reflexivity).
    simpl. rewrite (IH _ _ _ Hloop).
    clear - E. revert i E.
    induction brollClips as [|c cs IHc]; intros [|i] E; simpl in *; try discriminate.
    + injection E as ->. reflexivity.
    + now apply IHc.
Qed.

(** X3.  A segment plan has exactly one B-roll segment per insertion
    point, showing the clips in the order in which they were selected,
    and at most [2 * points + 1] segments; its avatar segments all come
    from the avatar video and last longer than zero seconds, and
    without insertion points the plan is the whole avatar video. *)
Theorem segment_plan_shape (avatarVideo : string) (brollClips : list Clip)
    (insertionPoints : list Q) (totalDuration : Q) (segments : list Segment) :
  buildSegments avatarVideo brollClips insertionPoints totalDuration = Ok segments ->
  length (filter isBroll segments) = length insertionPoints /\
  map input (filter isBroll segments)
  = map localPath (firstn (length insertionPoints) brollClips) /\
  (length segments <= 2 * length insertionPoints + 1)%nat /\
  Forall (fun s => type s = Avatar -> 0 < duration s /\ input s = avatarVideo)
         segments /\
  (0 < totalDuration ->
   buildSegments avatarVideo brollClips [] totalDuration
   = Ok [ {| type := Avatar; input := avatarVideo; start := 0;
             duration := totalDuration - 0 |} ]).
Proof.
  unfold buildSegments.
  destruct (segmentsLoop _ _ insertionPoints _ _) as [r|] eqn:Hloop; [|discriminate].
  simpl. intros [= <-].
  destruct (segmentsLoop_shape _ _ _ _ _ _ Hloop) as (Hb & Hn & Ha).
  pose proof (segmentsLoop_inputs _ _ _ _ _ _ Hloop) as Hin. cbn [skipn] in Hin.
  rewrite filter_app, !length_app, Forall_app, map_app.
  unfold lt. destruct (Qlt_le_dec (snd r) totalDuration) as [Hlt|Hge]; simpl.
  - rewrite app_nil_r. repeat split; try lia; auto.
    + constructor; [|constructor]. intros _. simpl. split; [lra|reflexivity].
    + intros H. destruct (Qlt_le_dec 0 totalDuration); [reflexivity|lra].
  - rewrite app_nil_r. repeat split; try lia; auto.
    intros H. destruct (Qlt_le_dec 0 totalDuration); [reflexivity|lra].
Qed.

Lemma segment_plan_shape_witness :
  length
    (filter isBroll
       [ {| type := Avatar; input := "in.mp4"; start := 0; duration := 10 - 0 |};
         {| type := Broll; input := "b0.mp4"; start := 0; duration := Qmin 2 4 |};
         {| type := Avatar; input := "in.mp4"; start := 10 + Qmin 2 4;
            duration := 20 - (10 + Qmin 2 4) |} ])
  = 1%nat.
Proof.
  apply (segment_plan_shape "in.mp4"
           [ {| localPath := "b0.mp4"; Library.duration := 2; key := "b0.mp4" |} ]
           [10] 20).
  reflexivity.
Defined.

Lemma synced_from (segments : list Segment) :
  forall a b, a == b -> synced a segments -> synced b segments.
Proof.
  induction segments as [|s rest IH]; intros a b Hab; [trivial|].
  simpl. intros [Hs Hrest]. split.
  - intros Ht. rewrite <- Hab. auto.
  - apply (IH (a + duration s)); [rewrite Hab; reflexivity | exact Hrest].
Qed.

Lemma synced_app (pre post : list Segment) :
  forall from,
    synced from pre -> synced (from + sumDurations pre) post ->
    synced from (pre ++ post).
Proof.
  induction pre as [|s rest IH]; intros from Hpre Hpost.
  - simpl. apply (synced_from post (from + sumDurations [])); [|exact Hpost].
    unfold sumDurations. simpl. ring.
  - simpl in *. destruct Hpre as [Hs Hrest]. split; [exact Hs|].
    apply IH; [exact Hrest|].
    apply (synced_from post (from + sumDurations (s :: rest))); [|exact Hpost].
    unfold sumDurations. simpl. ring.
Qed.

Lemma segmentsLoop_synced (avatarVideo : string) (brollClips : list Clip)
    (totalDuration : Q) (insertionPoints : list Q) :
  forall i currentTime r,
    fits brollClips insertionPoints i currentTime totalDuration ->
    segmentsLoop avatarVideo brollClips insertionPoints i currentTime = Ok r ->
    synced currentTime (fst r) /\
    currentTime + sumDurations (fst r) == snd r.
Proof.
  induction insertionPoints as [|insertAt rest IH]; intros i cur r Hfit; simpl in *.
  - intros [= <-]. simpl. split; [trivial|]. unfold sumDurations. simpl. ring.
  - destruct Hfit as [Hcur Hfit].
    destruct (nth_error brollClips i) as [broll|]; [|contradiction].
    destruct (segmentsLoop _ _ rest _ _) as [r'|] eqn:Hloop; [|discriminate].
    simpl. intros [= <-]. simpl.
    destruct (IH _ _ _ Hfit Hloop) as [Hsync Hsum].
    unfold sumDurations in *. rewrite map_app, sum_app. simpl.
    destruct (gt insertAt cur) eqn:E; simpl.
    + split; [|rewrite <- Hsum; ring].
      split; [intros _; reflexivity|]. split; [discriminate|].
      apply (synced_from _ (insertAt + usedDuration broll)); [ring|exact Hsync].
    + apply gt_false in E.
      assert (Heq : insertAt == cur) by lra.
      split; [|rewrite <- Hsum, Heq; ring].
      split; [discriminate|].
      apply (synced_from _ (insertAt + usedDuration broll));
        [rewrite Heq; reflexivity | exact Hsync].
Qed.

(** X4.  When no cutaway runs into the next insertion point or past the
    end, every avatar segment of the plan is cut from the avatar video
    at the very position at which it plays: the offset [start] of an
    avatar segment is the sum of the durations of the segments before
    it, so the picture stays in step with the original sound track. *)
Theorem avatar_segments_keep_their_position (avatarVideo : string)
    (brollClips : list Clip) (insertionPoints : list Q) (totalDuration : Q)
    (segments : list Segment) :
  fits brollClips insertionPoints 0 0 totalDuration ->
  buildSegments avatarVideo brollClips insertionPoints totalDuration = Ok segments ->
  synced 0 segments /\
  (forall pre seg post,
      segments = pre ++ seg :: post -> type seg = Avatar ->
      start seg == sumDurations pre).
Proof.
  intros Hfit Hbuild.
  assert (Hsync : synced 0 segments).
  { unfold buildSegments in Hbuild.
    destruct (segmentsLoop _ _ _ _ _) as [r|] eqn:Hloop; [|discriminate].
    simpl in Hbuild. injection Hbuild as <-.
    destruct (segmentsLoop_synced _ _ _ _ _ _ _ Hfit Hloop) as [Hs Hsum].
    apply synced_app; [exact Hs|].
    destruct (lt (snd r) totalDuration); simpl; [|trivial].
    split; [|trivial]. intros _. rewrite <- Hsum. reflexivity. }
  split; [exact Hsync|].
  intros pre seg post -> Htype.
  assert (Hgen : forall from, synced from (pre ++ seg :: post) ->
                              start seg == from + sumDurations pre).
  { clear Hsync Hbuild Hfit.
    induction pre as [|s rest IH]; intros from; simpl.
    - intros [Hs _]. rewrite (Hs Htype). unfold sumDurations. simpl. ring.
    - intros [_ Hrest]. rewrite (IH _ Hrest). unfold sumDurations. simpl. ring. }
  rewrite (Hgen 0 Hsync). ring.
Qed.

Lemma avatar_segments_keep_their_position_witness :
  synced 0
    [ {| type := Avatar; input := "in.mp4"; start := 0; duration := 10 - 0 |};
      {| type := Broll; input := "b0.mp4"; start := 0; duration := Qmin 2 4 |};
      {| type := Avatar; input := "in.mp4"; start := 10 + Qmin 2 4;
         duration := 20 - (10 + Qmin 2 4) |} ].
Proof.
  apply (avatar_segments_keep_their_position "in.mp4"
           [ {| localPath := "b0.mp4"; Library.duration := 2; key := "b0.mp4" |} ]
           [10] 20).
  - simpl. split; [discriminate|]. vm_compute. discriminate.
  - reflexivity.
Defined.

End ComposerInvariants.

Section ComposersAgree.
Import Library Scheduler Composer Stitcher.

Lemma stitchLoop_app (tmpDir : string) (a b : list Segment) :
  forall i,
    stitchLoop tmpDir (a ++ b) i
    = stitchLoop tmpDir a i ++ stitchLoop tmpDir b (i + length a).
Proof.
  induction a as [|s a IH]; intros i; simpl.
  - now rewrite Nat.add_0_r.
  - rewrite IH. do 3 f_equal. lia.
Qed.

Lemma stitchLoop_paths (tmpDir : string) (segments : list Segment) :
  forall i,
    map segPath (stitchLoop tmpDir segments i)
    = map (segmentFile tmpDir) (seq i (length segments)).
Proof.
  induction segments as [|s rest IH]; intros i; simpl; [reflexivity|].
  now rewrite IH.
Qed.

(** The extracting loop runs what the stitcher would run on the plan of
    the planning loop. *)
Lemma extractLoop_stitchLoop (avatarVideo tmpDir : string) (brollClips : list Clip)
    (insertionPoints : list Q) :
  forall i n currentTime,
    match segmentsLoop avatarVideo brollClips insertionPoints i currentTime,
          extractLoop avatarVideo brollClips tmpDir insertionPoints i n currentTime with
    | Ok r, Ok r' => stitchLoop tmpDir (fst r) n = fst r' /\ snd r = snd r'
    | Throw e, Throw e' => e = e'
    | _, _ => False
    end.
Proof.
  induction insertionPoints as [|insertAt rest IH]; intros i n cur; simpl.
  - split; reflexivity.
  - destruct (nth_error brollClips i) as [broll|]; [|reflexivity].
    rewrite gt_difference.
    destruct (gt insertAt cur) eqn:E.
    + specialize (IH (S i) (S (n + 1)) (insertAt + usedDuration broll)).
      simpl length.
      destruct (segmentsLoop _ _ rest _ _) as [r|e];
        destruct (extractLoop _ _ _ rest _ _ _) as [r'|e']; simpl; try easy.
      destruct IH as [IH1 IH2]. split; [|exact IH2].
      rewrite <- IH1. unfold extractionOf. simpl.
      replace (n + 1)%nat with (S n) by lia. reflexivity.
    + specialize (IH (S i) (S (n + 0)) (insertAt + usedDuration broll)).
      simpl length.
      destruct (segmentsLoop _ _ rest _ _) as [r|e];
        destruct (extractLoop _ _ _ rest _ _ _) as [r'|e']; simpl; try easy.
      destruct IH as [IH1 IH2]. split; [|exact IH2].
      rewrite <- IH1. unfold extractionOf. simpl.
      rewrite !Nat.add_0_r. reflexivity.
Qed.

(** X5.  The two ways of cutting agree: the extractions that
    [buildAndExtractVideoSegments] runs are those that [stitchSegments]
    runs on the plan of [buildSegments] (same files [segment_0.mp4],
    [segment_1.mp4], ... in playback order, same sources, offsets and
    durations), both write the same [concat.txt], and when one throws
    the other throws the same error. *)
Theorem composers_agree (avatarVideo tmpDir : string) (brollClips : list Clip)
    (insertionPoints : list Q) (totalDuration : Q) :
  match buildSegments avatarVideo brollClips insertionPoints totalDuration,
        buildAndExtractVideoSegments avatarVideo brollClips insertionPoints
          totalDuration tmpDir with
  | Ok segments, Ok xs =>
      fst (stitchSegments segments tmpDir) = xs /\
      map segPath xs = map (segmentFile tmpDir) (seq 0 (length segments)) /\
      snd (stitchSegments segments tmpDir) = stitchVideoSegments (map segPath xs)
  | Throw e, Throw e' => e = e'
  | _, _ => False
  end.
Proof.
  pose proof (extractLoop_stitchLoop avatarVideo tmpDir brollClips insertionPoints
                0%nat 0%nat 0) as Hsame.
  unfold buildSegments, buildAndExtractVideoSegments.
  destruct (segmentsLoop _ _ _ _ _) as [r|e];
    destruct (extractLoop _ _ _ _ _ _ _) as [r'|e']; simpl; try easy.
  destruct Hsame as [H1 H2].
  assert (Hruns : stitchLoop tmpDir
                    (fst r ++
                     (if lt (snd r) totalDuration
                      then [ {| type := Avatar; input := avatarVideo; start := snd r;
                                duration := totalDuration - snd r |} ]
                      else [])) 0
                  = fst r' ++
                    (if gt (totalDuration - snd r') 0
                     then [ {| segPath := segmentFile tmpDir (length (fst r'));
                               source := avatarVideo; ss := Some (snd r');
                               t := totalDuration - snd r' |} ]
                     else [])).
  { rewrite stitchLoop_app, H1, gt_difference, <- H2. f_equal.
    assert (Hn : length (fst r') = length (fst r)).
    { rewrite <- H1. clear. generalize 0%nat.
      induction (fst r) as [|s l IH]; intros n; simpl; [reflexivity|].
      now rewrite IH. }
    rewrite Hn. unfold gt. destruct (lt (snd r) totalDuration); reflexivity. }
  unfold stitchSegments, stitchVideoSegments. cbn [fst snd].
  rewrite <- Hruns. repeat split. apply stitchLoop_paths.
Qed.

End ComposersAgree.

Section OverlayWindows.
Import Library Scheduler Composer.

Lemma overlayLoop_length (insertionPoints : list Q) (brollClips : list Clip) :
  forall i, length (overlayLoop brollClips insertionPoints i) = length brollClips.
Proof.
  induction brollClips as [|c cs IH]; intros i; simpl; [reflexivity|].
  now rewrite IH.
Qed.

Lemma overlayLoop_nth (insertionPoints : list Q) (brollClips : list Clip) :
  forall i k c,
    nth_error brollClips k = Some c ->
    nth_error (overlayLoop brollClips insertionPoints i) k
    = Some (match nth_error insertionPoints (i + k) with
            | Some insertAt => Some (insertAt, insertAt + usedDuration c)
            | None => None
            end).
Proof.
  induction brollClips as [|b bs IH]; intros i k c Hk.
  - destruct k; discriminate.
  - destruct k as [|k]; simpl in *.
    + injection Hk as ->. now rewrite Nat.add_0_r.
    + rewrite (IH (S i) k c Hk).
      replace (i + S k)%nat with (S i + k)%nat by lia. reflexivity.
Qed.

Lemma scheduler_nth_error (totalDuration : Q) (count : Z) (k : nat) :
  (k < Z.to_nat count)%nat ->
  nth_error (calculateInsertionPoints totalDuration count) k
  = Some (startBuffer
          + (totalDuration - startBuffer - endBuffer) / (inject_Z count + 1)
            * inject_Z (1 + Z.of_nat k)).
Proof.
  intros Hk. unfold calculateInsertionPoints.
  rewrite (nth_error_nth' _ 0) by (rewrite pointsLoop_length; exact Hk).
  now rewrite pointsLoop_nth.
Qed.

(** X6.  The overlay variant shows one window per downloaded clip, also
    when there are fewer clips than insertion points.  When no used
    duration exceeds the spacing of the points, window [k] opens at
    point [k] after the start buffer, stays open for the used duration
    of clip [k], is closed before the end buffer begins, and closes no
    later than the next window opens. *)
Theorem overlay_windows_in_order (totalDuration : Q) (count : Z)
    (brollClips : list Clip) :
  startBuffer + endBuffer < totalDuration ->
  (Z.of_nat (length brollClips) <= count)%Z ->
  Forall (fun c => usedDuration c
                   <= (totalDuration - startBuffer - endBuffer) / (inject_Z count + 1))
         brollClips ->
  let windows :=
    applyBrollOverlays brollClips (calculateInsertionPoints totalDuration count) in
  length windows = length brollClips /\
  (forall k c, nth_error brollClips k = Some c ->
     exists a b,
       nth_error windows k = Some (Some (a, b)) /\
       nth_error (calculateInsertionPoints totalDuration count) k = Some a /\
       b - a == usedDuration c /\
       startBuffer < a /\ b <= totalDuration - endBuffer) /\
  (forall k a b a' b',
     nth_error windows k = Some (Some (a, b)) ->
     nth_error windows (S k) = Some (Some (a', b')) ->
     b <= a').
Proof.
  intros Ht Hlen Hused windows.
  assert (Hc : (0 <= count)%Z) by lia.
  pose proof (interval_positive totalDuration count Ht Hc) as Hpos.
  pose proof (interval_times totalDuration count Hc) as Htimes.
  set (interval := (totalDuration - startBuffer - endBuffer) / (inject_Z count + 1)) in *.
  assert (Hwin : forall k c, nth_error brollClips k = Some c ->
            nth_error windows k
            = Some (Some (startBuffer + interval * inject_Z (1 + Z.of_nat k),
                          startBuffer + interval * inject_Z (1 + Z.of_nat k)
                          + usedDuration c))).
  { intros k c Hk. unfold windows, applyBrollOverlays.
    rewrite (overlayLoop_nth _ _ 0%nat k c Hk). simpl.
    assert (Hlt : (k < length brollClips)%nat) by (apply nth_error_Some; congruence).
    rewrite scheduler_nth_error by lia. reflexivity. }
  split; [apply overlayLoop_length|]. split.
  - intros k c Hk.
    assert (Hlt : (k < length brollClips)%nat) by (apply nth_error_Some; congruence).
    assert (Hu : usedDuration c <= interval).
    { rewrite Forall_forall in Hused. apply Hused. eapply nth_error_In; eassumption. }
    eexists _, _. split; [apply (Hwin k c Hk)|].
    split; [apply scheduler_nth_error; lia|].
    assert (H1 : inject_Z 1 <= inject_Z (1 + Z.of_nat k))
      by (rewrite <- Zle_Qle; lia).
    assert (H2 : inject_Z (1 + Z.of_nat k) <= inject_Z count)
      by (rewrite <- Zle_Qle; lia).
    change (inject_Z 1) with 1 in H1.
    unfold startBuffer, endBuffer in *.
    split; [ring|]. split; nra.
  - intros k a b a' b' Hk Hk'.
    destruct (nth_error brollClips k) as [c|] eqn:Ec.
    2:{ apply nth_error_None in Ec.
        assert (Hn : nth_error windows k = None)
          by (apply nth_error_None; unfold windows, applyBrollOverlays;
              rewrite overlayLoop_length; exact Ec).
        congruence. }
    destruct (nth_error brollClips (S k)) as [c'|] eqn:Ec'.
    2:{ apply nth_error_None in Ec'.
        assert (Hn : nth_error windows (S k) = None)
          by (apply nth_error_None; unfold windows, applyBrollOverlays;
              rewrite overlayLoop_length; exact Ec').
        congruence. }
    assert (Hu : usedDuration c <= interval).
    { rewrite Forall_forall in Hused. apply Hused. eapply nth_error_In; eassumption. }
    assert (Hstep : startBuffer + interval * inject_Z (1 + Z.of_nat (S k))
                    == startBuffer + interval * inject_Z (1 + Z.of_nat k) + interval).
    { rewrite Nat2Z.inj_succ, <- Z.add_1_r, Z.add_assoc, (inject_Z_plus _ 1).
      change (inject_Z 1) with 1. ring. }
    rewrite (Hwin _ _ Ec) in Hk. rewrite (Hwin _ _ Ec') in Hk'.
    remember (startBuffer + interval * inject_Z (1 + Z.of_nat k)) as p.
    remember (startBuffer + interval * inject_Z (1 + Z.of_nat (S k))) as p'.
    injection Hk as Ha Hb. injection Hk' as Ha' Hb'. subst a b a' b'.
    lra.
Qed.

Lemma overlay_windows_in_order_witness :
  length
    (applyBrollOverlays
       [ {| localPath := "/tmp/broll_0.mp4"; Library.duration := 7; key := "a.mp4" |} ]
       (calculateInsertionPoints 30 2))
  = 1%nat.
Proof.
  apply (overlay_windows_in_order 30 2
           [ {| localPath := "/tmp/broll_0.mp4"; Library.duration := 7; key := "a.mp4" |} ]).
  - reflexivity.
  - simpl. lia.
  - repeat constructor. vm_compute. discriminate.
Defined.

End OverlayWindows.

Section SelectorProvenance.
Import Library.

Lemma slice_prefix {A : Type} (arr : list A) (to : Z) :
  slice arr 0 to = firstn (relIndex (length arr) to) arr.
Proof.
  unfold slice.
  assert (H0 : relIndex (length arr) 0 = 0%nat).
  { unfold relIndex. simpl. rewrite Z.min_l by lia. reflexivity. }
  rewrite H0, Nat.sub_0_r. reflexivity.
Qed.

(** What a successful run of the download loop has done. *)
Lemma videoFiles_keys_distinct (contents : list S3Object) :
  NoDup (map Key contents) -> NoDup (map Key (filter isVideoFile contents)).
Proof.
  intros Hnd. induction contents as [|obj rest IH]; [constructor|].
  cbn [map] in Hnd. apply NoDup_cons_iff in Hnd. destruct Hnd as [Hfresh Hrest].
  cbn [filter]. destruct (isVideoFile obj); [|exact (IH Hrest)].
  cbn [map]. apply NoDup_cons; [|exact (IH Hrest)].
  intros Hin. apply Hfresh. apply in_map_iff in Hin.
  destruct Hin as (other & Hkey & Hin). apply filter_In in Hin.
  rewrite <- Hkey. apply in_map. exact (proj1 Hin).
Qed.

Lemma selection_keys_distinct (n : nat) (files : list S3Object) :
  NoDup (map Key files) -> NoDup (map Key (firstn n files)).
Proof.
  intros Hnd. rewrite <- (firstn_skipn n files), map_app in Hnd.
  exact (NoDup_app_remove_r _ _ Hnd).
Qed.

(** X7.  Whatever the selector returns comes from the library: every
    clip carries the key of a listed object whose key ends in [.mp4] or
    [.mov], its duration is what the download of that key reported, clip
    [k] is stored as [broll_<k>.mp4], and when the listed keys are
    distinct no video is selected twice. *)
Theorem selected_clips_come_from_the_library
    (shuffle : list S3Object -> list S3Object)
    (fetchDuration : string -> string -> result Q)
    (count : Z) (tmpDir : string) (Contents : option (list S3Object))
    (clips : list Clip) :
  (forall l, Permutation (shuffle l) l) ->
  getRandomBrollClips shuffle fetchDuration count tmpDir Contents = Ok clips ->
  exists contents,
    Contents = Some contents /\ contents <> [] /\
    (length clips <= length (filter isVideoFile contents))%nat /\
    Forall (fun c =>
              (exists obj, In obj contents /\ Key obj = key c) /\
              (exists p, key c = (p ++ ".mp4")%string \/ key c = (p ++ ".mov")%string) /\
              fetchDuration (key c) (localPath c) = Ok (duration c)) clips /\
    map localPath clips
    = map (fun k => path_join tmpDir ("broll_" ++ toString (Z.of_nat k) ++ ".mp4")%string)
          (seq 0 (length clips)) /\
    (NoDup (map Key contents) -> NoDup (map key clips)).
Proof.
  intros Hperm Hget.
  destruct Contents as [[|c0 cs]|]; try discriminate.
  exists (c0 :: cs). split; [reflexivity|]. split; [discriminate|].
  unfold getRandomBrollClips in Hget.
  set (contents := c0 :: cs) in *.
  set (videoFiles := filter isVideoFile contents) in *.
  rewrite slice_prefix in Hget.
  set (m := relIndex _ _) in Hget.
  destruct (downloadLoop_ok _ _ _ _ _ Hget) as (Hkeys & Hpaths & Hfetch).
  assert (Hn : length clips = length (firstn m (shuffle videoFiles)))
    by (rewrite <- (length_map key), Hkeys, length_map; reflexivity).
  split; [|split; [|split]].
  - rewrite Hn, length_firstn, (Permutation_length (Hperm videoFiles)). lia.
  - rewrite Forall_forall in Hfetch. apply Forall_forall. intros c Hc.
    assert (Hin : In (key c) (map Key (firstn m (shuffle videoFiles))))
      by (rewrite <- Hkeys; apply in_map; exact Hc).
    apply in_map_iff in Hin. destruct Hin as (obj & Hobj & Hin).
    apply in_firstn in Hin.
    apply (Permutation_in _ (Hperm videoFiles)) in Hin.
    apply filter_In in Hin. destruct Hin as [Hin Hvid].
    split; [exists obj; tauto|]. split; [|apply Hfetch, Hc].
    rewrite <- Hobj. apply isVideoFile_spec. exact Hvid.
  - rewrite Hpaths, Hn. reflexivity.
  - intros Hnd. rewrite Hkeys. apply selection_keys_distinct.
    apply (Permutation_NoDup (l := map Key videoFiles)).
    + apply Permutation_map. symmetry. apply Hperm.
    + apply videoFiles_keys_distinct. exact Hnd.
Qed.

Lemma selected_clips_come_from_the_library_witness :
  exists contents,
    Some [ {| Key := "city.mp4" |}; {| Key := "notes.txt" |}; {| Key := "sea.mov" |} ]
    = Some contents /\ contents <> [].
Proof.
  destruct (selected_clips_come_from_the_library (@rev S3Object) (fun _ _ => Ok 5) 1 "/tmp"
              (Some [ {| Key := "city.mp4" |}; {| Key := "notes.txt" |};
                      {| Key := "sea.mov" |} ])
              [ {| localPath := "/tmp/broll_0.mp4"; duration := 5; key := "sea.mov" |} ])
    as (contents & Hc & Hne & _).
  - intros l. symmetry. apply Permutation_rev.
  - reflexivity.
  - exists contents. split; assumption.
Defined.

(** X8.  A request for at least as many clips as the library has videos
    gets every video of the library, each one once, when all of them
    download. *)
Theorem selector_returns_whole_library
    (shuffle : list S3Object -> list S3Object)
    (fetchDuration : string -> string -> result Q)
    (count : Z) (tmpDir : string) (contents : list S3Object) :
  (forall l, Permutation (shuffle l) l) ->
  (forall k path, exists d, fetchDuration k path = Ok d) ->
  contents <> [] ->
  (Z.of_nat (length (filter isVideoFile contents)) <= count)%Z ->
  exists clips,
    getRandomBrollClips shuffle fetchDuration count tmpDir (Some contents) = Ok clips /\
    Permutation (map key clips) (map Key (filter isVideoFile contents)).
Proof.
  intros Hperm Hfetch Hne Hcount.
  destruct contents as [|c0 cs]; [contradiction|].
  unfold getRandomBrollClips.
  set (videoFiles := filter isVideoFile (c0 :: cs)) in *.
  pose proof (Permutation_length (Hperm videoFiles)) as Hlen.
  rewrite slice_from_start by lia.
  rewrite Z.min_r by lia. rewrite Nat2Z.id, <- Hlen, firstn_all.
  destruct (downloadLoop_returns fetchDuration tmpDir (shuffle videoFiles) Hfetch 0%nat)
    as (clips & Hloop & Hkeys & _).
  exists clips. split; [exact Hloop|].
  rewrite Hkeys. apply Permutation_map, Hperm.
Qed.

Lemma selector_returns_whole_library_witness :
  exists clips,
    getRandomBrollClips (@rev S3Object) (fun _ _ => Ok 5) 9 "/tmp"
      (Some [ {| Key := "city.mp4" |}; {| Key := "notes.txt" |}; {| Key := "sea.mov" |} ])
    = Ok clips /\
    Permutation (map key clips) ["city.mp4"; "sea.mov"]%string.
Proof.
  apply (selector_returns_whole_library (@rev S3Object) (fun _ _ => Ok 5) 9 "/tmp"
           [ {| Key := "city.mp4" |}; {| Key := "notes.txt" |}; {| Key := "sea.mov" |} ]).
  - intros l. symmetry. apply Permutation_rev.
  - intros k path. exists 5. reflexivity.
  - discriminate.
  - simpl. lia.
Defined.

(** X9.  A library that lists objects but no video is no error for the
    selector: it returns no clips, without a download, whatever the
    count; only the empty listing throws. *)
Theorem selector_library_without_videos
    (shuffle : list S3Object -> list S3Object)
    (fetchDuration : string -> string -> result Q)
    (count : Z) (tmpDir : string) (contents : list S3Object) :
  (forall l, Permutation (shuffle l) l) ->
  contents <> [] ->
  Forall (fun obj => forall p, Key obj <> (p ++ ".mp4")%string /\
                               Key obj <> (p ++ ".mov")%string) contents ->
  getRandomBrollClips shuffle fetchDuration count tmpDir (Some contents) = Ok [].
Proof.
  intros Hperm Hne Hnone.
  destruct contents as [|c0 cs]; [contradiction|].
  unfold getRandomBrollClips.
  assert (Hv : filter isVideoFile (c0 :: cs) = []).
  { clear - Hnone. induction Hnone as [|obj l Hobj _ IH]; [reflexivity|].
    simpl. destruct (isVideoFile obj) eqn:E; [|exact IH].
    apply isVideoFile_spec in E.
    destruct E as [p [E|E]]; destruct (Hobj p); contradiction. }
  rewrite Hv.
  assert (Hs : shuffle [] = []) by (apply Permutation_nil; symmetry; apply Hperm).
  rewrite Hs, slice_prefix. destruct (relIndex _ _); reflexivity.
Qed.

Lemma selector_library_without_videos_witness :
  getRandomBrollClips (@rev S3Object) (fun _ _ => Throw (JsError "Error" "offline")) 3
    "/tmp" (Some [ {| Key := "notes.txt" |}; {| Key := "clip.mp4.bak" |} ])
  = Ok [].
Proof.
  apply selector_library_without_videos.
  - intros l. symmetry. apply Permutation_rev.
  - discriminate.
  - apply Forall_forall. intros obj Hin p.
    assert (Hv : isVideoFile obj = false)
      by (destruct Hin as [<-|[<-|[]]]; reflexivity).
    split; intros Hp;
      (assert (Ht : isVideoFile obj = true)
         by (apply isVideoFile_spec; exists p; auto));
      congruence.
Defined.

End SelectorProvenance.

Section CaptionVariants.
Import Captions Layout Timeline.

Lemma unlines_app (a b : list string) :
  unlines (a ++ b) = (unlines a ++ unlines b)%string.
Proof.
  induction a as [|l a IH]; simpl; [reflexivity|].
  now rewrite IH, !string_app_assoc.
Qed.

Lemma string_app_nil_r (s : string) : (s ++ "")%string = s.
Proof.
  induction s as [|c s IH]; simpl; [reflexivity|]. now rewrite IH.
Qed.

Lemma trailing_blank_line (cues : list Cue) :
  cues <> [] ->
  unlines (concat (map (fun c => cueLines c ++ [EmptyString]) cues))
  = (unlines (blocksWithBlankLines cues) ++ nl)%string.
Proof.
  induction cues as [|c rest IH]; [contradiction|]. intros _.
  destruct rest as [|c' rest].
  - cbn [map concat blocksWithBlankLines]. rewrite app_nil_r, unlines_app.
    reflexivity.
  - change (concat (map (fun c => cueLines c ++ [EmptyString]) (c :: c' :: rest)))
      with ((cueLines c ++ [EmptyString])
            ++ concat (map (fun c => cueLines c ++ [EmptyString]) (c' :: rest))).
    change (blocksWithBlankLines (c :: c' :: rest))
      with (cueLines c ++ EmptyString :: blocksWithBlankLines (c' :: rest)).
    rewrite !unlines_app, IH by discriminate.
    change (EmptyString :: blocksWithBlankLines (c' :: rest))
      with ([EmptyString] ++ blocksWithBlankLines (c' :: rest)).
    rewrite unlines_app, !string_app_assoc. reflexivity.
Qed.

(** X10.  The caption writers of the handlers and of the older servers
    differ in two places only: for a transcription without [words] the
    handlers throw a [TypeError] where the servers write an empty file,
    and for at least one word the servers write the handlers' content
    followed by one more line feed.  For no words both write the empty
    file, and for every word list both return. *)
Theorem caption_writers_compared (ws : list Word) :
  createSRTFile {| words := None |}
  = Throw (JsError "TypeError"
             "Cannot read properties of undefined (reading 'length')") /\
  Server.createSRTFile {| words := None |} = Ok EmptyString /\
  exists content,
    createSRTFile {| words := Some ws |} = Ok content /\
    Server.createSRTFile {| words := Some ws |}
    = Ok (match ws with [] => content | _ => content ++ nl end)%string /\
    (ws = [] <-> content = EmptyString).
Proof.
  split; [reflexivity|]. split; [reflexivity|].
  exists (unlines (blocksWithBlankLines (cuesOf ws 1))).
  assert (Hmain : createSRTFile {| words := Some ws |}
                  = Ok (unlines (blocksWithBlankLines (cuesOf ws 1)))).
  { unfold createSRTFile. cbn [words]. rewrite captionCues_cuesOf. cbn [bind].
    now rewrite join_entries_unlines. }
  split; [exact Hmain|]. split.
  - unfold Server.createSRTFile. cbn [words].
    rewrite server_contentLoop_layout by lia. cbn [skipn].
    destruct ws as [|a rest]; [reflexivity|].
    rewrite trailing_blank_line; [reflexivity|].
    rewrite cuesOf_nil. discriminate.
  - split; [intros ->; reflexivity|].
    destruct (cuesOf ws 1) as [|c [|c' rest]] eqn:E.
    + intros _. apply (cuesOf_nil ws 1). exact E.
    + cbn [blocksWithBlankLines cueLines unlines].
      intros H. apply (f_equal String.length) in H.
      rewrite !string_app_length in H. simpl in H. lia.
    + cbn [blocksWithBlankLines cueLines unlines app].
      intros H. apply (f_equal String.length) in H.
      rewrite !string_app_length in H. simpl in H. lia.
Qed.

Lemma cuesOf_head (a : Word) (rest : list Word) (index : Z) :
  exists c cs, cuesOf (a :: rest) index = c :: cs /\ startSeconds c = start a.
Proof.
  destruct rest as [|b [|c rest]]; simpl; eauto.
Qed.

Lemma cuesOf_ordered (ws : list Word) :
  forall index,
    Forall (fun w => start w <= end_ w) ws ->
    chained (fun a b => end_ a <= start b) ws ->
    Forall (fun c => startSeconds c <= endSeconds c) (cuesOf ws index) /\
    chained (fun a b => endSeconds a <= startSeconds b) (cuesOf ws index).
Proof.
  induction ws as [| a | a b | a b c rest IH] using list_ind3; intros index Hw Hc.
  - split; simpl; auto.
  - inversion Hw; subst. split; simpl; auto.
  - inversion Hw as [|? ? Ha Hw']; subst. inversion Hw' as [|? ? Hb _]; subst.
    simpl in Hc. destruct Hc as [Hab _].
    split; [|simpl; auto]. repeat constructor. simpl. lra.
  - inversion Hw as [|? ? Ha Hw1]; subst. inversion Hw1 as [|? ? Hb Hw2]; subst.
    inversion Hw2 as [|? ? Hcc Hw3]; subst.
    cbn [chained] in Hc. destruct Hc as (Hab & Hbc & Hrest).
    assert (Hchain : chained (fun a b => end_ a <= start b) rest)
      by (destruct rest; [exact I | tauto]).
    destruct (IH (index + 1)%Z Hw3 Hchain) as [IH1 IH2].
    cbn [cuesOf]. split.
    + constructor; [simpl; lra | exact IH1].
    + destruct rest as [|d rest]; [simpl; auto|].
      destruct (cuesOf_head d rest (index + 1)) as (q & qs & Hq & Hstart).
      rewrite Hq in IH2 |- *. cbn [chained]. split; [|exact IH2].
      simpl. rewrite Hstart. tauto.
Qed.

(** X11.  When the words come in order (no word ends before it starts
    and none starts before the one before it has ended), so do the
    cues: no cue ends before it starts and none starts before the one
    before it has ended. *)
Theorem cues_keep_the_order_of_the_words (ws : list Word) :
  Forall (fun w => start w <= end_ w) ws ->
  chained (fun a b => end_ a <= start b) ws ->
  exists cues,
    captionCues ws = Ok cues /\
    Forall (fun c => startSeconds c <= endSeconds c) cues /\
    chained (fun a b => endSeconds a <= startSeconds b) cues.
Proof.
  intros Hw Hc. exists (cuesOf ws 1). split; [apply captionCues_cuesOf|].
  apply cuesOf_ordered; assumption.
Qed.

Lemma cues_keep_the_order_of_the_words_witness :
  exists cues,
    captionCues
      [ {| word := "so"; start := 0; end_ := 0.4 |};
        {| word := "here"; start := 0.4; end_ := 0.9 |};
        {| word := "we"; start := 1; end_ := 1.2 |};
        {| word := "go"; start := 1.3; end_ := 2 |} ] = Ok cues /\
    Forall (fun c => startSeconds c <= endSeconds c) cues /\
    chained (fun a b => endSeconds a <= startSeconds b) cues.
Proof.
  apply cues_keep_the_order_of_the_words.
  - repeat constructor; vm_compute; discriminate.
  - simpl. repeat split; vm_compute; discriminate.
Defined.

End CaptionVariants.

Section TimecodeFacts.
Import Captions Layout Timecode.

(** Below [2^53] seconds the time code is that of the whole seconds
    and the millisecond field. *)
Lemma formatTimestamp_ofMillis (seconds : Q) :
  Double.isDouble seconds -> 0 <= seconds -> seconds < Double.pow2 53 ->
  let ms := Math_floor (Double.mul (rem seconds 1) 1000) in
  (0 <= ms < 1000)%Z /\
  formatTimestamp seconds = ofMillis (1000 * Qfloor seconds + ms).
Proof.
  intros Hd Hs Hbig ms.
  destruct (formatTimestamp_fields seconds Hd Hs) as (_ & Hrange & Hh & Hfmt).
  fold ms in Hrange, Hfmt.
  assert (Hh' : seconds < 3600 * Double.pow2 46).
  { assert (E46 : Double.pow2 46 == 70368744177664) by reflexivity.
    assert (E53 : Double.pow2 53 == 9007199254740992) by reflexivity. lra. }
  specialize (Hh Hh').
  destruct Hrange as (Hh0 & _ & _ & Hms). split; [exact Hms|].
  set (T := Qfloor (seconds * 1000)) in *.
  assert (HF : Qfloor seconds = (T / 1000)%Z).
  { unfold T. rewrite <- (Qfloor_div_pos (seconds * 1000) 1000).
    apply Qfloor_comp. field. }
  assert (HT : (0 <= T)%Z) by (apply Qfloor_nonneg; lra).
  assert (Hlt : (T / 3600000 < 10 ^ 21)%Z).
  { assert (X : inject_Z T < inject_Z (2 ^ 53 * 1000)).
    { apply Qle_lt_trans with (seconds * 1000); [apply Qfloor_le|].
      assert (E53 : Double.pow2 53 == 9007199254740992) by reflexivity.
      change (inject_Z (2 ^ 53 * 1000)) with 9007199254740992000. lra. }
    rewrite <- Zlt_Qlt in X. Z.div_mod_to_equations. lia. }
  rewrite Hfmt, Hh, HF. unfold ofMillis.
  rewrite numberToString_digits by (Z.div_mod_to_equations; lia).
  set (M := (1000 * (T / 1000) + ms)%Z).
  assert (E1 : (M / 3600000 = T / 3600000)%Z) by (unfold M; Z.div_mod_to_equations; lia).
  assert (E2 : ((M / 60000) mod 60 = (T / 60000) mod 60)%Z)
    by (unfold M; Z.div_mod_to_equations; lia).
  assert (E3 : ((M / 1000) mod 60 = (T / 1000) mod 60)%Z)
    by (unfold M; Z.div_mod_to_equations; lia).
  assert (E4 : (M mod 1000 = ms)%Z) by (unfold M; Z.div_mod_to_equations; lia).
  rewrite E1, E2, E3, E4. reflexivity.
Qed.

(** A decimal numeral reads back as the number it was written from. *)
Lemma decode_toString (n : Z) : decode (toString n) = Some n.
Proof.
  unfold decode, toString.
  destruct (Z.to_int n) as [d|d] eqn:E.
  - destruct d as [|d|d|d|d|d|d|d|d|d|d];
      try (rewrite NilZero.isi by discriminate; cbn [option_map];
           rewrite <- E, DecimalZ.of_to; reflexivity).
    rewrite NilZero.isi_posnil. simpl.
    rewrite <- (DecimalZ.of_to n), E. reflexivity.
  - destruct d as [|d|d|d|d|d|d|d|d|d|d];
      try (rewrite NilZero.isi by discriminate; cbn [option_map];
           rewrite <- E, DecimalZ.of_to; reflexivity).
    rewrite NilZero.isi_negnil. simpl.
    rewrite <- (DecimalZ.of_to n), E. reflexivity.
Qed.

(** Padding with zeros does not change the number. *)
Lemma decode_padStart (n : Z) : decode (padStart (toString n) 2 "0") = Some n.
Proof.
  pose proof (decode_toString n) as H.
  destruct (toString n) as [|c [|c' r]].
  - discriminate H.
  - change (padStart (String c "") 2 "0") with (String "0" (String c "")).
    revert H. unfold decode.
    destruct c as [[|] [|] [|] [|] [|] [|] [|] [|]]; vm_compute; congruence.
  - exact H.
Qed.

Lemma string_app_inj (a a' b b' : string) :
  String.length a = String.length a' ->
  (a ++ b = a' ++ b')%string -> a = a' /\ b = b'.
Proof.
  revert a'. induction a as [|x a IH]; intros [|x' a'] Hlen H; simpl in *;
    try discriminate.
  - auto.
  - injection H as -> H. destruct (IH a') as [-> ->]; auto.
Qed.

Lemma digit_inj (d d' : Z) :
  (0 <= d < 10)%Z -> (0 <= d' < 10)%Z -> digit d = digit d' -> d = d'.
Proof.
  intros Hd Hd' H. unfold digit in H.
  apply (f_equal nat_of_ascii) in H.
  rewrite !nat_ascii_embedding in H by lia. lia.
Qed.

Lemma twoDigits_inj (n n' : Z) :
  (0 <= n < 100)%Z -> (0 <= n' < 100)%Z -> twoDigits n = twoDigits n' -> n = n'.
Proof.
  intros Hn Hn' H. unfold twoDigits in H. injection H as H1 H2.
  apply digit_inj in H1; [|Z.div_mod_to_equations; lia..].
  apply digit_inj in H2; [|Z.div_mod_to_equations; lia..].
  Z.div_mod_to_equations; lia.
Qed.

Lemma threeDigits_inj (n n' : Z) :
  (0 <= n < 1000)%Z -> (0 <= n' < 1000)%Z -> threeDigits n = threeDigits n' -> n = n'.
Proof.
  intros Hn Hn' H. unfold threeDigits, twoDigits in H. injection H as H1 H2 H3.
  apply digit_inj in H1; [|Z.div_mod_to_equations; lia..].
  apply digit_inj in H2; [|Z.div_mod_to_equations; lia..].
  apply digit_inj in H3; [|Z.div_mod_to_equations; lia..].
  Z.div_mod_to_equations; lia.
Qed.

Lemma ofMillis_inj (T T' : Z) :
  (0 <= T)%Z -> (0 <= T')%Z -> ofMillis T = ofMillis T' -> T = T'.
Proof.
  intros HT HT' H. unfold ofMillis in H.
  assert (Hlen : String.length (padStart (toString (T / 3600000)) 2 "0")
                 = String.length (padStart (toString (T' / 3600000)) 2 "0")).
  { apply (f_equal String.length) in H.
    rewrite !string_app_length in H. simpl in H. lia. }
  apply string_app_inj in H; [|exact Hlen]. destruct H as [Hh H].
  unfold threeDigits, twoDigits in H.
  injection H as Hm1 Hm2 Hs1 Hs2 Hms1 Hms2 Hms3.
  assert (Eh : (T / 3600000 = T' / 3600000)%Z).
  { apply (f_equal decode) in Hh. rewrite !decode_padStart in Hh. congruence. }
  assert (Em : ((T / 60000) mod 60 = (T' / 60000) mod 60)%Z).
  { apply twoDigits_inj; [Z.div_mod_to_equations; lia..|].
    unfold twoDigits. congruence. }
  assert (Es : ((T / 1000) mod 60 = (T' / 1000) mod 60)%Z).
  { apply twoDigits_inj; [Z.div_mod_to_equations; lia..|].
    unfold twoDigits. congruence. }
  assert (Ems : (T mod 1000 = T' mod 1000)%Z).
  { apply threeDigits_inj; [Z.div_mod_to_equations; lia..|].
    unfold threeDigits, twoDigits. congruence. }
  clear - HT HT' Eh Em Es Ems. Z.div_mod_to_equations. lia.
Qed.

(** X12.  Two non-negative doubles below [2^53] get the same time code
    exactly when they have the same whole seconds and the same
    millisecond field, the whole part of the double product
    [(seconds % 1) * 1000]; times beyond 99 hours included. *)
Theorem formatTimestamp_tells_milliseconds_apart (seconds seconds' : Q) :
  Double.isDouble seconds -> Double.isDouble seconds' ->
  0 <= seconds < Double.pow2 53 -> 0 <= seconds' < Double.pow2 53 ->
  (formatTimestamp seconds = formatTimestamp seconds' <->
   Qfloor seconds = Qfloor seconds' /\
   Math_floor (Double.mul (rem seconds 1) 1000)
   = Math_floor (Double.mul (rem seconds' 1) 1000)).
Proof.
  intros Hd Hd' [Hs Hb] [Hs' Hb'].
  destruct (formatTimestamp_ofMillis seconds Hd Hs Hb) as [Hms E].
  destruct (formatTimestamp_ofMillis seconds' Hd' Hs' Hb') as [Hms' E'].
  rewrite E, E'.
  pose proof (Qfloor_nonneg seconds Hs) as N. pose proof (Qfloor_nonneg seconds' Hs') as N'.
  split.
  - intros H. apply ofMillis_inj in H; lia.
  - intros [-> ->]. reflexivity.
Qed.

Lemma formatTimestamp_tells_milliseconds_apart_witness :
  formatTimestamp (Double.round 1.2345) = formatTimestamp (Double.round 1.2349) <->
  Qfloor (Double.round 1.2345) = Qfloor (Double.round 1.2349) /\
  Math_floor (Double.mul (rem (Double.round 1.2345) 1) 1000)
  = Math_floor (Double.mul (rem (Double.round 1.2349) 1) 1000).
Proof.
  apply formatTimestamp_tells_milliseconds_apart;
    try (vm_compute; reflexivity); split; vm_compute; (discriminate || reflexivity).
Defined.

End TimecodeFacts.

Section EffectCycles.
Import Effect EffectVariants.

Lemma Qfloor_plus_int (x : Q) (k : Z) : Qfloor (x + inject_Z k) = (Qfloor x + k)%Z.
Proof.
  assert (E : x + inject_Z k == x - inject_Z (- k))
    by (rewrite inject_Z_opp; ring).
  rewrite (Qfloor_comp _ _ E), Qfloor_minus_int. lia.
Qed.

(** A non-negative time is its cycle number times the cycle length plus
    its phase. *)
Lemma mod_decompose (time : Q) (n : positive) :
  0 <= time ->
  time == inject_Z (Zpos n) * inject_Z (Qfloor time / Zpos n)
          + mod_ time (inject_Z (Zpos n)).
Proof.
  intros Ht. unfold mod_. rewrite rem_nonneg by exact Ht. ring.
Qed.

Lemma mod_shift (time : Q) (n : positive) :
  0 <= time ->
  mod_ (time + inject_Z (Zpos n)) (inject_Z (Zpos n))
  == mod_ time (inject_Z (Zpos n)).
Proof.
  intros Ht. unfold mod_.
  assert (Ht' : 0 <= time + inject_Z (Zpos n)).
  { assert (0 < inject_Z (Zpos n)) by reflexivity. lra. }
  rewrite !rem_nonneg by assumption.
  rewrite Qfloor_plus_int.
  replace ((Qfloor time + Zpos n) / Zpos n)%Z with (Qfloor time / Zpos n + 1)%Z.
  - rewrite inject_Z_plus. change (inject_Z 1) with 1. ring.
  - rewrite <- (Z.mul_1_l (Zpos n)) at 2. rewrite Z.div_add by lia. reflexivity.
Qed.

Lemma zoom_of_phase (time time' : Q) :
  mod_ time 10 == mod_ time' 10 -> zoom time == zoom time'.
Proof.
  intros H. unfold zoom.
  set (m := mod_ time 10) in *. set (m' := mod_ time' 10) in *.
  ramp_cases.
Qed.

Lemma anchorX_of_phase (time time' : Q) :
  mod_ time 30 == mod_ time' 30 -> anchorX time = anchorX time'.
Proof.
  intros H. unfold anchorX.
  set (m := mod_ time 30) in *. set (m' := mod_ time' 30) in *.
  unfold lt.
  destruct (Qlt_le_dec m 10), (Qlt_le_dec m' 10),
    (Qlt_le_dec m 20), (Qlt_le_dec m' 20); try reflexivity; lra.
Qed.

(** X13.  The effect repeats: from any time on the zoom is the same ten
    seconds later, and the zoom and the whole window position [x], [y]
    are the same thirty seconds later. *)
Theorem effect_is_periodic (time : Q) :
  0 <= time ->
  zoom (time + 10) == zoom time /\
  zoom (time + 30) == zoom time /\
  anchorX (time + 30) = anchorX time /\
  (forall iw, x iw (time + 30) == x iw time) /\
  (forall ih, y ih (time + 30) == y ih time).
Proof.
  intros Ht.
  assert (H10 : forall t, 0 <= t -> zoom (t + 10) == zoom t).
  { intros t Ht0. apply zoom_of_phase. exact (mod_shift t 10 Ht0). }
  assert (H30 : zoom (time + 30) == zoom time).
  { assert (E : time + 30 == time + 10 + 10 + 10) by ring.
    rewrite (zoom_of_phase (time + 30) (time + 10 + 10 + 10)).
    - rewrite !H10 by lra. reflexivity.
    - unfold mod_, rem.
      assert (Eq : (time + 30) / 10 == (time + 10 + 10 + 10) / 10)
        by (rewrite E; reflexivity).
      unfold trunc.
      destruct (Qlt_le_dec ((time + 30) / 10) 0),
        (Qlt_le_dec ((time + 10 + 10 + 10) / 10) 0); try lra;
        first [ rewrite (Qfloor_comp _ _ Eq) | idtac ]; try lra.
      unfold Qceiling.
      assert (Eq' : - ((time + 30) / 10) == - ((time + 10 + 10 + 10) / 10))
        by (rewrite Eq; reflexivity).
      rewrite (Qfloor_comp _ _ Eq'). lra. }
  assert (HA : anchorX (time + 30) = anchorX time)
    by (apply anchorX_of_phase; exact (mod_shift time 30 Ht)).
  split; [apply H10; exact Ht|]. split; [exact H30|]. split; [exact HA|]. split.
  - intros iw.
    assert (Hx : forall t, x iw t == iw * anchorX t - iw / zoom t / 2).
    { intros t. unfold x, anchorX.
      destruct (lt (mod_ t 30) 10); [|destruct (lt (mod_ t 30) 20)];
        unfold Qdiv; ring. }
    rewrite !Hx, HA, H30. reflexivity.
  - intros ih. unfold y. rewrite H30. reflexivity.
Qed.

Lemma effect_is_periodic_witness : zoom (0.15 + 10) == zoom 0.15.
Proof.
  assert (H : 0 <= 0.15) by (vm_compute; discriminate).
  exact (proj1 (effect_is_periodic 0.15 H)).
Defined.

End EffectCycles.

Section ZoomSlope.
Import Effect EffectVariants.

(** A zoom that has slope at most [L] within the cycle and is within
    [L] times the distance to either end of the cycle from 1 has slope
    at most [L] everywhere. *)
Lemma slope_from_phase (z : Q -> Q) (L : Q) :
  0 <= L ->
  (forall t t', mod_ t 10 <= mod_ t' 10 ->
     z t' - z t <= L * (mod_ t' 10 - mod_ t 10) /\
     z t - z t' <= L * (mod_ t' 10 - mod_ t 10)) ->
  (forall t, 0 <= t ->
     1 <= z t /\ z t - 1 <= L * mod_ t 10 /\ z t - 1 <= L * (10 - mod_ t 10)) ->
  forall t t', 0 <= t -> t <= t' ->
    z t' - z t <= L * (t' - t) /\ z t - z t' <= L * (t' - t).
Proof.
  intros HL Hphase Hends t t' Ht Htt'.
  assert (Ht' : 0 <= t') by lra.
  pose proof (mod_decompose t 10 Ht) as Dt.
  pose proof (mod_decompose t' 10 Ht') as Dt'.
  pose proof (mod_range t 10 Ht) as [Hm0 Hm1].
  pose proof (mod_range t' 10 Ht') as [Hm0' Hm1'].
  change (inject_Z 10) with 10 in *.
  assert (Hk : (Qfloor t / 10 <= Qfloor t' / 10)%Z)
    by (apply Z.div_le_mono; [lia | apply Qfloor_resp_le; exact Htt']).
  destruct (Z.eq_dec (Qfloor t / 10) (Qfloor t' / 10)) as [E|E].
  - rewrite E in Dt.
    assert (Hd : mod_ t' 10 - mod_ t 10 == t' - t).
    { set (k' := inject_Z (Qfloor t' / 10)) in *. lra. }
    assert (Hle : mod_ t 10 <= mod_ t' 10) by lra.
    destruct (Hphase t t' Hle) as [H1 H2].
    rewrite Hd in H1, H2. split; assumption.
  - assert (Hk' : inject_Z (Qfloor t / 10) + 1 <= inject_Z (Qfloor t' / 10)).
    { change 1 with (inject_Z 1). rewrite <- inject_Z_plus, <- Zle_Qle. lia. }
    destruct (Hends t Ht) as (Ha & Hb & Hc).
    destruct (Hends t' Ht') as (Ha' & Hb' & Hc').
    set (m := mod_ t 10) in *. set (m' := mod_ t' 10) in *.
    set (k := inject_Z (Qfloor t / 10)) in *.
    set (k' := inject_Z (Qfloor t' / 10)) in *.
    assert (Hgap : 10 - m + m' <= t' - t) by lra.
    split; nra.
Qed.

(** X14.  The zoom never jumps: between two times it changes by no more
    than half the time that has passed (0.3 times for the half-second
    ramps, 0.15 times for the one-second ramps), within a cycle and
    from one cycle to the next. *)
Theorem zoom_never_jumps (time time' : Q) :
  0 <= time -> time <= time' ->
  (zoom time' - zoom time <= 0.5 * (time' - time) /\
   zoom time - zoom time' <= 0.5 * (time' - time)) /\
  (HalfSecond.zoom time' - HalfSecond.zoom time <= 0.3 * (time' - time) /\
   HalfSecond.zoom time - HalfSecond.zoom time' <= 0.3 * (time' - time)) /\
  (OneSecond.zoom time' - OneSecond.zoom time <= 0.15 * (time' - time) /\
   OneSecond.zoom time - OneSecond.zoom time' <= 0.15 * (time' - time)).
Proof.
  intros Ht Htt'. split; [|split].
  - apply (slope_from_phase zoom 0.5); try assumption; [lra | |].
    + intros t t' H. unfold zoom.
      set (m := mod_ t 10) in *. set (m' := mod_ t' 10) in *.
      split; ramp_cases.
    + intros t H0. pose proof (mod_range t 10 H0) as [Hlo Hhi].
      change (inject_Z 10) with 10 in *. unfold zoom.
      set (m := mod_ t 10) in *. repeat split; ramp_cases.
  - apply (slope_from_phase HalfSecond.zoom 0.3); try assumption; [lra | |].
    + intros t t' H. unfold HalfSecond.zoom.
      set (m := mod_ t 10) in *. set (m' := mod_ t' 10) in *.
      split; ramp_cases.
    + intros t H0. pose proof (mod_range t 10 H0) as [Hlo Hhi].
      change (inject_Z 10) with 10 in *. unfold HalfSecond.zoom.
      set (m := mod_ t 10) in *. repeat split; ramp_cases.
  - apply (slope_from_phase OneSecond.zoom 0.15); try assumption; [lra | |].
    + intros t t' H. unfold OneSecond.zoom.
      set (m := mod_ t 10) in *. set (m' := mod_ t' 10) in *.
      split; ramp_cases.
    + intros t H0. pose proof (mod_range t 10 H0) as [Hlo Hhi].
      change (inject_Z 10) with 10 in *. unfold OneSecond.zoom.
      set (m := mod_ t 10) in *. repeat split; ramp_cases.
Qed.

Lemma zoom_never_jumps_witness :
  zoom 10.1 - zoom 9.9 <= 0.5 * (10.1 - 9.9) /\
  zoom 9.9 - zoom 10.1 <= 0.5 * (10.1 - 9.9).
Proof.
  apply (zoom_never_jumps 9.9 10.1); vm_compute; discriminate.
Defined.

End ZoomSlope.

Section WindowPosition.
Import Effect EffectVariants.

Lemma zoom_range (time : Q) :
  0 <= time ->
  (1 <= zoom time /\ zoom time <= 1.15) /\
  (1 <= HalfSecond.zoom time /\ HalfSecond.zoom time <= 1.15) /\
  (1 <= OneSecond.zoom time /\ OneSecond.zoom time <= 1.15).
Proof.
  intros Ht. pose proof (mod_range time 10 Ht) as [Hlo Hhi].
  change (inject_Z 10) with 10 in *.
  unfold zoom, HalfSecond.zoom, OneSecond.zoom.
  set (m := mod_ time 10) in *. repeat split; ramp_cases.
Qed.

(** The window of a frame of size [side] at zoom [z] has size
    [side / z], between [side / 1.15] and [side]. *)
Lemma window_size (side z : Q) :
  0 < side -> 1 <= z -> z <= 1.15 ->
  z * (side / z) == side /\ 0 < side / z /\ side / z <= side /\
  side <= 1.15 * (side / z).
Proof.
  intros Hs Hz1 Hz2.
  assert (E : z * (side / z) == side) by (apply Qmult_div_r; lra).
  set (w := side / z) in *.
  assert (Hw : 0 < w) by nra.
  repeat split; try assumption; nra.
Qed.

(** X15.  Where the expressions put the window of size
    [iw / zoom] by [ih / zoom]: its top edge [y] is above the frame at
    every time (in all three variants); in the centre phase its left
    and right edges are inside the frame; in the right phase its right
    edge is inside the frame exactly when the zoom is at least 10/9,
    and in the left phase its left edge is inside the frame exactly
    when the zoom is at least 10/9. *)
Theorem window_position (iw ih time : Q) :
  0 < iw -> 0 < ih -> 0 <= time ->
  (y ih time < 0 /\ HalfSecond.y ih time < 0 /\ OneSecond.y ih time < 0) /\
  (mod_ time 30 < 10 ->
   0 <= x iw time /\ x iw time + iw / zoom time <= iw) /\
  (10 <= mod_ time 30 -> mod_ time 30 < 20 ->
   0 <= x iw time /\
   (x iw time + iw / zoom time <= iw <-> 10 / 9 <= zoom time)) /\
  (20 <= mod_ time 30 ->
   x iw time + iw / zoom time <= iw /\
   (0 <= x iw time <-> 10 / 9 <= zoom time)).
Proof.
  intros Hiw Hih Ht.
  destruct (zoom_range time Ht) as ((Hz1 & Hz2) & (Hh1 & Hh2) & (Ho1 & Ho2)).
  split; [|split; [|split]].
  - unfold y, HalfSecond.y, OneSecond.y.
    destruct (window_size ih _ Hih Hz1 Hz2) as (_ & Hw & _ & Hw').
    destruct (window_size ih _ Hih Hh1 Hh2) as (_ & Hv & _ & Hv').
    destruct (window_size ih _ Hih Ho1 Ho2) as (_ & Hu & _ & Hu').
    set (w := ih / zoom time) in *.
    set (v := ih / HalfSecond.zoom time) in *.
    set (u := ih / OneSecond.zoom time) in *.
    unfold Qdiv. change (/ 3) with (1 # 3). change (/ 2) with (1 # 2).
    repeat split; lra.
  - intros Hm. unfold x.
    destruct (window_size iw _ Hiw Hz1 Hz2) as (_ & Hw & Hw1 & _).
    destruct (lt (mod_ time 30) 10) eqn:E; [|apply lt_false in E; lra].
    set (w := iw / zoom time) in *.
    unfold Qdiv. change (/ 2) with (1 # 2). split; lra.
  - intros Hm1 Hm2. unfold x.
    destruct (window_size iw _ Hiw Hz1 Hz2) as (Ew & Hw & Hw1 & _).
    destruct (lt (mod_ time 30) 10) eqn:E; [apply lt_true in E; lra|].
    destruct (lt (mod_ time 30) 20) eqn:E'; [|apply lt_false in E'; lra].
    set (z := zoom time) in *. set (w := iw / z) in *.
    unfold Qdiv. change (/ 2) with (1 # 2). change (/ 9) with (1 # 9).
    split; [lra|]. split; intros H; nra.
  - intros Hm. unfold x.
    destruct (window_size iw _ Hiw Hz1 Hz2) as (Ew & Hw & Hw1 & _).
    destruct (lt (mod_ time 30) 10) eqn:E; [apply lt_true in E; lra|].
    destruct (lt (mod_ time 30) 20) eqn:E'; [apply lt_true in E'; lra|].
    set (z := zoom time) in *. set (w := iw / z) in *.
    unfold Qdiv. change (/ 2) with (1 # 2). change (/ 9) with (1 # 9).
    split; [lra|]. split; intros H; nra.
Qed.

Lemma window_position_witness :
  y 1280 16 < 0 /\ HalfSecond.y 1280 16 < 0 /\ OneSecond.y 1280 16 < 0.
Proof.
  apply (window_position 720 1280 16); reflexivity || (vm_compute; discriminate).
Defined.

End WindowPosition.

Section ExpressZoom.
Import Effect EffectVariants.

Lemma lte_true (a b : Q) : lte a b = true <-> a <= b.
Proof.
  unfold lte, lt. destruct (Qlt_le_dec b a); simpl; split; intros; try easy; lra.
Qed.

Lemma lte_false (a b : Q) : lte a b = false <-> b < a.
Proof.
  unfold lte, lt. destruct (Qlt_le_dec b a); simpl; split; intros; try easy; lra.
Qed.

(** For a non-negative time the two spellings of the phase agree. *)
Lemma floor_phase (time : Q) :
  0 <= time -> time - floor (time / 12) * 12 == mod_ time 12.
Proof.
  intros Ht. unfold floor, mod_, rem. rewrite trunc_nonneg.
  - ring.
  - apply Qle_shift_div_l; [reflexivity | lra].
Qed.

(** X16.  The zoom of the Express server is a triangle over a cycle of
    twelve seconds: with [m = time mod 12] it is [1 + m / 12] up to
    [m = 6] and [2 - m / 12] after, so it stays between 1 and 1.5 and
    neither the [min] nor the [max] of the expression ever cuts it. *)
Theorem express_zoom_triangle (time : Q) :
  0 <= time ->
  let m := mod_ time 12 in
  (0 <= m /\ m < 12) /\
  (m <= 6 -> Express.zoom time == 1 + m / 12) /\
  (6 < m -> Express.zoom time == 2 - m / 12) /\
  (1 <= Express.zoom time /\ Express.zoom time <= 1.5) /\
  (Express.zoom time == 1.5 <-> m == 6) /\
  (Express.zoom time == 1 <-> m == 0).
Proof.
  intros Ht m.
  pose proof (mod_range time 12 Ht) as [Hlo Hhi].
  change (inject_Z 12) with 12 in *. fold m in Hlo, Hhi.
  pose proof (floor_phase time Ht) as Hp. fold m in Hp.
  assert (Hup : m <= 6 -> Express.zoom time == 1 + m / 12).
  { intros Hm. unfold Express.zoom. fold m.
    rewrite (proj2 (lte_true m 6) Hm), Hp.
    rewrite Q.min_r; unfold Qdiv; change (/ 6) with (1 # 6);
      change (/ 12) with (1 # 12); lra. }
  assert (Hdown : 6 < m -> Express.zoom time == 2 - m / 12).
  { intros Hm. unfold Express.zoom. fold m.
    rewrite (proj2 (lte_false m 6) Hm).
    assert (Hp' : time - floor (time / 12) * 12 - 6 == m - 6) by (rewrite Hp; ring).
    rewrite Hp'.
    rewrite Q.max_r; unfold Qdiv; change (/ 6) with (1 # 6);
      change (/ 12) with (1 # 12); lra. }
  split; [split; assumption|]. split; [exact Hup|]. split; [exact Hdown|].
  destruct (Qlt_le_dec 6 m) as [Hm|Hm].
  - rewrite (Hdown Hm). unfold Qdiv. change (/ 12) with (1 # 12).
    repeat split; intros; lra.
  - rewrite (Hup Hm). unfold Qdiv. change (/ 12) with (1 # 12).
    repeat split; intros; lra.
Qed.

Lemma express_zoom_triangle_witness : Express.zoom 18 == 1 + mod_ 18 12 / 12.
Proof.
  assert (H : 0 <= 18) by (vm_compute; discriminate).
  apply (proj1 (proj2 (express_zoom_triangle 18 H))).
  vm_compute. discriminate.
Defined.

End ExpressZoom.

Section HandlerResponses.
Import Library Scheduler Composer Captions Handler Lambda.

Lemma respond_200 (r : result string) :
  statusCode (respond r) = 200%Z -> exists s3Url, r = Ok s3Url.
Proof.
  destruct r as [u|[name msg]]; simpl; [eauto | discriminate].
Qed.

Lemma prepare_ok (w : Stages) (url : string) :
  prepare w url = Ok tt ->
  downloadVideo w url = Ok tt /\ extractAudio w = Ok tt /\
  exists ws, transcribeWithWhisper w = Ok {| words := Some ws |}.
Proof.
  unfold prepare.
  destruct (downloadVideo w url) as [[]|]; [|discriminate].
  destruct (extractAudio w) as [[]|]; [|discriminate].
  destruct (transcribeWithWhisper w) as [[[ws|]]|]; try discriminate.
  intros _. eauto.
Qed.

Lemma selectClips_ok (w : Stages) (count : Z) (clips : list Clip) :
  (forall l, Permutation (shuffle w l) l) ->
  selectClips w count = Ok clips ->
  exists contents,
    listObjects w = Ok (Some contents) /\ contents <> [] /\
    (length clips <= length (filter isVideoFile contents))%nat.
Proof.
  intros Hperm. unfold selectClips.
  destruct (listObjects w) as [[[|c0 cs]|]|]; try discriminate.
  cbn [bind]. intros Hget. exists (c0 :: cs).
  split; [reflexivity|]. split; [discriminate|].
  unfold getRandomBrollClips in Hget. rewrite slice_prefix in Hget.
  destruct (downloadLoop_ok _ _ _ _ _ Hget) as (Hkeys & _ & _).
  apply (f_equal (@length string)) in Hkeys. rewrite !length_map in Hkeys.
  rewrite Hkeys, length_firstn, (Permutation_length (Hperm _)). lia.
Qed.

Lemma extractLoopRun_ok_clips (w : Stages) (avatarVideo : string)
    (brollClips : list Clip) (insertionPoints : list Q) :
  forall i n currentTime r,
    (i <= length brollClips)%nat ->
    extractLoopRun w avatarVideo brollClips insertionPoints i n currentTime = Ok r ->
    (i + length insertionPoints <= length brollClips)%nat.
Proof.
  induction insertionPoints as [|insertAt rest IH]; intros i n cur r Hi; simpl.
  - intros _. lia.
  - destruct (nth_error brollClips i) as [broll|] eqn:E; [|discriminate].
    assert (Hlt : (i < length brollClips)%nat) by (apply nth_error_Some; congruence).
    destruct (runAll w _) as [[]|]; [|discriminate]. cbn [bind].
    destruct (runExtraction w _) as [[]|]; [|discriminate]. cbn [bind].
    destruct (extractLoopRun w _ _ rest _ _ _) as [r'|] eqn:Hloop; [|discriminate].
    intros _. specialize (IH _ _ _ _ Hlt Hloop). lia.
Qed.

Lemma scheduler_length (totalDuration : Q) (count : Z) :
  length (calculateInsertionPoints totalDuration count) = Z.to_nat count.
Proof. apply pointsLoop_length. Qed.

(** X17.  What a 200 response of the handler that replaces avatar video
    tells: the request had a non-empty [videoUrl], the transcription
    had its [words], the body is the uploaded URL, and a positive
    [brollCount] was not larger than the number of videos in the
    library; a missing or empty [videoUrl] always gives 400, whatever
    the stages do. *)
Theorem replacing_handler_success (w : Stages) (params : Params) :
  (forall l, Permutation (shuffle w l) l) ->
  let count := snd (defaults params) in
  (statusCode (handlerReplace w params) = 200%Z ->
   (exists url, videoUrl params = Some url /\ url <> EmptyString) /\
   (exists ws, transcribeWithWhisper w = Ok {| words := Some ws |}) /\
   (exists s3Url,
       upload w = Ok s3Url /\ body (handlerReplace w params) = VideoBody s3Url) /\
   ((0 < count)%Z ->
    exists contents,
      listObjects w = Ok (Some contents) /\
      (count <= Z.of_nat (length (filter isVideoFile contents)))%Z)) /\
  ((videoUrl params = None \/ videoUrl params = Some EmptyString) ->
   handlerReplace w params = badRequest).
Proof.
  intros Hperm count.
  assert (Hfinish : forall zoom s3Url, finish w zoom = Ok s3Url -> upload w = Ok s3Url).
  { intros zoom u. unfold finish.
    destruct (runFilter w zoom) as [[]|]; [|discriminate].
    destruct (upload w) as [u'|]; [|discriminate].
    destruct (cleanup w) as [[]|]; [|discriminate]. simpl. congruence. }
  split.
  - unfold handlerReplace. subst count.
    destruct (videoUrl params) as [[|c url]|]; try discriminate.
    destruct (defaults params) as [zoom count]. cbn [snd].
    intros H200. destruct (respond_200 _ H200) as [s3Url Hrun]. rewrite Hrun.
    destruct (prepare w (String c url)) as [[]|] eqn:Hprep; [|discriminate].
    destruct (prepare_ok _ _ Hprep) as (_ & _ & Hws). cbn [bind] in Hrun.
    split; [eexists; split; [reflexivity|discriminate]|]. split; [exact Hws|].
    destruct (0 <? count)%Z eqn:Hpos.
    + destruct (getVideoDuration w) as [d|]; [|discriminate]. cbn [bind] in Hrun.
      destruct (extractOriginalAudio w) as [[]|]; [|discriminate]. cbn [bind] in Hrun.
      destruct (selectClips w count) as [clips|] eqn:Hsel; [|discriminate].
      cbn [bind] in Hrun.
      destruct (buildAndExtractRun w _ _ _ _) as [xs|] eqn:Hbuild; [|discriminate].
      cbn [bind] in Hrun.
      destruct (runConcat w _) as [[]|]; [|discriminate]. cbn [bind] in Hrun.
      destruct (remux w) as [[]|]; [|discriminate]. cbn [bind] in Hrun.
      split; [exists s3Url; split; [eapply Hfinish; eassumption|reflexivity]|].
      intros _. destruct (selectClips_ok _ _ _ Hperm Hsel) as (contents & Hl & _ & Hn).
      exists contents. split; [exact Hl|].
      unfold buildAndExtractRun in Hbuild.
      destruct (extractLoopRun w _ _ _ _ _ _) as [r|] eqn:Hloop; [|discriminate].
      apply extractLoopRun_ok_clips in Hloop; [|lia].
      rewrite scheduler_length in Hloop. lia.
    + cbn [bind] in Hrun.
      split; [exists s3Url; split; [eapply Hfinish; eassumption|reflexivity]|].
      apply Z.ltb_ge in Hpos. lia.
  - unfold handlerReplace. intros [-> | ->]; reflexivity.
Qed.

(** A request for two cutaways from a library of two videos, every
    stage succeeding: the response is 200. *)
Lemma replacing_handler_success_witness :
  statusCode
    (handlerReplace
       (allSucceed [ {| word := "hello"; start := 0; end_ := 0.5 |} ] 30
          [ {| Key := "city.mp4" |}; {| Key := "sea.mov" |} ])
       {| videoUrl := Some "https://example.com/avatar.mp4"%string; includeZoom := None;
          brollCount := Some 2%Z |}) = 200%Z /\
  exists contents,
    listObjects
      (allSucceed [ {| word := "hello"; start := 0; end_ := 0.5 |} ] 30
         [ {| Key := "city.mp4" |}; {| Key := "sea.mov" |} ])
    = Ok (Some contents) /\
    (2 <= Z.of_nat (length (filter isVideoFile contents)))%Z.
Proof.
  assert (H200 :
    statusCode
      (handlerReplace
         (allSucceed [ {| word := "hello"; start := 0; end_ := 0.5 |} ] 30
            [ {| Key := "city.mp4" |}; {| Key := "sea.mov" |} ])
         {| videoUrl := Some "https://example.com/avatar.mp4"%string; includeZoom := None;
            brollCount := Some 2%Z |}) = 200%Z) by (vm_compute; reflexivity).
  split; [exact H200|].
  destruct (replacing_handler_success
              (allSucceed [ {| word := "hello"; start := 0; end_ := 0.5 |} ] 30
                 [ {| Key := "city.mp4" |}; {| Key := "sea.mov" |} ])
              {| videoUrl := Some "https://example.com/avatar.mp4"%string;
                 includeZoom := None; brollCount := Some 2%Z |}
              (fun l => Permutation_refl l)) as [Htold _].
  destruct (Htold H200) as (_ & _ & _ & Hcount).
  apply Hcount. reflexivity.
Defined.

Lemma reliable_allSucceed (ws : list Word) (d : Q) (contents : list S3Object) :
  reliable (allSucceed ws d contents).
Proof.
  unfold reliable, allSucceed; simpl.
  repeat split; try reflexivity; eauto using Permutation_refl.
Qed.

Lemma runAll_reliable (w : Stages) (runs : list Extraction) :
  (forall x, runExtraction w x = Ok tt) -> runAll w runs = Ok tt.
Proof.
  intros H. induction runs as [|x rest IH]; simpl; [reflexivity|].
  now rewrite H.
Qed.

Lemma extractLoopRun_throws (w : Stages) (avatarVideo : string)
    (brollClips : list Clip) (insertionPoints : list Q) :
  (forall x, runExtraction w x = Ok tt) ->
  forall i n currentTime,
    (i <= length brollClips < i + length insertionPoints)%nat ->
    extractLoopRun w avatarVideo brollClips insertionPoints i n currentTime
    = undefinedProperty "duration".
Proof.
  intros Hrun.
  induction insertionPoints as [|insertAt rest IH]; intros i n cur Hlen; simpl in *.
  - lia.
  - destruct (nth_error brollClips i) as [broll|] eqn:E; [|reflexivity].
    assert (Hi : (i < length brollClips)%nat) by (apply nth_error_Some; congruence).
    rewrite runAll_reliable by exact Hrun. cbn [bind].
    rewrite Hrun. cbn [bind]. rewrite IH by lia. reflexivity.
Qed.

Lemma selectClips_small_library (w : Stages) (count : Z) (contents : list S3Object) :
  (forall l, Permutation (shuffle w l) l) ->
  (forall k path, exists d, fetchDuration w k path = Ok d) ->
  listObjects w = Ok (Some contents) -> contents <> [] ->
  (Z.of_nat (length (filter isVideoFile contents)) <= count)%Z ->
  exists clips,
    selectClips w count = Ok clips /\
    length clips = length (filter isVideoFile contents).
Proof.
  intros Hperm Hfetch Hlist Hne Hcount. unfold selectClips. rewrite Hlist. cbn [bind].
  destruct contents as [|c0 cs]; [contradiction|].
  unfold getRandomBrollClips.
  set (videoFiles := filter isVideoFile (c0 :: cs)) in *.
  pose proof (Permutation_length (Hperm videoFiles)) as Hlen.
  rewrite slice_from_start by lia.
  rewrite Z.min_r by lia. rewrite Nat2Z.id, <- Hlen, firstn_all.
  destruct (downloadLoop_returns (fetchDuration w) tmpDir (shuffle w videoFiles)
              Hfetch 0%nat) as (clips & Hloop & Hkeys & _).
  exists clips. split; [exact Hloop|].
  apply (f_equal (@length string)) in Hkeys. rewrite !length_map in Hkeys.
  rewrite Hkeys. reflexivity.
Qed.

(** X18.  A library with fewer videos than the requested [brollCount]:
    when every call that leaves the process succeeds, the handler that
    replaces avatar video answers 500 with the [TypeError] of reading
    [duration] of [undefined]. *)
Theorem small_library_breaks_replacing (w : Stages) (params : Params)
    (url : string) (count : Z) (ws : list Word) (d : Q)
    (contents : list S3Object) :
  reliable w ->
  videoUrl params = Some url -> url <> EmptyString ->
  brollCount params = Some count ->
  transcribeWithWhisper w = Ok {| words := Some ws |} ->
  getVideoDuration w = Ok d ->
  listObjects w = Ok (Some contents) -> contents <> [] ->
  (Z.of_nat (length (filter isVideoFile contents)) < count)%Z ->
  handlerReplace w params
  = {| statusCode := 500;
       body := ErrorBody "Cannot read properties of undefined (reading 'duration')" |}.
Proof.
  intros (Hdl & Hea & Hsrt & Hoa & Hperm & Hfetch & Hrun & Hcat & Hmux & Hflt & Hcl)
    Hurl Hne Hcount Hws Hd Hlist Hcne Hsmall.
  assert (Hprep : prepare w url = Ok tt).
  { unfold prepare. rewrite Hdl, Hea, Hws. cbn [bind].
    unfold createSRTFile. cbn [words]. rewrite captionCues_cuesOf. cbn [bind].
    apply Hsrt. }
  assert (Hpos : (0 <? count)%Z = true) by (apply Z.ltb_lt; lia).
  destruct (selectClips_small_library w count contents Hperm Hfetch Hlist Hcne)
    as (clips & Hsel & Hlen); [lia|].
  assert (Hdef : defaults params
                 = (match includeZoom params with Some z => z | None => true end, count))
    by (unfold defaults; rewrite Hcount; reflexivity).
  assert (Hfew : (0 <= length clips
                  < 0 + length (calculateInsertionPoints d count))%nat)
    by (rewrite scheduler_length; lia).
  unfold handlerReplace.
  rewrite Hurl, Hdef. destruct url as [|c u]; [contradiction|].
  rewrite Hprep, Hpos, Hd, Hsel, Hoa. cbn [bind].
  unfold buildAndExtractRun.
  rewrite extractLoopRun_throws by (exact Hrun || exact Hfew). reflexivity.
Qed.

Lemma small_library_breaks_replacing_witness :
  handlerReplace
    (allSucceed [ {| word := "hello"; start := 0; end_ := 0.5 |} ] 30
       [ {| Key := "city.mp4" |}; {| Key := "notes.txt" |} ])
    {| videoUrl := Some "https://example.com/avatar.mp4"%string; includeZoom := None;
       brollCount := Some 2%Z |}
  = {| statusCode := 500;
       body := ErrorBody "Cannot read properties of undefined (reading 'duration')" |}.
Proof.
  apply (small_library_breaks_replacing
           (allSucceed [ {| word := "hello"; start := 0; end_ := 0.5 |} ] 30
              [ {| Key := "city.mp4" |}; {| Key := "notes.txt" |} ])
           _ "https://example.com/avatar.mp4"%string 2
           [ {| word := "hello"; start := 0; end_ := 0.5 |} ] 30
           [ {| Key := "city.mp4" |}; {| Key := "notes.txt" |} ]).
  - apply reliable_allSucceed.
  - reflexivity.
  - discriminate.
  - reflexivity.
  - reflexivity.
  - reflexivity.
  - reflexivity.
  - discriminate.
  - simpl. lia.
Defined.

End HandlerResponses.

Section PlanAlternates.
Import Library Scheduler Composer.

Lemma segmentsLoop_alternates (avatarVideo : string) (brollClips : list Clip)
    (interval : Q) :
  Forall (fun c => usedDuration c < interval) brollClips ->
  forall n i k currentTime,
    (k + n <= length brollClips)%nat ->
    currentTime < startBuffer + interval * inject_Z i ->
    exists r,
      segmentsLoop avatarVideo brollClips (pointsLoop interval i n) k currentTime = Ok r /\
      map type (fst r) = concat (repeat [Avatar; Broll] n) /\
      snd r < startBuffer + interval * inject_Z (i + Z.of_nat n).
Proof.
  intros Hused.
  induction n as [|n IH]; intros i k cur Hlen Hcur.
  - simpl. eexists. split; [reflexivity|]. split; [reflexivity|].
    simpl. now rewrite Z.add_0_r.
  - cbn [pointsLoop segmentsLoop].
    destruct (nth_error brollClips k) as [broll|] eqn:E.
    + assert (Hb : usedDuration broll < interval).
      { rewrite Forall_forall in Hused. apply Hused.
        eapply nth_error_In; eassumption. }
      destruct (IH (i + 1)%Z (S k)
                  (startBuffer + interval * inject_Z i + usedDuration broll))
        as (r & Hr & Htypes & Hfinal); [lia | |].
      * rewrite inject_Z_plus. change (inject_Z 1) with 1. lra.
      * rewrite Hr. cbn [bind].
        rewrite (proj2 (gt_true _ _) Hcur).
        eexists. split; [reflexivity|]. cbn [fst snd]. split.
        -- simpl. now rewrite Htypes.
        -- replace (i + Z.of_nat (S n))%Z with (i + 1 + Z.of_nat n)%Z by lia.
           exact Hfinal.
    + apply nth_error_None in E. lia.
Qed.

(** X19.  For a scheduler run with [totalDuration] beyond the two
    buffers and one clip per point, when every used duration is shorter
    than the spacing of the points the plan alternates: avatar video,
    clip, avatar video, clip, ..., and avatar video at the end, that is
    [2 * count + 1] segments. *)
Theorem plan_alternates (avatarVideo : string) (totalDuration : Q) (count : Z)
    (brollClips : list Clip) :
  startBuffer + endBuffer < totalDuration -> (0 <= count)%Z ->
  Z.of_nat (length brollClips) = count ->
  Forall (fun c => usedDuration c
                   < (totalDuration - startBuffer - endBuffer) / (inject_Z count + 1))
         brollClips ->
  exists segments,
    buildSegments avatarVideo brollClips
      (calculateInsertionPoints totalDuration count) totalDuration = Ok segments /\
    map type segments = concat (repeat [Avatar; Broll] (Z.to_nat count)) ++ [Avatar] /\
    Z.of_nat (length segments) = (2 * count + 1)%Z.
Proof.
  intros Ht Hc Hlen Hused.
  pose proof (interval_positive totalDuration count Ht Hc) as Hpos.
  pose proof (interval_times totalDuration count Hc) as Htimes.
  unfold calculateInsertionPoints, buildSegments.
  set (interval := (totalDuration - startBuffer - endBuffer) / (inject_Z count + 1)) in *.
  destruct (segmentsLoop_alternates avatarVideo brollClips interval Hused
              (Z.to_nat count) 1%Z 0%nat 0) as (r & Hr & Htypes & Hfinal).
  - lia.
  - change (inject_Z 1) with 1. unfold startBuffer. lra.
  - rewrite Hr. cbn [bind].
    rewrite Z2Nat.id, inject_Z_plus in Hfinal by exact Hc.
    change (inject_Z 1) with 1 in Hfinal.
    assert (Hlt : snd r < totalDuration)
      by (unfold startBuffer, endBuffer in *; lra).
    rewrite (proj2 (lt_true _ _) Hlt).
    eexists. split; [reflexivity|].
    assert (Hmap : map type
                     (fst r ++ [ {| type := Avatar; input := avatarVideo; start := snd r;
                                    duration := totalDuration - snd r |} ])
                   = concat (repeat [Avatar; Broll] (Z.to_nat count)) ++ [Avatar])
      by (rewrite map_app, Htypes; reflexivity).
    split; [exact Hmap|].
    apply (f_equal (@length SegmentType)) in Hmap.
    rewrite length_map in Hmap. rewrite Hmap, length_app.
    assert (Hrep : forall n, length (concat (repeat [Avatar; Broll] n)) = (2 * n)%nat)
      by (induction n as [|n IHn]; simpl in *; [reflexivity | rewrite IHn; lia]).
    rewrite Hrep. cbn [length]. lia.
Qed.

Lemma plan_alternates_witness :
  exists segments,
    buildSegments "/tmp/input.mp4"
      [ {| localPath := "/tmp/broll_0.mp4"; Library.duration := 7; key := "a.mp4" |};
        {| localPath := "/tmp/broll_1.mp4"; Library.duration := 2; key := "b.mov" |} ]
      (calculateInsertionPoints 30 2) 30 = Ok segments /\
    map type segments = [Avatar; Broll; Avatar; Broll; Avatar] /\
    Z.of_nat (length segments) = 5%Z.
Proof.
  apply (plan_alternates "/tmp/input.mp4" 30 2).
  - reflexivity.
  - lia.
  - reflexivity.
  - repeat constructor; vm_compute; reflexivity.
Defined.

End PlanAlternates.

Section PlanLength.
Import Library Scheduler Composer.

(** The loop emits at least the time by which it moves the cursor, and
    exactly that time only if no cutaway ran into the next insertion
    point. *)
Lemma segmentsLoop_excess (avatarVideo : string) (brollClips : list Clip)
    (insertionPoints : list Q) :
  forall i currentTime r,
    segmentsLoop avatarVideo brollClips insertionPoints i currentTime = Ok r ->
    snd r <= currentTime + sumDurations (fst r) /\
    (currentTime + sumDurations (fst r) == snd r ->
     forall totalDuration,
       snd r <= totalDuration ->
       fits brollClips insertionPoints i currentTime totalDuration).
Proof.
  induction insertionPoints as [|insertAt rest IH]; intros i cur r; simpl.
  - intros [= <-]. unfold sumDurations. simpl. split; [lra|]. intros _ total H. exact H.
  - destruct (nth_error brollClips i) as [broll|] eqn:E; [|discriminate].
    destruct (segmentsLoop _ _ rest _ _) as [r'|] eqn:Hloop; [|discriminate].
    simpl. intros [= <-]. simpl.
    destruct (IH _ _ _ Hloop) as [Hge Heq].
    unfold sumDurations in *. rewrite map_app, sum_app. simpl.
    destruct (gt insertAt cur) eqn:G; simpl.
    + apply gt_true in G. split; [lra|].
      intros Hsum total Htot. split; [lra|]. apply Heq; [lra | exact Htot].
    + apply gt_false in G. split; [lra|].
      intros Hsum total Htot. split; [lra|]. apply Heq; [lra | exact Htot].
Qed.

(** X20.  A plan is never shorter than the avatar video, and it is
    exactly as long when, and only when, no cutaway runs into the next
    insertion point or past the end; otherwise it is longer. *)
Theorem plan_is_never_shorter (avatarVideo : string) (brollClips : list Clip)
    (insertionPoints : list Q) (totalDuration : Q) (segments : list Segment) :
  buildSegments avatarVideo brollClips insertionPoints totalDuration = Ok segments ->
  totalDuration <= sumDurations segments /\
  (sumDurations segments == totalDuration <->
   fits brollClips insertionPoints 0 0 totalDuration).
Proof.
  intros Hbuild.
  assert (Hif : fits brollClips insertionPoints 0 0 totalDuration ->
                sumDurations segments == totalDuration).
  { intros Hfit.
    destruct (buildSegments_sum avatarVideo _ _ _ Hfit) as (segs & Hsegs & Hsum).
    congruence. }
  unfold buildSegments in Hbuild.
  destruct (segmentsLoop _ _ _ _ _) as [r|] eqn:Hloop; [|discriminate].
  simpl in Hbuild. injection Hbuild as <-.
  destruct (segmentsLoop_excess _ _ _ _ _ _ Hloop) as [Hge Heq].
  unfold sumDurations in *. rewrite map_app, sum_app in *.
  unfold lt in *.
  destruct (Qlt_le_dec (snd r) totalDuration) as [Hlt|Hle]; simpl in *.
  - split; [lra|]. split; [|exact Hif].
    intros Hsum. apply Heq; lra.
  - split; [lra|]. split; [|exact Hif].
    intros Hsum. apply Heq; lra.
Qed.

Lemma plan_is_never_shorter_witness :
  12 <= sumDurations
          [ {| type := Avatar; input := "in.mp4"; start := 0; duration := 5 - 0 |};
            {| type := Broll; input := "b0.mp4"; start := 0; duration := Qmin 4 4 |};
            {| type := Broll; input := "b1.mp4"; start := 0; duration := Qmin 4 4 |};
            {| type := Avatar; input := "in.mp4"; start := 7 + Qmin 4 4;
               duration := 12 - (7 + Qmin 4 4) |} ].
Proof.
  apply (plan_is_never_shorter "in.mp4"
           [ {| localPath := "b0.mp4"; Library.duration := 4; key := "b0.mp4" |};
             {| localPath := "b1.mp4"; Library.duration := 4; key := "b1.mp4" |} ]
           [5; 7] 12).
  reflexivity.
Defined.

End PlanLength.
